(** * Mesh signalling client: peer-session table and per-peer handshake

    A shallow embedding of the browser client of the four-seat WebRTC room:
    - [src/src/webrtc.js]   : the peer-connection factory [createPeerConnection];
    - [src/client/src/App.jsx] : the peer-session table [pcsRef.current], the
      remote-media map [remoteStreams] and the socket handlers that drive one
      mesh edge per peer.

    The browser's media capability ([getUserMedia], [RTCPeerConnection]) is
    external.  Its objects live in an explicit heap of connection records, its
    calls are logged in a trace together with the socket emits, and the
    results of the calls that can reject are read from an oracle
    ([Capability]) over which every theorem is quantified.

    The session table is a plain JS object.  Reading a key that is not an own
    property goes up the prototype chain, so [toString], [constructor] and the
    like resolve to members of [Object.prototype], and an assignment to the
    key [__proto__] replaces the prototype instead of adding a property;
    [App.table_get] and [App.table_delete] follow these rules.

    The handlers and callbacks the source passes around as closures are
    first-order here: a closure is the values it captures together with a tag
    naming its body ([TrackCallback], [IceCallback]), and is run by the
    function that interprets the tag.

    An [async] function is given twice.  In module [App] it is a computation
    in a state-and-exception monad: a rejected [await] aborts the rest of the
    body and keeps the mutations made so far, and the handler runs from its
    first to its last statement with nothing in between ([App.dispatch], and
    [App.run] for events that each find the previous handler finished).  In
    module [Async] the same body is cut at its [await]s into segments, and a
    schedule decides which suspended handler goes on next; [cleanupPeer], the
    lookups that open [handleAnswer] and [handleIce], and the event handlers
    installed by the factory are synchronous in the source and are single
    segments. *)

From Stdlib Require Import String List Bool Arith Lia.
From stdpp Require Import base option list strings gmap.

Local Open Scope string_scope.
Local Open Scope list_scope.

(** ** Values exchanged with the browser and the socket *)

(** A session description ([RTCSessionDescriptionInit]) and an ICE candidate
    are opaque to the client: it only passes them on. *)
Definition Sdp := string.
Definition Candidate := string.
Definition Track := string.

Record MediaStream := { ms_id : string; ms_tracks : list Track }.

(** What [event.streams[0]] may evaluate to. *)
Inductive StreamVal :=
| Undefined
| Stream (m : MediaStream).

(** The values the client puts into a socket payload. *)
Inductive JsVal :=
| JUndefined
| JStr (s : string)
| JDesc (d : Sdp)
| JCand (c : Candidate)
| JList (l : list string).

(** An object literal, keys in source order. *)
Definition Payload := list (string * JsVal).

(** The functions the client passes to the factory as [onTrack] and as
    [onIceCandidate]: [setRemote], and the two arrow functions that emit
    [webrtc-ice], the one written in [makeOffer] and the one written in
    [handleOffer]. *)
Inductive TrackCallback : Set :=
| CbSetRemote.

Inductive IceCallback : Set :=
| CbIceOfMakeOffer
| CbIceOfHandleOffer.

(** One [RTCPeerConnection] object.  [c_ontrack] and [c_onicecandidate] are
    the two event-handler properties: [None] while unset, otherwise the
    closure assigned to it, given by the [peerId] and the callback it
    captures.  The remaining fields are what the object has been told so
    far. *)
Record Conn := {
  c_ontrack : option (string * TrackCallback);
  c_onicecandidate : option (string * IceCallback);
  c_tracks : list Track;
  c_local : option Sdp;
  c_remote : option Sdp;
  c_cands : list Candidate;
  c_closed : bool
}.

(** The peer both handlers of a connection are bound to. *)
Definition c_peer (conn : Conn) : option string :=
  match c_ontrack conn, c_onicecandidate conn with
  | Some (p, _), Some (q, _) => if String.eqb p q then Some p else None
  | _, _ => None
  end.

(** Calls into the capability and socket emits, in program order. *)
Inductive Action :=
| CallGetUserMedia
| CallNew (c : nat)
| CallAddTrack (c : nat) (t : Track)
| CallCreateOffer (c : nat)
| CallCreateAnswer (c : nat)
| CallSetLocalDescription (c : nat) (d : Sdp)
| CallSetRemoteDescription (c : nat) (d : Sdp)
| CallAddIceCandidate (c : nat) (cand : Candidate)
| CallClose (c : nat)
| Emit (event : string) (payload : Payload).

(** ** Client state

    [pcs] is [pcsRef.current] and [remoteStreams] the React state of the same
    name, both JS objects used as maps keyed by the peer's socket id; a value
    of [pcs] is a reference into the heap [conns].

    [pcs] holds the own properties of the table.  The key [__proto__] is never
    an own property of it (an assignment to that key goes to the setter
    inherited from [Object.prototype]), so [pcs] keeps under [__proto__] the
    connection that such an assignment has made the prototype of the table.
    What a read of the table yields, inherited members included, is
    [App.table_get].

    [remoteStreams] is only written through object literals with computed
    keys and through [delete] on a fresh copy, which treat every key,
    [__proto__] included, as an own property.  A functional
    [setRemoteStreams] update is applied where it is issued. *)
Record State := {
  socket_id : string;
  roomId : string;
  password : string;
  inRoom : bool;
  error : string;
  localStream : option MediaStream;
  pcs : gmap string nat;
  remoteStreams : gmap string StreamVal;
  conns : list Conn;
  trace : list Action
}.

Definition init (sid room pw : string) : State :=
  {| socket_id := sid; roomId := room; password := pw; inRoom := false;
     error := EmptyString; localStream := None; pcs := ∅; remoteStreams := ∅;
     conns := []; trace := [] |}.

Definition set_inRoom (b : bool) (s : State) : State :=
  {| socket_id := socket_id s; roomId := roomId s; password := password s;
     inRoom := b; error := error s; localStream := localStream s;
     pcs := pcs s; remoteStreams := remoteStreams s; conns := conns s;
     trace := trace s |}.

Definition set_error (e : string) (s : State) : State :=
  {| socket_id := socket_id s; roomId := roomId s; password := password s;
     inRoom := inRoom s; error := e; localStream := localStream s;
     pcs := pcs s; remoteStreams := remoteStreams s; conns := conns s;
     trace := trace s |}.

Definition set_localStream (m : option MediaStream) (s : State) : State :=
  {| socket_id := socket_id s; roomId := roomId s; password := password s;
     inRoom := inRoom s; error := error s; localStream := m;
     pcs := pcs s; remoteStreams := remoteStreams s; conns := conns s;
     trace := trace s |}.

Definition upd_pcs (f : gmap string nat -> gmap string nat) (s : State) : State :=
  {| socket_id := socket_id s; roomId := roomId s; password := password s;
     inRoom := inRoom s; error := error s; localStream := localStream s;
     pcs := f (pcs s); remoteStreams := remoteStreams s; conns := conns s;
     trace := trace s |}.

Definition upd_remoteStreams
    (f : gmap string StreamVal -> gmap string StreamVal) (s : State) : State :=
  {| socket_id := socket_id s; roomId := roomId s; password := password s;
     inRoom := inRoom s; error := error s; localStream := localStream s;
     pcs := pcs s; remoteStreams := f (remoteStreams s); conns := conns s;
     trace := trace s |}.

Definition upd_conns (f : list Conn -> list Conn) (s : State) : State :=
  {| socket_id := socket_id s; roomId := roomId s; password := password s;
     inRoom := inRoom s; error := error s; localStream := localStream s;
     pcs := pcs s; remoteStreams := remoteStreams s; conns := f (conns s);
     trace := trace s |}.

Definition log (a : Action) (s : State) : State :=
  {| socket_id := socket_id s; roomId := roomId s; password := password s;
     inRoom := inRoom s; error := error s; localStream := localStream s;
     pcs := pcs s; remoteStreams := remoteStreams s; conns := conns s;
     trace := trace s ++ [a] |}.

(** ** The capability oracle

    Whether a call that returns a promise resolves, and with what, is decided
    outside the client.  The oracle sees the whole state at the call, trace
    included, so the same call may fail once and succeed later.

    [cap_member k] tells whether a connection object has a member named [k]
    (own, or inherited from the browser's prototypes: [close],
    [createOffer], ...) with a truthy value; besides the members of
    [Object.prototype], this is what the session table inherits once a
    connection has become its prototype.  A member that is an accessor of the
    connection's interface throws when it is read through the table, which is
    no connection; such a read is not told apart from one that yields a value
    that is not a connection. *)
Record Capability := {
  cap_getUserMedia : State -> option MediaStream;
  cap_createOffer : State -> nat -> option Sdp;
  cap_createAnswer : State -> nat -> option Sdp;
  cap_setLocalDescription : State -> nat -> Sdp -> bool;
  cap_setRemoteDescription : State -> nat -> Sdp -> bool;
  cap_addIceCandidate : State -> nat -> Candidate -> bool;
  cap_member : string -> bool
}.

(** ** Async functions: state with exceptions *)

Inductive Exn :=
| MediaRejected
| CreateOfferRejected
| CreateAnswerRejected
| SetLocalRejected
| SetRemoteRejected
| AddCandidateRejected
| TypeError.

Inductive Outcome (A : Type) :=
| Returned (a : A)
| Thrown (e : Exn).
Arguments Returned {A} a.
Arguments Thrown {A} e.

Definition M (A : Type) : Type := State -> Outcome A * State.

Definition ret {A} (a : A) : M A := fun s => (Returned a, s).

Definition bind {A B} (m : M A) (k : A -> M B) : M B :=
  fun s => match m s with
           | (Returned a, s') => k a s'
           | (Thrown e, s') => (Thrown e, s')
           end.

Definition throw {A} (e : Exn) : M A := fun s => (Thrown e, s).

(** [try { m } catch (e) { h e }] *)
Definition try_catch {A} (m : M A) (h : Exn -> M A) : M A :=
  fun s => match m s with
           | (Returned a, s') => (Returned a, s')
           | (Thrown e, s') => h e s'
           end.

Definition gets {A} (f : State -> A) : M A := fun s => (Returned (f s), s).
Definition modify (f : State -> State) : M unit := fun s => (Returned tt, f s).

Declare Scope js_scope.
Delimit Scope js_scope with js.
Notation "x ← m ; k" := (bind m (fun x => k))
  (at level 20, m at level 100, k at level 200, only parsing) : js_scope.
Notation "m ;; k" := (bind m (fun _ => k))
  (at level 100, k at level 200, only parsing, right associativity) : js_scope.
Local Open Scope js_scope.

(** [for (const x of l) await body(x)] *)
Fixpoint for_of {A} (l : list A) (body : A -> M unit) : M unit :=
  match l with
  | [] => ret tt
  | x :: l' => body x ;; for_of l' body
  end.

Definition state_after {A} (m : M A) (s : State) : State := snd (m s).
Definition outcome_of {A} (m : M A) (s : State) : Outcome A := fst (m s).

(** ** The browser side: [RTCPeerConnection] and [getUserMedia]

    The methods below are the capability of spec section 6, not code of the
    repository: each logs the call, asks the oracle where the call can reject
    and records on the connection what it was told. *)
Module Browser.

Definition blank : Conn :=
  {| c_ontrack := None; c_onicecandidate := None; c_tracks := [];
     c_local := None; c_remote := None; c_cands := []; c_closed := false |}.

(** [pc.ontrack = h] *)
Definition with_ontrack (h : string * TrackCallback) (c : Conn) : Conn :=
  {| c_ontrack := Some h; c_onicecandidate := c_onicecandidate c;
     c_tracks := c_tracks c; c_local := c_local c;
     c_remote := c_remote c; c_cands := c_cands c; c_closed := c_closed c |}.

(** [pc.onicecandidate = h] *)
Definition with_onicecandidate (h : string * IceCallback) (c : Conn) : Conn :=
  {| c_ontrack := c_ontrack c; c_onicecandidate := Some h;
     c_tracks := c_tracks c; c_local := c_local c;
     c_remote := c_remote c; c_cands := c_cands c; c_closed := c_closed c |}.

Definition with_track (t : Track) (c : Conn) : Conn :=
  {| c_ontrack := c_ontrack c; c_onicecandidate := c_onicecandidate c;
     c_tracks := c_tracks c ++ [t]; c_local := c_local c;
     c_remote := c_remote c; c_cands := c_cands c; c_closed := c_closed c |}.

Definition with_local (d : Sdp) (c : Conn) : Conn :=
  {| c_ontrack := c_ontrack c; c_onicecandidate := c_onicecandidate c;
     c_tracks := c_tracks c; c_local := Some d;
     c_remote := c_remote c; c_cands := c_cands c; c_closed := c_closed c |}.

Definition with_remote (d : Sdp) (c : Conn) : Conn :=
  {| c_ontrack := c_ontrack c; c_onicecandidate := c_onicecandidate c;
     c_tracks := c_tracks c; c_local := c_local c;
     c_remote := Some d; c_cands := c_cands c; c_closed := c_closed c |}.

Definition with_cand (x : Candidate) (c : Conn) : Conn :=
  {| c_ontrack := c_ontrack c; c_onicecandidate := c_onicecandidate c;
     c_tracks := c_tracks c; c_local := c_local c;
     c_remote := c_remote c; c_cands := c_cands c ++ [x];
     c_closed := c_closed c |}.

Definition closed (c : Conn) : Conn :=
  {| c_ontrack := c_ontrack c; c_onicecandidate := c_onicecandidate c;
     c_tracks := c_tracks c; c_local := c_local c;
     c_remote := c_remote c; c_cands := c_cands c; c_closed := true |}.

(** Mutate the object behind reference [c]. *)
Definition on_conn (c : nat) (f : Conn -> Conn) : State -> State :=
  upd_conns (alter f c).

(** [new RTCPeerConnection(iceServers)]: a fresh object, referenced by the
    next free index of the heap. *)
Definition new_RTCPeerConnection : M nat :=
  fun s => let c := length (conns s) in
           (Returned c, log (CallNew c) (upd_conns (fun l => l ++ [blank]) s)).

Definition addTrack (c : nat) (t : Track) : M unit :=
  modify (fun s => log (CallAddTrack c t) (on_conn c (with_track t) s)).

(** [pc.close()] is synchronous and does not throw. *)
Definition close (c : nat) : M unit :=
  modify (fun s => log (CallClose c) (on_conn c closed s)).

Section Calls.
Variable cap : Capability.

Definition getUserMedia : M MediaStream :=
  fun s => match cap_getUserMedia cap s with
           | Some m => (Returned m, log CallGetUserMedia s)
           | None => (Thrown MediaRejected, log CallGetUserMedia s)
           end.

Definition createOffer (c : nat) : M Sdp :=
  fun s => match cap_createOffer cap s c with
           | Some d => (Returned d, log (CallCreateOffer c) s)
           | None => (Thrown CreateOfferRejected, log (CallCreateOffer c) s)
           end.

Definition createAnswer (c : nat) : M Sdp :=
  fun s => match cap_createAnswer cap s c with
           | Some d => (Returned d, log (CallCreateAnswer c) s)
           | None => (Thrown CreateAnswerRejected, log (CallCreateAnswer c) s)
           end.

Definition setLocalDescription (c : nat) (d : Sdp) : M unit :=
  fun s => if cap_setLocalDescription cap s c d
           then (Returned tt,
                 log (CallSetLocalDescription c d) (on_conn c (with_local d) s))
           else (Thrown SetLocalRejected, log (CallSetLocalDescription c d) s).

(** [pc.setRemoteDescription(new RTCSessionDescription(sdp))]; a malformed
    [sdp] is one of the ways the oracle may answer [false]. *)
Definition setRemoteDescription (c : nat) (d : Sdp) : M unit :=
  fun s => if cap_setRemoteDescription cap s c d
           then (Returned tt,
                 log (CallSetRemoteDescription c d) (on_conn c (with_remote d) s))
           else (Thrown SetRemoteRejected, log (CallSetRemoteDescription c d) s).

(** [pc.addIceCandidate(new RTCIceCandidate(candidate))]. *)
Definition addIceCandidate (c : nat) (x : Candidate) : M unit :=
  fun s => if cap_addIceCandidate cap s c x
           then (Returned tt,
                 log (CallAddIceCandidate c x) (on_conn c (with_cand x) s))
           else (Thrown AddCandidateRejected, log (CallAddIceCandidate c x) s).

End Calls.

(** Events the browser fires on a connection. *)
Record TrackEvent := { streams : list StreamVal }.
(** [candidate] is [null] ([None]) on the end-of-candidates event. *)
Record IceEvent := { candidate : option Candidate }.

(** [event.streams[0]] *)
Definition streams0 (ev : TrackEvent) : StreamVal :=
  match streams ev with
  | [] => Undefined
  | m :: _ => m
  end.

End Browser.

(** ** [src/src/webrtc.js] *)
Module webrtc.
Import Browser.

(** [pc.ontrack = (event) => { onTrack(peerId, event.streams[0]); }] *)
Definition ontrack (peerId : string) (onTrack : string -> StreamVal -> M unit)
    (event : TrackEvent) : M unit :=
  onTrack peerId (streams0 event).

(** [pc.onicecandidate = (event) => {
       if (event.candidate) onIceCandidate(peerId, event.candidate); }]
    An [RTCIceCandidate] object is truthy, [null] is not. *)
Definition onicecandidate (peerId : string)
    (onIceCandidate : string -> Candidate -> M unit)
    (event : IceEvent) : M unit :=
  match candidate event with
  | Some x => onIceCandidate peerId x
  | None => ret tt
  end.

(** [createPeerConnection({ peerId, localStream, onTrack, onIceCandidate })].
    The two handlers it assigns are closures over [peerId] and one callback
    each. *)
Definition createPeerConnection (peerId : string) (localStream : MediaStream)
    (onTrack : TrackCallback) (onIceCandidate : IceCallback) : M nat :=
  pc ← new_RTCPeerConnection;
  for_of (ms_tracks localStream) (fun t => addTrack pc t) ;;
  modify (on_conn pc (with_ontrack (peerId, onTrack))) ;;
  modify (on_conn pc (with_onicecandidate (peerId, onIceCandidate))) ;;
  ret pc.

(** The browser fires a track event on connection [c]: it calls the closure
    found in [pc.ontrack], whose body is [ontrack] above and whose callback is
    run by [call].  A closed connection, or one whose handler is unset, fires
    nothing. *)
Definition fire_track (call : TrackCallback -> string -> StreamVal -> M unit)
    (c : nat) (event : TrackEvent) : M unit :=
  conn ← gets (fun s => conns s !! c);
  match conn with
  | Some {| c_ontrack := Some (peerId, onTrack); c_closed := false |} =>
      ontrack peerId (call onTrack) event
  | _ => ret tt
  end.

(** The same for an ICE event and [pc.onicecandidate]. *)
Definition fire_icecandidate
    (call : IceCallback -> string -> Candidate -> M unit)
    (c : nat) (event : IceEvent) : M unit :=
  conn ← gets (fun s => conns s !! c);
  match conn with
  | Some {| c_onicecandidate := Some (peerId, onIceCandidate);
            c_closed := false |} =>
      onicecandidate peerId (call onIceCandidate) event
  | _ => ret tt
  end.

End webrtc.

(** ** [src/client/src/App.jsx] *)
Module App.
Import Browser.

(** The acknowledgement of [host-room] and [join-room]:
    [{ok, error?, peers?}]. *)
Record Ack := { ok : bool; err : option string; peers : option (list string) }.

(** What reaches the client: socket messages, acknowledgements, the two
    buttons, and the events the browser fires on a connection. *)
Inductive Event :=
| PeerJoined (peerId : string)
| PeerLeft (peerId : string)
| WebrtcOffer (from : string) (sdp : Sdp)
| WebrtcAnswer (from : string) (sdp : Sdp)
| WebrtcIce (from : string) (cand : Candidate)
| ClickHost
| ClickJoin
| HostAck (res : option Ack)
| JoinAck (res : option Ack)
| PcTrack (c : nat) (ev : TrackEvent)
| PcIceCandidate (c : nat) (ev : IceEvent).

(** [socket.emit(event, payload)] *)
Definition emit (event : string) (payload : Payload) : M unit :=
  modify (log (Emit event payload)).

(** [res?.error || fallback] *)
Definition error_or (res : option Ack) (fallback : string) : string :=
  match res with
  | Some {| err := Some e |} => if String.eqb e EmptyString then fallback else e
  | _ => fallback
  end.

(** [!res?.ok] *)
Definition not_ok (res : option Ack) : bool :=
  match res with
  | Some r => negb (ok r)
  | None => true
  end.

(** [res.peers || []] *)
Definition peers_or_nil (res : option Ack) : list string :=
  match res with
  | Some {| peers := Some l |} => l
  | _ => []
  end.

(** What reading a key of the session table yields: nothing ([undefined]),
    a connection, or some other truthy value that is not a connection (a
    member inherited from a prototype), on which [close],
    [setRemoteDescription] and [addIceCandidate] are not functions. *)
Inductive Slot :=
| Absent
| Holds (c : nat)
| Foreign.

(** The property names of [Object.prototype]. *)
Definition object_prototype : list string :=
  ["__proto__"; "constructor"; "hasOwnProperty"; "isPrototypeOf";
   "propertyIsEnumerable"; "toLocaleString"; "toString"; "valueOf";
   "__defineGetter__"; "__defineSetter__"; "__lookupGetter__";
   "__lookupSetter__"].

Definition is_object_member (k : string) : bool :=
  existsb (String.eqb k) object_prototype.

(** [delete pcsRef.current[k]] removes an own property; [__proto__] is none,
    and the prototype stays what it is. *)
Definition table_delete (k : string) (t : gmap string nat) : gmap string nat :=
  if String.eqb k "__proto__" then t else delete k t.

Section Client.
Variable cap : Capability.

(** Whether key [k], when it is not an own property, is found up the
    prototype chain of the table: on [Object.prototype], or on the connection
    that has become the prototype. *)
Definition inherited (s : State) (k : string) : bool :=
  is_object_member k ||
  match pcs s !! "__proto__" with
  | Some _ => cap_member cap k
  | None => false
  end.

(** [pcsRef.current[k]] *)
Definition table_get (s : State) (k : string) : Slot :=
  match pcs s !! k with
  | Some c => Holds c
  | None => if inherited s k then Foreign else Absent
  end.

(** The cached stream, or a new one from [getUserMedia]; attaching it to the
    local video element is rendering and is left out. *)
Definition initLocalMedia : M MediaStream :=
  cur ← gets localStream;
  match cur with
  | Some stream => ret stream
  | None =>
      stream ← getUserMedia cap;
      modify (set_localStream (Some stream)) ;;
      ret stream
  end.

(** [if (pc) pc.close()] on a value that is not a connection throws, since
    [pc.close] is not a function, and the two deletions are not reached. *)
Definition cleanupPeer (peerId : string) : M unit :=
  pc ← gets (fun s => table_get s peerId);
  match pc with
  | Holds c => close c
  | Foreign => throw TypeError
  | Absent => ret tt
  end ;;
  modify (upd_pcs (table_delete peerId)) ;;
  modify (upd_remoteStreams (delete peerId)).

Definition setRemote (peerId : string) (stream : StreamVal) : M unit :=
  modify (upd_remoteStreams (<[peerId := stream]>)).

(** The body of the [onIceCandidate] arrow function, the same in [makeOffer]
    and in [handleOffer]. *)
Definition onIceCandidate (peerId : string) (x : Candidate) : M unit :=
  me ← gets socket_id;
  emit "webrtc-ice" [("to", JStr peerId); ("from", JStr me); ("candidate", JCand x)].

Definition makeOffer (toPeerId : string) : M unit :=
  localStream ← initLocalMedia;
  pc ← webrtc.createPeerConnection toPeerId localStream
         CbSetRemote CbIceOfMakeOffer;
  modify (upd_pcs (<[toPeerId := pc]>)) ;;
  offer ← createOffer cap pc;
  setLocalDescription cap pc offer ;;
  me ← gets socket_id;
  emit "webrtc-offer" [("to", JStr toPeerId); ("from", JStr me); ("sdp", JDesc offer)].

Definition handleOffer (from : string) (sdp : Sdp) : M unit :=
  localStream ← initLocalMedia;
  pc ← webrtc.createPeerConnection from localStream
         CbSetRemote CbIceOfHandleOffer;
  modify (upd_pcs (<[from := pc]>)) ;;
  setRemoteDescription cap pc sdp ;;
  answer ← createAnswer cap pc;
  setLocalDescription cap pc answer ;;
  me ← gets socket_id;
  emit "webrtc-answer" [("to", JStr from); ("from", JStr me); ("sdp", JDesc answer)].

Definition handleAnswer (from : string) (sdp : Sdp) : M unit :=
  pc ← gets (fun s => table_get s from);
  match pc with
  | Absent => ret tt
  | Holds c => setRemoteDescription cap c sdp
  | Foreign => throw TypeError
  end.

(** On a value that is not a connection the [TypeError] is raised inside the
    [try] and caught like a rejected candidate. *)
Definition handleIce (from : string) (x : Candidate) : M unit :=
  pc ← gets (fun s => table_get s from);
  match pc with
  | Absent => ret tt
  | Holds c => try_catch (addIceCandidate cap c x) (fun _ => ret tt)
  | Foreign => try_catch (throw TypeError) (fun _ => ret tt)
  end.

Definition hostRoom : M unit :=
  modify (set_error EmptyString) ;;
  room ← gets roomId;
  pw ← gets password;
  emit "host-room" [("roomId", JStr room); ("password", JStr pw)].

Definition hostRoom_ack (res : option Ack) : M unit :=
  if not_ok res then modify (set_error (error_or res "Host failed"))
  else (initLocalMedia ;; modify (set_inRoom true)).

Definition joinRoom : M unit :=
  modify (set_error EmptyString) ;;
  room ← gets roomId;
  pw ← gets password;
  emit "join-room" [("roomId", JStr room); ("password", JStr pw)].

Definition joinRoom_ack (res : option Ack) : M unit :=
  if not_ok res then modify (set_error (error_or res "Join failed"))
  else (initLocalMedia ;;
        modify (set_inRoom true) ;;
        for_of (peers_or_nil res) (fun peerId => makeOffer peerId)).

(** What the callback tags stand for. *)
Definition call_track (cb : TrackCallback) : string -> StreamVal -> M unit :=
  match cb with
  | CbSetRemote => setRemote
  end.

Definition call_ice (cb : IceCallback) : string -> Candidate -> M unit :=
  match cb with
  | CbIceOfMakeOffer => onIceCandidate
  | CbIceOfHandleOffer => onIceCandidate
  end.

(** The [socket.on] registrations of the effect, the two acknowledgement
    callbacks, the buttons, and the handlers of the connections. *)
Definition dispatch (e : Event) : M unit :=
  match e with
  | PeerJoined peerId => makeOffer peerId
  | PeerLeft peerId => cleanupPeer peerId
  | WebrtcOffer from sdp => handleOffer from sdp
  | WebrtcAnswer from sdp => handleAnswer from sdp
  | WebrtcIce from x => handleIce from x
  | ClickHost => hostRoom
  | ClickJoin => joinRoom
  | HostAck res => hostRoom_ack res
  | JoinAck res => joinRoom_ack res
  | PcTrack c ev => webrtc.fire_track call_track c ev
  | PcIceCandidate c ev => webrtc.fire_icecandidate call_ice c ev
  end.

(** Events that are handled one after the other, each handler having finished
    when the next event arrives; a rejected handler is an unhandled rejection
    and does not stop the next event.  Schedules in which handlers overlap are
    those of [Async.sched]. *)
Definition run (es : list Event) (s : State) : State :=
  fold_left (fun st e => state_after (dispatch e) st) es s.

End Client.
End App.

(** ** [src/client/src/App.jsx], cut at its [await]s

    The same functions as in [App], with every [await] of the source kept as
    a point where the function is suspended.  A browser call is made when the
    function reaches it: the call is logged, the browser decides from the
    state it sees whether it resolves, and what a resolved call leaves on the
    connection is recorded at once; the function gets the result when it is
    resumed.  Between the suspension and the resumption any other handler may
    run.  The event loop of a browser allows fewer interleavings than that
    (a continuation whose promise has already settled runs before the next
    socket message is delivered), so what holds for every schedule here holds
    for every run of the client. *)
Module Async.
Import Browser App.

(** Where an async function stands: it has settled with an outcome, or it is
    suspended at an [await], and [k] is its next stretch, run on the state it
    finds when it is resumed and up to the following [await]. *)
#[warnings="-register-all"]
Inductive Activation (A : Type) : Type :=
| Done (o : Outcome A)
| Await (k : State -> Activation A * State).
Arguments Done {A} o.
Arguments Await {A} k.

(** An async function: its first stretch. *)
Definition MA (A : Type) : Type := State -> Activation A * State.

Definition retA {A} (a : A) : MA A := fun s => (Done (Returned a), s).

(** Statements without an [await] run in one stretch. *)
Definition sync {A} (m : M A) : MA A :=
  fun s => let (o, s1) := m s in (Done o, s1).

(** The rest [f] of a function body after a part that stands at [t]. *)
Fixpoint then_ {A B} (t : Activation A) (f : A -> MA B) (s : State) : Activation B * State :=
  match t with
  | Done (Returned a) => f a s
  | Done (Thrown e) => (Done (Thrown e), s)
  | Await k => (Await (fun s2 => let (t2, s3) := k s2 in then_ t2 f s3), s)
  end.

Definition bindA {A B} (m : MA A) (f : A -> MA B) : MA B :=
  fun s => let (t, s1) := m s in then_ t f s1.

(** The caller of [await p] is suspended until [p] has settled and is then
    resumed with the outcome of [p]: one more suspension after those of [p]
    itself. *)
Fixpoint settle {A} (t : Activation A) : Activation A :=
  match t with
  | Done o => Await (fun s => (Done o, s))
  | Await k => Await (fun s => let (t2, s2) := k s in (settle t2, s2))
  end.

(** [await m()] *)
Definition await {A} (m : MA A) : MA A :=
  fun s => let (t, s1) := m s in (settle t, s1).

Fixpoint caught {A} (t : Activation A) (h : Exn -> MA A) (s : State) : Activation A * State :=
  match t with
  | Done (Returned a) => (Done (Returned a), s)
  | Done (Thrown e) => h e s
  | Await k => (Await (fun s2 => let (t2, s3) := k s2 in caught t2 h s3), s)
  end.

(** [try { m } catch (e) { h e }] around a body with [await]s. *)
Definition try_catchA {A} (m : MA A) (h : Exn -> MA A) : MA A :=
  fun s => let (t, s1) := m s in caught t h s1.

Declare Scope async_scope.
Delimit Scope async_scope with async.
Notation "x ← m ; k" := (bindA m (fun x => k))
  (at level 20, m at level 100, k at level 200, only parsing) : async_scope.
Notation "m ;; k" := (bindA m (fun _ => k))
  (at level 100, k at level 200, only parsing, right associativity) : async_scope.
Local Open Scope async_scope.

(** [for (const x of l) await body(x)] *)
Fixpoint for_ofA {A} (l : list A) (body : A -> MA unit) : MA unit :=
  match l with
  | [] => retA tt
  | x :: l' => await (body x) ;; for_ofA l' body
  end.

(** A function that is resumed, each time, before anything else runs. *)
Fixpoint finish {A} (t : Activation A) (s : State) : Outcome A * State :=
  match t with
  | Done o => (o, s)
  | Await k => let (t2, s2) := k s in finish t2 s2
  end.

Definition uninterrupted {A} (m : MA A) : M A :=
  fun s => let (t, s1) := m s in finish t s1.

(** Induction on where a function stands. *)
Fixpoint Activation_induction {A} (P : Activation A -> Prop)
    (HD : forall o, P (Done o))
    (HA : forall k, (forall s, P (fst (k s))) -> P (Await k))
    (t : Activation A) : P t :=
  match t with
  | Done o => HD o
  | Await k => HA k (fun s => Activation_induction P HD HA (fst (k s)))
  end.

Section Client.
Variable cap : Capability.

Definition initLocalMedia : MA MediaStream :=
  cur ← sync (gets localStream);
  match cur with
  | Some stream => retA stream
  | None =>
      stream ← await (sync (getUserMedia cap));
      sync (modify (set_localStream (Some stream))) ;;
      retA stream
  end.

(** [createPeerConnection] and the assignment to the table that follows it
    have no [await] between them. *)
Definition makeOffer (toPeerId : string) : MA unit :=
  localStream ← await initLocalMedia;
  pc ← sync (pc ← webrtc.createPeerConnection toPeerId localStream
                    CbSetRemote CbIceOfMakeOffer;
             modify (upd_pcs (<[toPeerId := pc]>)) ;;
             ret pc)%js;
  offer ← await (sync (createOffer cap pc));
  await (sync (setLocalDescription cap pc offer)) ;;
  sync (me ← gets socket_id;
        emit "webrtc-offer"
          [("to", JStr toPeerId); ("from", JStr me); ("sdp", JDesc offer)])%js.

Definition handleOffer (from : string) (sdp : Sdp) : MA unit :=
  localStream ← await initLocalMedia;
  pc ← sync (pc ← webrtc.createPeerConnection from localStream
                    CbSetRemote CbIceOfHandleOffer;
             modify (upd_pcs (<[from := pc]>)) ;;
             ret pc)%js;
  await (sync (setRemoteDescription cap pc sdp)) ;;
  answer ← await (sync (createAnswer cap pc));
  await (sync (setLocalDescription cap pc answer)) ;;
  sync (me ← gets socket_id;
        emit "webrtc-answer"
          [("to", JStr from); ("from", JStr me); ("sdp", JDesc answer)])%js.

Definition handleAnswer (from : string) (sdp : Sdp) : MA unit :=
  pc ← sync (gets (fun s => table_get cap s from));
  match pc with
  | Absent => retA tt
  | Holds c => await (sync (setRemoteDescription cap c sdp))
  | Foreign => sync (throw TypeError)
  end.

Definition handleIce (from : string) (x : Candidate) : MA unit :=
  pc ← sync (gets (fun s => table_get cap s from));
  match pc with
  | Absent => retA tt
  | Holds c =>
      try_catchA (await (sync (addIceCandidate cap c x))) (fun _ => retA tt)
  | Foreign => try_catchA (sync (throw TypeError)) (fun _ => retA tt)
  end.

Definition hostRoom_ack (res : option Ack) : MA unit :=
  if not_ok res then sync (modify (set_error (error_or res "Host failed")))
  else (await initLocalMedia ;; sync (modify (set_inRoom true))).

Definition joinRoom_ack (res : option Ack) : MA unit :=
  if not_ok res then sync (modify (set_error (error_or res "Join failed")))
  else (await initLocalMedia ;;
        sync (modify (set_inRoom true)) ;;
        for_ofA (peers_or_nil res) (fun peerId => makeOffer peerId)).

(** The first stretch of the handler of an event.  [cleanupPeer], the two
    buttons and the handlers installed on a connection have no [await]. *)
Definition dispatch (e : Event) : MA unit :=
  match e with
  | PeerJoined peerId => await (makeOffer peerId)
  | PeerLeft peerId => sync (cleanupPeer cap peerId)
  | WebrtcOffer from sdp => handleOffer from sdp
  | WebrtcAnswer from sdp => handleAnswer from sdp
  | WebrtcIce from x => handleIce from x
  | ClickHost => sync hostRoom
  | ClickJoin => sync joinRoom
  | HostAck res => hostRoom_ack res
  | JoinAck res => joinRoom_ack res
  | PcTrack c ev => sync (webrtc.fire_track call_track c ev)
  | PcIceCandidate c ev => sync (webrtc.fire_icecandidate call_ice c ev)
  end.

(** The client between two stretches: its state and the handlers that are
    suspended. *)
Record World := { now : State; waiting : list (State -> Activation unit * State) }.

Definition start (s : State) : World := {| now := s; waiting := [] |}.

(** What the scheduler does next: deliver an event to its handler, or resume
    the [i]-th suspended handler. *)
Inductive Choice :=
| Deliver (e : Event)
| Resume (i : nat).

(** After a stretch the handler is finished, or suspended again. *)
Definition park (r : Activation unit * State) (others : list (State -> Activation unit * State))
    : World :=
  match fst r with
  | Done _ => {| now := snd r; waiting := others |}
  | Await k => {| now := snd r; waiting := others ++ [k] |}
  end.

Definition step (w : World) (ch : Choice) : World :=
  match ch with
  | Deliver e => park (dispatch e (now w)) (waiting w)
  | Resume i =>
      match waiting w !! i with
      | Some k => park (k (now w)) (delete i (waiting w))
      | None => w
      end
  end.

(** A schedule: any sequence of deliveries and resumptions. *)
Definition sched (chs : list Choice) (w : World) : World :=
  fold_left step chs w.

(** The schedule that delivers [e] and resumes its handler until it has
    finished, from a world in which no handler is suspended. *)
Fixpoint resumptions {A} (t : Activation A) (s : State) : nat :=
  match t with
  | Done _ => 0
  | Await k => let (t2, s2) := k s in S (resumptions t2 s2)
  end.

Definition alone (e : Event) (s : State) : list Choice :=
  Deliver e :: repeat (Resume 0)
                 (resumptions (fst (dispatch e s)) (snd (dispatch e s))).

Fixpoint serial (es : list Event) (s : State) : list Choice :=
  match es with
  | [] => []
  | e :: es' =>
      alone e s ++ serial es' (snd (uninterrupted (dispatch e) s))
  end.

End Client.
End Async.

(** ** Two browsers to run the client against *)
Module Fixture.
Import App.

Definition camera : MediaStream :=
  {| ms_id := "local"; ms_tracks := ["audio"; "video"] |}.

(** Some members of a connection object. *)
Definition is_pc_member (k : string) : bool :=
  existsb (String.eqb k)
    ["close"; "createOffer"; "createAnswer"; "setLocalDescription";
     "setRemoteDescription"; "addIceCandidate"; "addTrack";
     "addEventListener"].

(** Every call resolves. *)
Definition lenient : Capability :=
  {| cap_getUserMedia := fun _ => Some camera;
     cap_createOffer := fun _ _ => Some "offer";
     cap_createAnswer := fun _ _ => Some "answer";
     cap_setLocalDescription := fun _ _ _ => true;
     cap_setRemoteDescription := fun _ _ _ => true;
     cap_addIceCandidate := fun _ _ _ => true;
     cap_member := is_pc_member |}.

(** A candidate is accepted only by an open connection that already has its
    remote description. *)
Definition has_remote (s : State) (c : nat) : bool :=
  match conns s !! c with
  | Some conn => negb (c_closed conn) && bool_decide (is_Some (c_remote conn))
  | None => false
  end.

Definition strict : Capability :=
  {| cap_getUserMedia := fun _ => Some camera;
     cap_createOffer := fun _ _ => Some "offer";
     cap_createAnswer := fun _ _ => Some "answer";
     cap_setLocalDescription := fun _ _ _ => true;
     cap_setRemoteDescription := fun _ _ _ => true;
     cap_addIceCandidate := fun s c _ => has_remote s c;
     cap_member := is_pc_member |}.

End Fixture.

(** * Vocabulary of the statements *)

Import Browser App.

(** The actions a computation appends to the trace. *)
Definition actions {A} (m : M A) (s : State) : list Action :=
  drop (length (trace s)) (trace (state_after m s)).

(** The browser delivers one event after the other, each to its handler. *)
Definition fire_all (hs : list (M unit)) (s : State) : State :=
  fold_left (fun st h => state_after h st) hs s.

(** The connection [createPeerConnection] hands back. *)
Definition fresh_conn (peerId : string) (onTrack : TrackCallback)
    (onIceCandidate : IceCallback) (tracks : list Track) : Conn :=
  {| c_ontrack := Some (peerId, onTrack);
     c_onicecandidate := Some (peerId, onIceCandidate);
     c_tracks := tracks; c_local := None;
     c_remote := None; c_cands := []; c_closed := false |}.

(** The state [createPeerConnection] leaves behind. *)
Definition created (peerId : string) (ls : MediaStream)
    (onTrack : TrackCallback) (onIceCandidate : IceCallback) (s : State)
    : State :=
  {| socket_id := socket_id s; roomId := roomId s; password := password s;
     inRoom := inRoom s; error := error s; localStream := localStream s;
     pcs := pcs s; remoteStreams := remoteStreams s;
     conns := conns s ++ [fresh_conn peerId onTrack onIceCandidate (ms_tracks ls)];
     trace := trace s ++ CallNew (length (conns s))
                :: map (CallAddTrack (length (conns s))) (ms_tracks ls) |}.

(** Wire shapes of spec section 6: [{to, from, sdp}] and
    [{to, from, candidate}]. *)
Definition sdp_payload (to from : string) (d : Sdp) : Payload :=
  [("to", JStr to); ("from", JStr from); ("sdp", JDesc d)].

Definition ice_payload (to from : string) (x : Candidate) : Payload :=
  [("to", JStr to); ("from", JStr from); ("candidate", JCand x)].

(** An action respects the wire shapes when sent by the client whose socket
    id is [me]: the three negotiation events carry exactly their payload, with
    [from] equal to [me]. *)
Definition wire_ok (me : string) (a : Action) : Prop :=
  match a with
  | Emit ev payload =>
      (ev = "webrtc-offer" \/ ev = "webrtc-answer" ->
       exists to d, payload = sdp_payload to me d) /\
      (ev = "webrtc-ice" -> exists to x, payload = ice_payload to me x)
  | _ => True
  end.

(** Client [from] has put an offer addressed to [to] on the wire. *)
Definition offer_sent (from to : string) (l : list Action) : Prop :=
  exists d, Emit "webrtc-offer" (sdp_payload to from d) ∈ l.

(** Spec section 8, "exactly one offerer exists per edge", for the clients
    with states [sA] and [sB]: offers do not travel in both directions. *)
Definition one_offer_direction (sA sB : State) : Prop :=
  ~ (offer_sent (socket_id sA) (socket_id sB) (trace sA) /\
     offer_sent (socket_id sB) (socket_id sA) (trace sB)).


(** Spec section 4.3, [teardown] "safe to call when no session exists
    (no-op)": table and remote-media map are what they were. *)
Definition teardown_is_noop (cap : Capability) (peerId : string) (s : State)
    : Prop :=
  pcs s !! peerId = None ->
  outcome_of (cleanupPeer cap peerId) s = Returned tt /\
  actions (cleanupPeer cap peerId) s = [] /\
  pcs (state_after (cleanupPeer cap peerId) s) = pcs s /\
  remoteStreams (state_after (cleanupPeer cap peerId) s) = remoteStreams s.

(** A computation that keeps the socket id and only appends actions
    satisfying [P] to the trace. *)
Definition appends (me : string) (P : Action -> Prop) {A} (m : M A) : Prop :=
  forall s, socket_id s = me ->
    socket_id (state_after m s) = me /\
    exists l, trace (state_after m s) = trace s ++ l /\ Forall P l.

(** What a handler does before it negotiates: open the camera on first use,
    build the connection and attach the local tracks. *)
Definition setup_actions (s : State) (c : nat) (ls : MediaStream) : list Action :=
  match localStream s with
  | Some _ => []
  | None => [CallGetUserMedia]
  end ++ CallNew c :: map (CallAddTrack c) (ms_tracks ls).

(** Join scenario of spec section 8 seen from the host [a]: it created the
    room, then is told that [b] joined. *)
Definition host_side (cap : Capability) (a b : string) : State :=
  run cap [ClickHost; HostAck (Some {| ok := true; err := None; peers := None |});
           PeerJoined b] (init a "r1" "p").

(** The same scenario seen from the joiner [b]: the acknowledgement lists the
    host. *)
Definition joiner_side (cap : Capability) (a b : string) : State :=
  run cap [ClickJoin;
           JoinAck (Some {| ok := true; err := None; peers := Some [a] |})]
      (init b "r1" "p").

(** A run of client ["a"] in which peer ["b"] is referenced twice (our offer,
    then theirs), leaves, and the first connection, never closed, still
    delivers a track. *)
Definition late_track : list Event :=
  [PeerJoined "b"; WebrtcAnswer "b" "answer-b"; WebrtcOffer "b" "offer-b";
   PeerLeft "b";
   PcTrack 0 {| streams := [Stream {| ms_id := "remote"; ms_tracks := ["video"] |}] |}].

(** What [makeOffer] does once the connection is in the table. *)
Definition offer_tail (cap : Capability) (toPeerId : string) (c : nat)
    (s2 : State) : Outcome unit * State :=
  match cap_createOffer cap s2 c with
  | None => (Thrown CreateOfferRejected, log (CallCreateOffer c) s2)
  | Some offer =>
      let s3 := log (CallCreateOffer c) s2 in
      if cap_setLocalDescription cap s3 c offer
      then (Returned tt,
            log (Emit "webrtc-offer" (sdp_payload toPeerId (socket_id s2) offer))
              (log (CallSetLocalDescription c offer)
                 (on_conn c (with_local offer) s3)))
      else (Thrown SetLocalRejected, log (CallSetLocalDescription c offer) s3)
  end.

(** What [handleOffer] does once the connection is in the table. *)
Definition answer_tail (cap : Capability) (from : string) (sdp : Sdp) (c : nat)
    (s2 : State) : Outcome unit * State :=
  if cap_setRemoteDescription cap s2 c sdp
  then
    let s3 := log (CallSetRemoteDescription c sdp)
                (on_conn c (with_remote sdp) s2) in
    match cap_createAnswer cap s3 c with
    | None => (Thrown CreateAnswerRejected, log (CallCreateAnswer c) s3)
    | Some answer =>
        let s4 := log (CallCreateAnswer c) s3 in
        if cap_setLocalDescription cap s4 c answer
        then (Returned tt,
              log (Emit "webrtc-answer" (sdp_payload from (socket_id s2) answer))
                (log (CallSetLocalDescription c answer)
                   (on_conn c (with_local answer) s4)))
        else (Thrown SetLocalRejected,
              log (CallSetLocalDescription c answer) s4)
    end
  else (Thrown SetRemoteRejected, log (CallSetRemoteDescription c sdp) s2).

(** The rest of either handler touches the new connection and the trace
    only. *)
Definition tail_frame (c : nat) (s2 : State) (r : Outcome unit * State) : Prop :=
  socket_id (snd r) = socket_id s2 /\
  pcs (snd r) = pcs s2 /\
  remoteStreams (snd r) = remoteStreams s2 /\
  length (conns (snd r)) = length (conns s2) /\
  (forall c0, c0 <> c -> conns (snd r) !! c0 = conns s2 !! c0) /\
  exists l, trace (snd r) = trace s2 ++ l /\ Forall (wire_ok (socket_id s2)) l.

(** The peer a socket message is about. *)
Definition about_peer (e : Event) : option string :=
  match e with
  | PeerJoined p | PeerLeft p => Some p
  | WebrtcOffer p _ | WebrtcAnswer p _ | WebrtcIce p _ => Some p
  | _ => None
  end.

(** * Vocabulary of the further properties *)

(** The socket emits among a list of actions. *)
Definition is_emit (a : Action) : bool :=
  match a with
  | Emit _ _ => true
  | _ => false
  end.

Definition emits (l : list Action) : list Action := List.filter is_emit l.

(** The addressee of an emitted [webrtc-offer]. *)
Definition offer_target (a : Action) : option string :=
  match a with
  | Emit ev ((k, JStr to) :: _) =>
      if String.eqb ev "webrtc-offer" && String.eqb k "to" then Some to else None
  | _ => None
  end.

Definition offer_targets (l : list Action) : list string := omap offer_target l.

(** Two snapshots of one connection object that agree on what the client set
    up: the two handlers, the attached tracks, and whether it is closed. *)
Definition same_edge (conn conn' : Conn) : Prop :=
  c_ontrack conn' = c_ontrack conn /\
  c_onicecandidate conn' = c_onicecandidate conn /\
  c_tracks conn' = c_tracks conn /\
  c_closed conn' = c_closed conn.

(** A negotiation call or a socket emit. *)
Definition is_signal (a : Action) : bool :=
  match a with
  | CallCreateOffer _ | CallCreateAnswer _ => true
  | CallSetLocalDescription _ _ | CallSetRemoteDescription _ _ => true
  | CallAddIceCandidate _ _ => true
  | Emit _ _ => true
  | _ => false
  end.

(** [s'] is [s] after negotiation only: descriptions and candidates of the
    connections and the trace may have moved, nothing else. *)
Definition negotiates (s s' : State) : Prop :=
  socket_id s' = socket_id s /\ roomId s' = roomId s /\
  password s' = password s /\ inRoom s' = inRoom s /\ error s' = error s /\
  localStream s' = localStream s /\ pcs s' = pcs s /\
  remoteStreams s' = remoteStreams s /\
  Forall2 same_edge (conns s) (conns s') /\
  exists l, trace s' = trace s ++ l /\ Forall (fun a => is_signal a = true) l.

(** The moves a handler is made of, apart from tearing an edge down. *)
Inductive quiet : State -> State -> Prop :=
| quiet_negotiate s s' :
    negotiates s s' -> quiet s s'
| quiet_camera_call s :
    localStream s = None ->
    quiet s (log CallGetUserMedia s)
| quiet_camera_on s ls :
    quiet s (set_localStream (Some ls) s)
| quiet_create s p ls onTrack onIceCandidate :
    quiet s (upd_pcs (<[p := length (conns s)]>)
               (created p ls onTrack onIceCandidate s))
| quiet_track s c conn p onTrack v :
    conns s !! c = Some conn -> c_ontrack conn = Some (p, onTrack) ->
    c_closed conn = false ->
    quiet s (upd_remoteStreams (<[p := v]>) s)
| quiet_error s e :
    quiet s (set_error e s)
| quiet_inRoom s b :
    quiet s (set_inRoom b s).

(** What the handler of event [e] makes of state [s]: [peer-left] is one
    [cleanupPeer], every other handler a sequence of quiet moves. *)
Definition handled (cap : Capability) (e : Event) (s s' : State) : Prop :=
  match e with
  | PeerLeft p => s' = state_after (cleanupPeer cap p) s
  | _ => rtc quiet s s'
  end.

(** Every entry of the table refers to a connection that exists and is bound
    to that peer; it is open, unless it is the one kept under [__proto__],
    which [delete] does not remove. *)
Definition table_ok (s : State) : Prop :=
  forall p c, pcs s !! p = Some c ->
    exists conn, conns s !! c = Some conn /\
                 c_peer conn = Some p /\
                 (p <> "__proto__" -> c_closed conn = false).

(** Connection [c] exists, is open, and no entry of the table refers to it. *)
Definition stray (c : nat) (s : State) : Prop :=
  (exists conn, conns s !! c = Some conn /\ c_closed conn = false) /\
  forall p, pcs s !! p <> Some c.

(** A stream is cached and the camera has not been asked for again since
    state [s0]. *)
Definition camera_kept (s0 s : State) : Prop :=
  is_Some (localStream s) /\
  exists l, trace s = trace s0 ++ l /\ CallGetUserMedia ∉ l.

(** A computation that only makes quiet moves. *)
Definition quietly {A} (m : M A) : Prop :=
  forall s, rtc quiet s (state_after m s).

(** * Further vocabulary *)

(** Spec section 8, "tear down its corresponding PeerEdge (state transitions
    to Closed, table entry removed)", for [peer-left{p}] in state [s]. *)
Definition tears_down (cap : Capability) (p : string) (s : State) : Prop :=
  let s' := state_after (dispatch cap (PeerLeft p)) s in
  outcome_of (dispatch cap (PeerLeft p)) s = Returned tt /\
  table_get cap s' p = Absent /\
  remoteStreams s' !! p = None.


(** Spec section 7, "a failed negotiation leaves that one PeerEdge in
    Closed": when the handler [m] of a message about peer [p] rejects, the
    connection the table then holds for [p] is closed. *)
Definition failure_closes_edge (m : M unit) (p : string) (s : State) : Prop :=
  forall e c conn,
    outcome_of m s = Thrown e ->
    pcs (state_after m s) !! p = Some c ->
    conns (state_after m s) !! c = Some conn ->
    c_closed conn = true.

(** A browser that rejects every remote description. *)
Definition deaf : Capability :=
  {| cap_getUserMedia := fun _ => Some Fixture.camera;
     cap_createOffer := fun _ _ => Some "offer";
     cap_createAnswer := fun _ _ => Some "answer";
     cap_setLocalDescription := fun _ _ _ => true;
     cap_setRemoteDescription := fun _ _ _ => false;
     cap_addIceCandidate := fun _ _ _ => true;
     cap_member := Fixture.is_pc_member |}.

(** A browser without a camera. *)
Definition blind : Capability :=
  {| cap_getUserMedia := fun _ => None;
     cap_createOffer := fun _ _ => Some "offer";
     cap_createAnswer := fun _ _ => Some "answer";
     cap_setLocalDescription := fun _ _ _ => true;
     cap_setRemoteDescription := fun _ _ _ => true;
     cap_addIceCandidate := fun _ _ _ => true;
     cap_member := Fixture.is_pc_member |}.

(** From [s] to [s'] no connection has been closed: each connection of [s']
    is closed exactly if it was so in [s], and a new one is open. *)
Definition closes_nothing (s s' : State) : Prop :=
  length (conns s) <= length (conns s') /\
  forall c conn', conns s' !! c = Some conn' ->
    c_closed conn' = match conns s !! c with
                     | Some conn => c_closed conn
                     | None => false
                     end.

(** * Vocabulary of the statements about schedules *)

(** From where it stands, a function only makes quiet moves, stretch after
    stretch, in whatever states it is resumed. *)
Fixpoint calm_from {A} (t : Async.Activation A) : Prop :=
  match t with
  | Async.Done _ => True
  | Async.Await k => forall s, rtc quiet s (snd (k s)) /\ calm_from (fst (k s))
  end.

Definition calm_stretch {A} (k : State -> Async.Activation A * State) : Prop :=
  forall s, rtc quiet s (snd (k s)) /\ calm_from (fst (k s)).

(** In world [w] the state satisfies [I] and every suspended handler only
    has quiet moves left. *)
Definition steady (I : State -> Prop) (w : Async.World) : Prop :=
  I (Async.now w) /\ Forall calm_stretch (Async.waiting w).

(** How often [getUserMedia] has been called. *)
Definition is_camera_call (a : Action) : bool :=
  match a with
  | CallGetUserMedia => true
  | _ => false
  end.

Definition camera_calls (l : list Action) : nat :=
  length (List.filter is_camera_call l).

(** An event whose handler starts by asking for the local media. *)
Definition wants_camera (e : Event) : bool :=
  match e with
  | PeerJoined _ | WebrtcOffer _ _ => true
  | HostAck res | JoinAck res => negb (not_ok res)
  | _ => false
  end.

(** * Properties *)

(** ** The factory in closed form *)

Lemma state_eq (s1 s2 : State) :
  socket_id s1 = socket_id s2 -> roomId s1 = roomId s2 ->
  password s1 = password s2 -> inRoom s1 = inRoom s2 -> error s1 = error s2 ->
  localStream s1 = localStream s2 -> pcs s1 = pcs s2 ->
  remoteStreams s1 = remoteStreams s2 -> conns s1 = conns s2 ->
  trace s1 = trace s2 -> s1 = s2.
Proof. destruct s1, s2; simpl; intros; subst; reflexivity. Qed.

Lemma addTracks_closed (c : nat) (ts : list Track) :
  forall (s : State) (pre : list Conn) (cn : Conn),
    conns s = pre ++ [cn] -> length pre = c ->
    for_of ts (addTrack c) s =
    (Returned tt,
     {| socket_id := socket_id s; roomId := roomId s; password := password s;
        inRoom := inRoom s; error := error s; localStream := localStream s;
        pcs := pcs s; remoteStreams := remoteStreams s;
        conns := pre ++ [{| c_ontrack := c_ontrack cn;
                            c_onicecandidate := c_onicecandidate cn;
                            c_tracks := c_tracks cn ++ ts;
                            c_local := c_local cn; c_remote := c_remote cn;
                            c_cands := c_cands cn; c_closed := c_closed cn |}];
        trace := trace s ++ map (CallAddTrack c) ts |}).
Proof.
  induction ts as [|t ts IH]; intros s pre cn Hc Hlen.
  - simpl. unfold ret. f_equal. apply state_eq; simpl; try reflexivity.
    + rewrite Hc, app_nil_r. destruct cn; reflexivity.
    + now rewrite app_nil_r.
  - simpl. unfold bind at 1. unfold addTrack at 1, modify.
    rewrite (IH _ pre (with_track t cn)).
    + f_equal. apply state_eq; simpl; try reflexivity.
      * now rewrite <- app_assoc.
      * now rewrite <- app_assoc.
    + simpl. rewrite Hc. subst c.
      replace (length pre) with (length pre + 0) by lia.
      now rewrite alter_app_r.
    + exact Hlen.
Qed.

Lemma alter_last {A} (f : A -> A) (l : list A) (x : A) :
  alter f (length l) (l ++ [x]) = l ++ [f x].
Proof.
  replace (length l) with (length l + 0) at 1 by lia.
  now rewrite alter_app_r.
Qed.

Lemma createPeerConnection_closed (peerId : string) (ls : MediaStream)
    (onTrack : TrackCallback) (onIceCandidate : IceCallback) (s : State) :
  webrtc.createPeerConnection peerId ls onTrack onIceCandidate s
  = (Returned (length (conns s)), created peerId ls onTrack onIceCandidate s).
Proof.
  unfold webrtc.createPeerConnection, bind, new_RTCPeerConnection.
  rewrite (addTracks_closed _ _ _ (conns s) blank); [|reflexivity|reflexivity].
  unfold modify, ret, on_conn. simpl. f_equal.
  apply state_eq; simpl; try reflexivity.
  - now rewrite !alter_last.
  - now rewrite <- app_assoc.
Qed.

(** ** The ICE filter of the factory *)

Lemma fire_icecandidate_installed
    (call : IceCallback -> string -> Candidate -> M unit) (c : nat)
    (conn : Conn) (peerId : string) (cb : IceCallback) (ev : IceEvent)
    (st : State) :
  conns st !! c = Some conn ->
  c_onicecandidate conn = Some (peerId, cb) -> c_closed conn = false ->
  webrtc.fire_icecandidate call c ev st
  = match candidate ev with
    | Some x => call cb peerId x st
    | None => (Returned tt, st)
    end.
Proof.
  intros Hc Hh Hcl. unfold webrtc.fire_icecandidate, bind, gets. rewrite Hc.
  destruct conn as [ot oi tr lo re ca cl]. simpl in Hh, Hcl. subst oi cl.
  unfold webrtc.onicecandidate. destruct (candidate ev); reflexivity.
Qed.

Lemma fire_all_cons (h : M unit) (hs : list (M unit)) (s : State) :
  fire_all (h :: hs) s = fire_all hs (state_after h s).
Proof. reflexivity. Qed.

(** C9.  [createPeerConnection] hands back a connection on which it has
    installed an [onicecandidate] handler that forwards an ICE event to the
    [onIceCandidate] callback it was given exactly when the event carries a
    candidate.  Whatever the callback does when called: an event fired on the
    new connection, now or in any later state in which that connection is as
    the factory left it, is the callback applied to the [peerId] given to the
    factory and to the candidate, or nothing at all on the end-of-candidates
    event ([candidate = null]); and, for a callback that does not touch the
    connections, firing any sequence of ICE events has the effect of calling
    the callback on the non-null candidates of the sequence, in order. *)
Theorem factory_forwards_candidates
    (call : IceCallback -> string -> Candidate -> M unit)
    (peerId : string) (ls : MediaStream)
    (onTrack : TrackCallback) (onIceCandidate : IceCallback) (s : State) :
  let build := webrtc.createPeerConnection peerId ls onTrack onIceCandidate in
  let c := length (conns s) in
  let s' := state_after build s in
  outcome_of build s = Returned c /\
  (forall ev st,
     conns st !! c = conns s' !! c ->
     webrtc.fire_icecandidate call c ev st
     = match candidate ev with
       | Some x => call onIceCandidate peerId x st
       | None => (Returned tt, st)
       end) /\
  (forall events,
     (forall cb p x st, conns (state_after (call cb p x) st) = conns st) ->
     fire_all (map (webrtc.fire_icecandidate call c) events) s'
     = fire_all (map (call onIceCandidate peerId) (omap candidate events)) s').
Proof.
  intros build c s'.
  assert (Hnew : conns s' !! c
                 = Some (fresh_conn peerId onTrack onIceCandidate (ms_tracks ls))).
  { unfold s', build, state_after. rewrite createPeerConnection_closed. simpl.
    apply list_lookup_middle. reflexivity. }
  assert (Hone : forall ev st, conns st !! c = conns s' !! c ->
            webrtc.fire_icecandidate call c ev st
            = match candidate ev with
              | Some x => call onIceCandidate peerId x st
              | None => (Returned tt, st)
              end).
  { intros ev st Hst. rewrite Hnew in Hst.
    apply (fire_icecandidate_installed call c _ peerId onIceCandidate ev st Hst);
      reflexivity. }
  split.
  { unfold build, outcome_of. now rewrite createPeerConnection_closed. }
  split; [exact Hone|].
  intros events Hframe.
  assert (Hgo : forall st, conns st !! c = conns s' !! c ->
            fire_all (map (webrtc.fire_icecandidate call c) events) st
            = fire_all (map (call onIceCandidate peerId) (omap candidate events)) st).
  { induction events as [|ev events IH]; intros st Hst; [reflexivity|].
    assert (Hev : state_after (webrtc.fire_icecandidate call c ev) st
                  = match candidate ev with
                    | Some x => state_after (call onIceCandidate peerId x) st
                    | None => st
                    end).
    { unfold state_after. rewrite (Hone ev st Hst).
      destruct (candidate ev); reflexivity. }
    simpl map. rewrite fire_all_cons, Hev. destruct ev as [[x|]].
    - change (fire_all (map (webrtc.fire_icecandidate call c) events)
                (state_after (call onIceCandidate peerId x) st)
              = fire_all (map (call onIceCandidate peerId) (omap candidate events))
                  (state_after (call onIceCandidate peerId x) st)).
      apply IH. now rewrite Hframe.
    - change (fire_all (map (webrtc.fire_icecandidate call c) events) st
              = fire_all (map (call onIceCandidate peerId) (omap candidate events))
                  st).
      apply IH. exact Hst. }
  apply Hgo. reflexivity.
Qed.

Lemma factory_forwards_candidates_witness :
  let s := init "a" "r1" "p" in
  let s' := state_after
              (webrtc.createPeerConnection "b" Fixture.camera CbSetRemote
                 CbIceOfMakeOffer) s in
  fire_all (map (webrtc.fire_icecandidate call_ice 0)
              [{| candidate := Some "c1" |}; {| candidate := None |};
               {| candidate := Some "c2" |}]) s'
  = fire_all (map (call_ice CbIceOfMakeOffer "b") ["c1"; "c2"]) s'.
Proof.
  intros s.
  destruct (factory_forwards_candidates call_ice "b" Fixture.camera CbSetRemote
              CbIceOfMakeOffer s) as (_ & _ & H).
  apply (H [{| candidate := Some "c1" |}; {| candidate := None |};
            {| candidate := Some "c2" |}]).
  intros [] p x st; reflexivity.
Defined.

(** ** Reading and clearing the table *)

Lemma table_get_own (cap : Capability) (s : State) (p : string) (c : nat) :
  pcs s !! p = Some c -> table_get cap s p = Holds c.
Proof. intros H. unfold table_get. now rewrite H. Qed.

Lemma table_get_absent (cap : Capability) (s : State) (p : string) :
  pcs s !! p = None -> inherited cap s p = false -> table_get cap s p = Absent.
Proof. intros H Hi. unfold table_get. now rewrite H, Hi. Qed.

Lemma table_get_foreign (cap : Capability) (s : State) (p : string) :
  pcs s !! p = None -> inherited cap s p = true -> table_get cap s p = Foreign.
Proof. intros H Hi. unfold table_get. now rewrite H, Hi. Qed.

Lemma table_get_Holds (cap : Capability) (s : State) (p : string) (c : nat) :
  table_get cap s p = Holds c <-> pcs s !! p = Some c.
Proof.
  unfold table_get. destruct (pcs s !! p) as [c0|].
  - split; intros [= ->]; reflexivity.
  - destruct (inherited cap s p); split; discriminate.
Qed.

Lemma not_inherited_not_proto (cap : Capability) (s : State) (p : string) :
  inherited cap s p = false -> p <> "__proto__".
Proof. intros H ->. discriminate H. Qed.

Lemma table_delete_plain (p : string) (t : gmap string nat) :
  p <> "__proto__" -> table_delete p t = delete p t.
Proof.
  intros H. unfold table_delete.
  destruct (String.eqb_spec p "__proto__"); [contradiction|reflexivity].
Qed.

Lemma table_delete_other (p q : string) (t : gmap string nat) :
  p <> q -> table_delete p t !! q = t !! q.
Proof.
  intros H. unfold table_delete.
  destruct (String.eqb p "__proto__"); [reflexivity|now apply lookup_delete_ne].
Qed.

Lemma table_delete_Some (p q : string) (t : gmap string nat) (c : nat) :
  table_delete p t !! q = Some c -> t !! q = Some c.
Proof.
  unfold table_delete. destruct (String.eqb p "__proto__"); [auto|].
  intros H. apply lookup_delete_Some in H. tauto.
Qed.

Lemma cleanupPeer_some (cap : Capability) (p : string) (c : nat) (s : State) :
  pcs s !! p = Some c ->
  cleanupPeer cap p s
  = (Returned tt,
     upd_remoteStreams (delete p)
       (upd_pcs (table_delete p) (log (CallClose c) (on_conn c closed s)))).
Proof.
  intros H. unfold cleanupPeer, bind, gets.
  rewrite (table_get_own cap s p c H). reflexivity.
Qed.

Lemma cleanupPeer_none (cap : Capability) (p : string) (s : State) :
  table_get cap s p = Absent ->
  cleanupPeer cap p s
  = (Returned tt, upd_remoteStreams (delete p) (upd_pcs (table_delete p) s)).
Proof.
  intros H. unfold cleanupPeer, bind, gets. rewrite H. reflexivity.
Qed.

Lemma cleanupPeer_foreign (cap : Capability) (p : string) (s : State) :
  table_get cap s p = Foreign ->
  cleanupPeer cap p s = (Thrown TypeError, s).
Proof.
  intros H. unfold cleanupPeer, bind, gets. rewrite H. reflexivity.
Qed.

Lemma drop_own_length {A} (l k : list A) : drop (length l) (l ++ k) = k.
Proof. now rewrite drop_app_length. Qed.

(** ** Tearing an edge down *)

(** C3.  The handler of [peer-left] does not tear the edge down for the
    identifiers the table inherits from its prototype.  After
    [peer-joined{__proto__}] the connection built for that peer is the
    prototype of the table; [peer-left{__proto__}] closes it, but [delete]
    removes no property, and the table still yields the connection.  And
    [peer-left{toString}] for a peer without a session finds the inherited
    function, which passes the test [if (pc)] and on which [close] is not a
    function: the handler throws before it deletes anything. *)
Lemma peer_left_inherited_key :
  let s := run Fixture.lenient [PeerJoined "__proto__"] (init "a" "r1" "p") in
  let s' := state_after (dispatch Fixture.lenient (PeerLeft "__proto__")) s in
  table_get Fixture.lenient s "__proto__" = Holds 0 /\
  table_get Fixture.lenient s' "__proto__" = Holds 0 /\
  ~ tears_down Fixture.lenient "__proto__" s /\
  outcome_of (dispatch Fixture.lenient (PeerLeft "toString")) (init "a" "r1" "p")
  = Thrown TypeError /\
  ~ tears_down Fixture.lenient "toString" (init "a" "r1" "p").
Proof.
  intros s s'. split; [reflexivity|]. split; [reflexivity|]. split.
  - intros (_ & H & _). discriminate H.
  - split; [reflexivity|]. intros (H & _). discriminate H.
Qed.

(** X19.  For every peer identifier [p] that is not the name of a
    member the table inherits from its prototype, the handler of
    [peer-left{p}] returns normally, the connection the table held for [p] is
    closed (the [close] call is made and the object is marked closed), a read
    of the table at [p] yields nothing any more and the remote-media map has
    no stream for [p] any more. *)
Theorem peer_left_tears_down (cap : Capability) (p : string) (s : State) :
  inherited cap s p = false ->
  let s' := state_after (dispatch cap (PeerLeft p)) s in
  outcome_of (dispatch cap (PeerLeft p)) s = Returned tt /\
  pcs s' !! p = None /\
  table_get cap s' p = Absent /\
  remoteStreams s' !! p = None /\
  (forall c conn,
     pcs s !! p = Some c -> conns s !! c = Some conn ->
     conns s' !! c = Some (closed conn) /\
     c_closed (closed conn) = true /\
     actions (dispatch cap (PeerLeft p)) s = [CallClose c]).
Proof.
  intros Hin. pose proof (not_inherited_not_proto cap s p Hin) as Hne.
  simpl. unfold state_after, outcome_of, actions, state_after.
  assert (Hlater : forall s1, pcs s1 = delete p (pcs s) ->
            pcs s1 !! p = None /\ table_get cap s1 p = Absent).
  { intros s1 H1.
    assert (Hp : pcs s1 !! p = None) by (rewrite H1; apply lookup_delete_eq).
    split; [exact Hp|]. apply table_get_absent; [exact Hp|].
    unfold inherited in *. rewrite H1, lookup_delete_ne by congruence.
    exact Hin. }
  destruct (pcs s !! p) as [c|] eqn:E.
  - rewrite (cleanupPeer_some cap p c s E). cbn [fst snd].
    destruct (Hlater (upd_remoteStreams (delete p)
                (upd_pcs (table_delete p)
                   (log (CallClose c) (on_conn c closed s))))) as [H1 H2].
    { simpl. now apply table_delete_plain. }
    split; [reflexivity|]. split; [exact H1|]. split; [exact H2|].
    split; [simpl; apply lookup_delete_eq|].
    intros c0 conn Hc Hconn. injection Hc as <-. simpl.
    split; [|split; [reflexivity|apply drop_own_length]].
    rewrite list_lookup_alter_eq, Hconn. reflexivity.
  - rewrite (cleanupPeer_none cap p s (table_get_absent cap s p E Hin)).
    cbn [fst snd].
    destruct (Hlater (upd_remoteStreams (delete p)
                (upd_pcs (table_delete p) s))) as [H1 H2].
    { simpl. now apply table_delete_plain. }
    split; [reflexivity|]. split; [exact H1|]. split; [exact H2|].
    split; [simpl; apply lookup_delete_eq|]. discriminate.
Qed.

Lemma peer_left_tears_down_witness :
  let s := run Fixture.lenient [PeerJoined "b"] (init "a" "r1" "p") in
  let s' := state_after (dispatch Fixture.lenient (PeerLeft "b")) s in
  let conn := {| c_ontrack := Some ("b", CbSetRemote);
                 c_onicecandidate := Some ("b", CbIceOfMakeOffer);
                 c_tracks := ["audio"; "video"];
                 c_local := Some "offer"; c_remote := None; c_cands := [];
                 c_closed := false |} in
  table_get Fixture.lenient s' "b" = Absent /\
  conns s' !! 0 = Some (closed conn) /\
  c_closed (closed conn) = true /\
  actions (dispatch Fixture.lenient (PeerLeft "b")) s = [CallClose 0].
Proof.
  intros s s' conn.
  destruct (peer_left_tears_down Fixture.lenient "b" s eq_refl)
    as (_ & _ & H1 & _ & H).
  split; [exact H1|]. apply (H 0 conn); reflexivity.
Defined.

(** C6, as the spec words it, fails.  In the run [late_track] peer ["b"] is
    referenced twice, so the first connection drops out of the table without
    being closed; after ["b"] has left, that connection delivers a track and
    [setRemote] stores it.  The table then has no entry for ["b"], yet
    [cleanupPeer "b"] changes the remote-media map.  The table has no entry
    for ["toString"] either, in any state, and [cleanupPeer "toString"]
    throws: it finds the function the table inherits under that name. *)
Lemma teardown_drops_orphan_stream :
  let s := run Fixture.lenient late_track (init "a" "r1" "p") in
  pcs s !! "b" = None /\
  is_Some (remoteStreams s !! "b") /\
  remoteStreams (state_after (cleanupPeer Fixture.lenient "b") s) !! "b" = None /\
  ~ teardown_is_noop Fixture.lenient "b" s /\
  cleanupPeer Fixture.lenient "toString" (init "a" "r1" "p")
  = (Thrown TypeError, init "a" "r1" "p") /\
  ~ teardown_is_noop Fixture.lenient "toString" (init "a" "r1" "p").
Proof.
  intros s. split; [reflexivity|]. split; [eexists; reflexivity|].
  split; [reflexivity|]. split; [|split; [reflexivity|]].
  - intros H. destruct (H eq_refl) as (_ & _ & _ & Heq).
    apply (f_equal (fun m => m !! "b")) in Heq. discriminate Heq.
  - intros H. destruct (H eq_refl) as (Heq & _). discriminate Heq.
Qed.

(** C6, amended.  When the table has no entry for [p], and [p] is not the
    name of a member the table inherits from its prototype, [cleanupPeer p]
    returns normally, makes no call and closes nothing, leaves the heap of
    connections and the table as they were, and removes the entry of [p] from
    the remote-media map; when that map has no entry for [p] either, the whole
    state is what it was. *)
Theorem teardown_without_session (cap : Capability) (p : string) (s : State) :
  pcs s !! p = None -> inherited cap s p = false ->
  let s' := state_after (cleanupPeer cap p) s in
  outcome_of (cleanupPeer cap p) s = Returned tt /\
  actions (cleanupPeer cap p) s = [] /\
  conns s' = conns s /\
  pcs s' = pcs s /\
  remoteStreams s' = delete p (remoteStreams s) /\
  (remoteStreams s !! p = None -> s' = s).
Proof.
  intros H Hin. unfold actions, state_after, outcome_of.
  rewrite (cleanupPeer_none cap p s (table_get_absent cap s p H Hin)). simpl.
  pose proof (table_delete_plain p (pcs s)
                (not_inherited_not_proto cap s p Hin)) as Hd.
  split; [reflexivity|]. split; [apply drop_all|]. split; [reflexivity|].
  split; [rewrite Hd; now apply delete_id|]. split; [reflexivity|].
  intros Hr. apply state_eq; simpl; try reflexivity;
    rewrite ?Hd; now apply delete_id.
Qed.

Lemma teardown_without_session_witness :
  let s := init "a" "r1" "p" in
  state_after (cleanupPeer Fixture.lenient "b") s = s.
Proof.
  intros s.
  apply (teardown_without_session Fixture.lenient "b" s); reflexivity.
Defined.

(** ** Messages from a peer without a session *)


(** X20.  A [webrtc-answer] or a [webrtc-ice] from an identifier that has no
    entry in the table leaves the state, hence the table, the remote-media
    map, the connections and the trace of calls, untouched.  When a read of
    the table yields nothing for the identifier (it is not the name of an
    inherited member either) both handlers return at once.  When it is the
    name of an inherited member, the [webrtc-answer] handler rejects with the
    [TypeError]; for the names of [Object.prototype] the [webrtc-ice] handler
    still returns, the [TypeError] being raised inside its [try]. *)
Theorem unknown_peer_is_ignored
    (cap : Capability) (from : string) (sdp : Sdp) (x : Candidate) (s : State) :
  pcs s !! from = None ->
  state_after (dispatch cap (WebrtcAnswer from sdp)) s = s /\
  state_after (dispatch cap (WebrtcIce from x)) s = s /\
  (inherited cap s from = false ->
   dispatch cap (WebrtcAnswer from sdp) s = (Returned tt, s) /\
   dispatch cap (WebrtcIce from x) s = (Returned tt, s)) /\
  (inherited cap s from = true ->
   dispatch cap (WebrtcAnswer from sdp) s = (Thrown TypeError, s)) /\
  (is_object_member from = true ->
   dispatch cap (WebrtcIce from x) s = (Returned tt, s)).
Proof.
  intros H. simpl.
  unfold state_after, handleAnswer, handleIce, bind, gets, table_get, inherited.
  rewrite H.
  split; [now destruct (_ || _)|]. split; [now destruct (_ || _)|].
  split; [intros ->; split; reflexivity|].
  split; [intros ->; reflexivity|].
  intros ->. reflexivity.
Qed.

Lemma unknown_peer_is_ignored_witness :
  let s := run Fixture.lenient [PeerJoined "b"] (init "a" "r1" "p") in
  dispatch Fixture.strict (WebrtcAnswer "c" "answer-c") s = (Returned tt, s) /\
  dispatch Fixture.strict (WebrtcIce "c" "cand-c") s = (Returned tt, s) /\
  dispatch Fixture.strict (WebrtcIce "valueOf" "cand-c") s = (Returned tt, s).
Proof.
  intros s.
  destruct (unknown_peer_is_ignored Fixture.strict "c" "answer-c" "cand-c" s)
    as (_ & _ & H & _); [reflexivity|].
  destruct (unknown_peer_is_ignored Fixture.strict "valueOf" "answer-c"
              "cand-c" s) as (_ & _ & _ & _ & H'); [reflexivity|].
  destruct (H eq_refl) as [H1 H2].
  split; [exact H1|]. split; [exact H2|]. apply H'. reflexivity.
Defined.

(** ** Candidates that the connection rejects *)



(** ** The two handlers that create a session, unfolded *)

Lemma initLocalMedia_cases (cap : Capability) (s : State) :
  (exists ls, localStream s = Some ls /\
              initLocalMedia cap s = (Returned ls, s)) \/
  (exists ls, localStream s = None /\ cap_getUserMedia cap s = Some ls /\
              initLocalMedia cap s
              = (Returned ls, set_localStream (Some ls) (log CallGetUserMedia s))) \/
  (localStream s = None /\ cap_getUserMedia cap s = None /\
   initLocalMedia cap s = (Thrown MediaRejected, log CallGetUserMedia s)).
Proof.
  unfold initLocalMedia, bind, gets, getUserMedia.
  destruct (localStream s) as [ls|] eqn:E.
  - left. exists ls. split; reflexivity.
  - right. destruct (cap_getUserMedia cap s) as [ls|].
    + left. exists ls. repeat split.
    + right. repeat split.
Qed.

(** What [initLocalMedia] may change: the cached stream and the trace. *)
Lemma initLocalMedia_frame (cap : Capability) (s : State) :
  let s1 := state_after (initLocalMedia cap) s in
  socket_id s1 = socket_id s /\ pcs s1 = pcs s /\
  remoteStreams s1 = remoteStreams s /\ conns s1 = conns s /\
  (forall ls, outcome_of (initLocalMedia cap) s = Returned ls ->
     trace s1 = trace s ++ match localStream s with
                           | Some _ => []
                           | None => [CallGetUserMedia]
                           end).
Proof.
  unfold state_after, outcome_of.
  destruct (initLocalMedia_cases cap s)
    as [(ls & E & ->)|[(ls & E & _ & ->)|(E & _ & ->)]]; simpl; rewrite E;
    repeat split; intros; try discriminate; now rewrite ?app_nil_r.
Qed.

Lemma makeOffer_unfold (cap : Capability) (p : string) (s : State) :
  makeOffer cap p s
  = match initLocalMedia cap s with
    | (Returned ls, s1) =>
        offer_tail cap p (length (conns s1))
          (upd_pcs (<[p := length (conns s1)]>)
             (created p ls CbSetRemote CbIceOfMakeOffer s1))
    | (Thrown e, s1) => (Thrown e, s1)
    end.
Proof.
  unfold makeOffer, bind at 1.
  destruct (initLocalMedia cap s) as [[ls|e] s1]; [|reflexivity].
  unfold bind at 1. rewrite createPeerConnection_closed.
  unfold offer_tail, bind, modify, createOffer, setLocalDescription, gets, emit.
  simpl.
  destruct (cap_createOffer cap _ _) as [offer|]; [|reflexivity].
  destruct (cap_setLocalDescription cap _ _ _); reflexivity.
Qed.

Lemma handleOffer_unfold (cap : Capability) (p : string) (sdp : Sdp) (s : State) :
  handleOffer cap p sdp s
  = match initLocalMedia cap s with
    | (Returned ls, s1) =>
        answer_tail cap p sdp (length (conns s1))
          (upd_pcs (<[p := length (conns s1)]>)
             (created p ls CbSetRemote CbIceOfHandleOffer s1))
    | (Thrown e, s1) => (Thrown e, s1)
    end.
Proof.
  unfold handleOffer, bind at 1.
  destruct (initLocalMedia cap s) as [[ls|e] s1]; [|reflexivity].
  unfold bind at 1. rewrite createPeerConnection_closed.
  unfold answer_tail, bind, modify, createAnswer, setLocalDescription,
    setRemoteDescription, gets, emit.
  simpl.
  destruct (cap_setRemoteDescription cap _ _ _); [|reflexivity].
  destruct (cap_createAnswer cap _ _) as [answer|]; [|reflexivity].
  destruct (cap_setLocalDescription cap _ _ _); reflexivity.
Qed.

Lemma wire_ok_offer (me to : string) (d : Sdp) :
  wire_ok me (Emit "webrtc-offer" (sdp_payload to me d)).
Proof. split; [intros _; eauto | discriminate]. Qed.

Lemma wire_ok_answer (me to : string) (d : Sdp) :
  wire_ok me (Emit "webrtc-answer" (sdp_payload to me d)).
Proof. split; [intros _; eauto | discriminate]. Qed.

Lemma wire_ok_ice (me to : string) (x : Candidate) :
  wire_ok me (Emit "webrtc-ice" (ice_payload to me x)).
Proof. split; [intros [H|H]; discriminate H | intros _; eauto]. Qed.

Ltac tail_case :=
  simpl;
  repeat match goal with
         | |- _ /\ _ => split
         | |- length (alter _ _ _) = _ => rewrite !length_alter
         | |- forall c0 : nat, _ => intros ? ?
         | |- alter _ _ _ !! _ = _ => rewrite list_lookup_alter_ne by congruence
         | |- _ = _ => reflexivity
         end.

Lemma offer_tail_frame (cap : Capability) (p : string) (c : nat) (s2 : State) :
  tail_frame c s2 (offer_tail cap p c s2).
Proof.
  unfold tail_frame, offer_tail.
  destruct (cap_createOffer cap s2 c) as [offer|].
  - cbv zeta. destruct (cap_setLocalDescription cap _ c offer); tail_case.
    + eexists. rewrite <- !app_assoc. split; [reflexivity|].
      repeat constructor; apply wire_ok_offer.
    + eexists. rewrite <- !app_assoc. split; [reflexivity|].
      repeat constructor.
  - tail_case. eexists. split; [reflexivity|]. repeat constructor.
Qed.

Lemma answer_tail_frame
    (cap : Capability) (p : string) (sdp : Sdp) (c : nat) (s2 : State) :
  tail_frame c s2 (answer_tail cap p sdp c s2).
Proof.
  unfold tail_frame, answer_tail.
  destruct (cap_setRemoteDescription cap s2 c sdp).
  - cbv zeta. destruct (cap_createAnswer cap _ c) as [answer|].
    + destruct (cap_setLocalDescription cap _ c answer); tail_case.
      * eexists. rewrite <- !app_assoc. split; [reflexivity|].
        repeat constructor; apply wire_ok_answer.
      * eexists. rewrite <- !app_assoc. split; [reflexivity|].
        repeat constructor.
    + tail_case. eexists. rewrite <- !app_assoc. split; [reflexivity|].
      repeat constructor.
  - tail_case. eexists. split; [reflexivity|]. repeat constructor.
Qed.

Lemma creator_frame (cap : Capability) (p : string) (s : State)
    (onTrack : TrackCallback) (onIce : IceCallback)
    (tail : nat -> State -> Outcome unit * State) (r : Outcome unit * State) :
  (forall c s2, tail_frame c s2 (tail c s2)) ->
  r = match initLocalMedia cap s with
      | (Returned ls, s1) =>
          tail (length (conns s1))
            (upd_pcs (<[p := length (conns s1)]>)
               (created p ls onTrack onIce s1))
      | (Thrown e, s1) => (Thrown e, s1)
      end ->
  socket_id (snd r) = socket_id s /\
  remoteStreams (snd r) = remoteStreams s /\
  (forall c0 conn, conns s !! c0 = Some conn -> conns (snd r) !! c0 = Some conn) /\
  (exists l, trace (snd r) = trace s ++ l /\ Forall (wire_ok (socket_id s)) l) /\
  match outcome_of (initLocalMedia cap) s with
  | Returned _ =>
      pcs (snd r) = <[p := length (conns s)]> (pcs s) /\
      length (conns (snd r)) = S (length (conns s))
  | Thrown _ => pcs (snd r) = pcs s /\ conns (snd r) = conns s
  end.
Proof.
  intros Htail ->. unfold outcome_of.
  assert (Hgo : forall ls s1 pre,
    socket_id s1 = socket_id s -> pcs s1 = pcs s ->
    remoteStreams s1 = remoteStreams s -> conns s1 = conns s ->
    trace s1 = trace s ++ pre -> Forall (wire_ok (socket_id s)) pre ->
    let r := tail (length (conns s1))
               (upd_pcs (<[p := length (conns s1)]>)
                  (created p ls onTrack onIce s1)) in
    socket_id (snd r) = socket_id s /\
    remoteStreams (snd r) = remoteStreams s /\
    (forall c0 conn, conns s !! c0 = Some conn -> conns (snd r) !! c0 = Some conn) /\
    (exists l, trace (snd r) = trace s ++ l /\ Forall (wire_ok (socket_id s)) l) /\
    pcs (snd r) = <[p := length (conns s)]> (pcs s) /\
    length (conns (snd r)) = S (length (conns s))).
  { intros ls s1 pre Hid Hpcs Hrs Hconns Htr Hpre r.
    destruct (Htail (length (conns s1))
                (upd_pcs (<[p := length (conns s1)]>)
                   (created p ls onTrack onIce s1)))
      as (T1 & T2 & T3 & T4 & T5 & l & T6 & T7).
    fold r in T1, T2, T3, T4, T5, T6. simpl in *.
    rewrite T1, T2, T3, T4, T6, Hid, Hpcs, Hrs, Hconns, Htr in *.
    split; [reflexivity|]. split; [reflexivity|]. split.
    { intros c0 conn Hc0. rewrite T5.
      - now apply lookup_app_l_Some.
      - apply lookup_lt_Some in Hc0. lia. }
    split.
    { eexists. rewrite <- !app_assoc. split; [reflexivity|].
      rewrite !Forall_app. split; [exact Hpre|]. split; [|exact T7].
      constructor; [exact I|]. apply Forall_forall. intros a Ha.
      apply list_elem_of_In, in_map_iff in Ha. destruct Ha as (t & <- & _).
      exact I. }
    split; [reflexivity|]. rewrite length_app. simpl. lia. }
  destruct (initLocalMedia_cases cap s)
    as [(ls & E & ->)|[(ls & E & _ & ->)|(E & _ & ->)]].
  - apply (Hgo ls s []); auto using app_nil_r.
  - apply (Hgo ls _ [CallGetUserMedia]); try reflexivity.
    repeat constructor.
  - simpl. repeat split; auto.
    eexists. split; [reflexivity|]. repeat constructor.
Qed.

(** A completed [makeOffer], in full. *)
Lemma makeOffer_returned (cap : Capability) (p : string) (s s' : State) :
  makeOffer cap p s = (Returned tt, s') ->
  exists ls offer,
    trace s' = trace s ++ setup_actions s (length (conns s)) ls
                 ++ [CallCreateOffer (length (conns s));
                     CallSetLocalDescription (length (conns s)) offer;
                     Emit "webrtc-offer" (sdp_payload p (socket_id s) offer)] /\
    pcs s' = <[p := length (conns s)]> (pcs s) /\
    conns s' = conns s ++ [with_local offer
                             (fresh_conn p CbSetRemote CbIceOfMakeOffer
                                (ms_tracks ls))] /\
    socket_id s' = socket_id s /\
    remoteStreams s' = remoteStreams s.
Proof.
  rewrite makeOffer_unfold. unfold setup_actions.
  destruct (initLocalMedia_cases cap s)
    as [(ls & E & ->)|[(ls & E & _ & ->)|(E & _ & ->)]];
    [| |discriminate]; rewrite E; unfold offer_tail;
    (destruct (cap_createOffer cap _ _) as [offer|]; [|discriminate]);
    cbv zeta;
    (destruct (cap_setLocalDescription cap _ _ offer); [|discriminate]);
    intros [= <-]; exists ls, offer; simpl;
    rewrite alter_last, <- ?app_assoc; repeat split.
Qed.

(** A completed [handleOffer], in full. *)
Lemma handleOffer_returned
    (cap : Capability) (p : string) (sdp : Sdp) (s s' : State) :
  handleOffer cap p sdp s = (Returned tt, s') ->
  exists ls answer,
    trace s' = trace s ++ setup_actions s (length (conns s)) ls
                 ++ [CallSetRemoteDescription (length (conns s)) sdp;
                     CallCreateAnswer (length (conns s));
                     CallSetLocalDescription (length (conns s)) answer;
                     Emit "webrtc-answer" (sdp_payload p (socket_id s) answer)] /\
    pcs s' = <[p := length (conns s)]> (pcs s) /\
    conns s' = conns s ++ [with_local answer
                             (with_remote sdp
                                (fresh_conn p CbSetRemote CbIceOfHandleOffer
                                   (ms_tracks ls)))] /\
    socket_id s' = socket_id s /\
    remoteStreams s' = remoteStreams s.
Proof.
  rewrite handleOffer_unfold. unfold setup_actions.
  destruct (initLocalMedia_cases cap s)
    as [(ls & E & ->)|[(ls & E & _ & ->)|(E & _ & ->)]];
    [| |discriminate]; rewrite E; unfold answer_tail;
    (destruct (cap_setRemoteDescription cap _ _ sdp); [|discriminate]);
    cbv zeta;
    (destruct (cap_createAnswer cap _ _) as [answer|]; [|discriminate]);
    (destruct (cap_setLocalDescription cap _ _ answer); [|discriminate]);
    intros [= <-]; exists ls, answer; simpl;
    rewrite !alter_last, <- ?app_assoc; repeat split.
Qed.

(** ** The answerer path *)

(** C4.  When the handler of [webrtc-offer{from, sdp}] completes, the calls it
    made on the connection it built for [from] are, after the set-up (camera
    on first use, new connection, local tracks) and in this order:
    [setRemoteDescription(sdp)], [createAnswer()],
    [setLocalDescription(answer)], and then the emit of [webrtc-answer] with
    payload [{to: from, from: socket.id, sdp: answer}].  The connection is the
    table's entry for [from] and holds [sdp] as remote and [answer] as local
    description. *)
Theorem answerer_path
    (cap : Capability) (from : string) (sdp : Sdp) (s s' : State) :
  dispatch cap (WebrtcOffer from sdp) s = (Returned tt, s') ->
  let c := length (conns s) in
  exists ls answer,
    trace s' = trace s ++ setup_actions s c ls
                 ++ [CallSetRemoteDescription c sdp;
                     CallCreateAnswer c;
                     CallSetLocalDescription c answer;
                     Emit "webrtc-answer"
                       [("to", JStr from); ("from", JStr (socket_id s));
                        ("sdp", JDesc answer)]] /\
    pcs s' !! from = Some c /\
    conns s' !! c = Some {| c_ontrack := Some (from, CbSetRemote);
                            c_onicecandidate := Some (from, CbIceOfHandleOffer);
                            c_tracks := ms_tracks ls;
                            c_local := Some answer; c_remote := Some sdp;
                            c_cands := []; c_closed := false |}.
Proof.
  simpl. intros H.
  destruct (handleOffer_returned cap from sdp s s' H)
    as (ls & answer & Ht & Hp & Hc & _).
  exists ls, answer. split; [exact Ht|]. split.
  - rewrite Hp. apply lookup_insert_eq.
  - rewrite Hc. apply list_lookup_middle. reflexivity.
Qed.

Lemma answerer_path_witness :
  let s := init "a" "r1" "p" in
  exists ls answer,
    trace (state_after (dispatch Fixture.strict (WebrtcOffer "b" "offer-b")) s)
    = trace s ++ setup_actions s 0 ls
        ++ [CallSetRemoteDescription 0 "offer-b"; CallCreateAnswer 0;
            CallSetLocalDescription 0 answer;
            Emit "webrtc-answer"
              [("to", JStr "b"); ("from", JStr "a"); ("sdp", JDesc answer)]] /\
    pcs (state_after (dispatch Fixture.strict (WebrtcOffer "b" "offer-b")) s)
      !! "b" = Some 0 /\
    conns (state_after (dispatch Fixture.strict (WebrtcOffer "b" "offer-b")) s)
      !! 0 = Some {| c_ontrack := Some ("b", CbSetRemote);
                     c_onicecandidate := Some ("b", CbIceOfHandleOffer);
                     c_tracks := ms_tracks ls;
                     c_local := Some answer; c_remote := Some "offer-b";
                     c_cands := []; c_closed := false |}.
Proof.
  intros s.
  apply (answerer_path Fixture.strict "b" "offer-b" s). reflexivity.
Defined.

(** ** Negotiation leaves the edges in place *)

Lemma same_edge_refl (conn : Conn) : same_edge conn conn.
Proof. repeat split. Qed.

Lemma same_edge_trans (a b c : Conn) :
  same_edge a b -> same_edge b c -> same_edge a c.
Proof.
  unfold same_edge. intros (?&?&?&?) (?&?&?&?). repeat split; congruence.
Qed.

Lemma same_edges_refl (l : list Conn) : Forall2 same_edge l l.
Proof. induction l; constructor; auto using same_edge_refl. Qed.

Lemma same_edges_trans (l1 l2 l3 : list Conn) :
  Forall2 same_edge l1 l2 -> Forall2 same_edge l2 l3 -> Forall2 same_edge l1 l3.
Proof.
  intros H. revert l3. induction H; intros l3 H3; inversion H3; subst;
    constructor; eauto using same_edge_trans.
Qed.

Lemma same_edges_alter (f : Conn -> Conn) (c : nat) (l k : list Conn) :
  (forall conn, same_edge conn (f conn)) ->
  Forall2 same_edge l k -> Forall2 same_edge l (alter f c k).
Proof.
  intros Hf H. apply Forall2_alter_r; [exact H|].
  intros x y _ _ Hxy. eapply same_edge_trans; [exact Hxy|apply Hf].
Qed.

Lemma negotiates_refl (s : State) : negotiates s s.
Proof.
  unfold negotiates. repeat split; try apply same_edges_refl.
  exists []. split; [now rewrite app_nil_r|constructor].
Qed.

Lemma negotiates_trans (s1 s2 s3 : State) :
  negotiates s1 s2 -> negotiates s2 s3 -> negotiates s1 s3.
Proof.
  unfold negotiates.
  intros (A1&A2&A3&A4&A5&A6&A7&A8&A9&l&A10&A11)
         (B1&B2&B3&B4&B5&B6&B7&B8&B9&k&B10&B11).
  repeat split; try congruence.
  - eapply same_edges_trans; eassumption.
  - exists (l ++ k). rewrite B10, A10, app_assoc. split; [reflexivity|].
    apply Forall_app. now split.
Qed.

Ltac negotiation :=
  unfold negotiates; simpl;
  repeat match goal with
         | |- _ /\ _ => split
         | |- Forall2 same_edge _ (alter _ _ _) =>
             apply same_edges_alter; [intros []; repeat split|]
         | |- Forall2 same_edge ?l ?l => apply same_edges_refl
         | |- exists l, _ ++ _ = _ ++ l /\ _ =>
             eexists; rewrite <- ?app_assoc; split; [reflexivity|];
             repeat constructor
         | |- exists l, ?t = ?t ++ l /\ _ =>
             exists []; split; [now rewrite app_nil_r|constructor]
         | |- _ = _ => reflexivity
         end.

Lemma offer_tail_negotiates (cap : Capability) (p : string) (c : nat) (s2 : State) :
  negotiates s2 (snd (offer_tail cap p c s2)).
Proof.
  unfold offer_tail. destruct (cap_createOffer cap s2 c) as [offer|].
  - cbv zeta. destruct (cap_setLocalDescription cap _ c offer); negotiation.
  - negotiation.
Qed.

Lemma answer_tail_negotiates
    (cap : Capability) (p : string) (sdp : Sdp) (c : nat) (s2 : State) :
  negotiates s2 (snd (answer_tail cap p sdp c s2)).
Proof.
  unfold answer_tail. destruct (cap_setRemoteDescription cap s2 c sdp).
  - cbv zeta. destruct (cap_createAnswer cap _ c) as [answer|].
    + destruct (cap_setLocalDescription cap _ c answer); negotiation.
    + negotiation.
  - negotiation.
Qed.

Lemma handleAnswer_negotiates
    (cap : Capability) (p : string) (sdp : Sdp) (s : State) :
  negotiates s (state_after (handleAnswer cap p sdp) s).
Proof.
  unfold state_after, handleAnswer, bind, gets.
  destruct (table_get cap s p) as [|c|]; simpl;
    [apply negotiates_refl| |apply negotiates_refl].
  unfold setRemoteDescription.
  destruct (cap_setRemoteDescription cap s c sdp); negotiation.
Qed.

Lemma handleIce_negotiates
    (cap : Capability) (p : string) (x : Candidate) (s : State) :
  negotiates s (state_after (handleIce cap p x) s).
Proof.
  unfold state_after, handleIce, bind, gets.
  destruct (table_get cap s p) as [|c|]; simpl;
    [apply negotiates_refl| |apply negotiates_refl].
  unfold try_catch, addIceCandidate.
  destruct (cap_addIceCandidate cap s c x); negotiation.
Qed.

Lemma offer_tail_thrown
    (cap : Capability) (p : string) (c : nat) (s2 : State) (e : Exn) :
  fst (offer_tail cap p c s2) = Thrown e ->
  e <> MediaRejected /\
  exists l, trace (snd (offer_tail cap p c s2)) = trace s2 ++ l /\ emits l = [].
Proof.
  unfold offer_tail. destruct (cap_createOffer cap s2 c) as [offer|].
  - cbv zeta. destruct (cap_setLocalDescription cap _ c offer); simpl;
      [discriminate|].
    intros [= <-]. split; [discriminate|]. eexists.
    rewrite <- app_assoc. split; reflexivity.
  - simpl. intros [= <-]. split; [discriminate|]. eexists. split; reflexivity.
Qed.

Lemma answer_tail_thrown
    (cap : Capability) (p : string) (sdp : Sdp) (c : nat) (s2 : State) (e : Exn) :
  fst (answer_tail cap p sdp c s2) = Thrown e ->
  e <> MediaRejected /\
  exists l, trace (snd (answer_tail cap p sdp c s2)) = trace s2 ++ l /\
            emits l = [].
Proof.
  unfold answer_tail. destruct (cap_setRemoteDescription cap s2 c sdp).
  - cbv zeta. destruct (cap_createAnswer cap _ c) as [answer|].
    + destruct (cap_setLocalDescription cap _ c answer); simpl;
        [discriminate|].
      intros [= <-]. split; [discriminate|]. eexists.
      rewrite <- !app_assoc. split; reflexivity.
    + simpl. intros [= <-]. split; [discriminate|]. eexists.
      rewrite <- !app_assoc. split; reflexivity.
  - simpl. intros [= <-]. split; [discriminate|]. eexists. split; reflexivity.
Qed.

Lemma emits_app (l k : list Action) : emits (l ++ k) = emits l ++ emits k.
Proof. apply List.filter_app. Qed.

Lemma emits_tracks (c : nat) (ts : list Track) :
  emits (map (CallAddTrack c) ts) = [].
Proof. induction ts; simpl; auto. Qed.

(** A session builder that rejects, whichever of the two it is. *)
Lemma creator_thrown (cap : Capability) (p : string) (s : State)
    (onTrack : TrackCallback) (onIce : IceCallback)
    (tail : nat -> State -> Outcome unit * State) (r : Outcome unit * State)
    (e : Exn) :
  (forall c s2, negotiates s2 (snd (tail c s2))) ->
  (forall c s2 e, fst (tail c s2) = Thrown e ->
     e <> MediaRejected /\
     exists l, trace (snd (tail c s2)) = trace s2 ++ l /\ emits l = []) ->
  r = match initLocalMedia cap s with
      | (Returned ls, s1) =>
          tail (length (conns s1))
            (upd_pcs (<[p := length (conns s1)]>)
               (created p ls onTrack onIce s1))
      | (Thrown e, s1) => (Thrown e, s1)
      end ->
  fst r = Thrown e ->
  emits (drop (length (trace s)) (trace (snd r))) = [] /\
  (e = MediaRejected -> pcs (snd r) = pcs s /\ conns (snd r) = conns s) /\
  (e <> MediaRejected ->
   pcs (snd r) !! p = Some (length (conns s)) /\
   exists conn, conns (snd r) !! length (conns s) = Some conn /\
                c_peer conn = Some p /\ c_closed conn = false).
Proof.
  intros Hneg Hthrown -> He.
  assert (Hgo : forall ls s1 pre,
    pcs s1 = pcs s -> conns s1 = conns s ->
    trace s1 = trace s ++ pre -> emits pre = [] ->
    let r := tail (length (conns s1))
               (upd_pcs (<[p := length (conns s1)]>)
                  (created p ls onTrack onIce s1)) in
    fst r = Thrown e ->
    emits (drop (length (trace s)) (trace (snd r))) = [] /\
    (e = MediaRejected -> pcs (snd r) = pcs s /\ conns (snd r) = conns s) /\
    (e <> MediaRejected ->
     pcs (snd r) !! p = Some (length (conns s)) /\
     exists conn, conns (snd r) !! length (conns s) = Some conn /\
                  c_peer conn = Some p /\ c_closed conn = false)).
  { intros ls s1 pre Hp Hc Ht Hpre r Hr.
    destruct (Hthrown _ _ _ Hr) as (Hne & l & Htl & Hl). fold r in Htl.
    destruct (Hneg (length (conns s1))
                (upd_pcs (<[p := length (conns s1)]>)
                   (created p ls onTrack onIce s1)))
      as (_&_&_&_&_&_&Npcs&_&Nconns&_).
    fold r in Npcs, Nconns. simpl in *.
    split.
    { rewrite Htl, Ht, <- !app_assoc, drop_own_length, !emits_app, Hpre, Hl.
      simpl. rewrite app_nil_r. apply emits_tracks. }
    split; [intros ->; contradiction|]. intros _.
    rewrite Npcs, Hp, Hc in *. split; [apply lookup_insert_eq|].
    destruct (Forall2_lookup_l _ _ _ (length (conns s)) _ Nconns
                (list_lookup_middle _ _ _ _ eq_refl))
      as (conn & Hconn & Ht' & Hi' & _ & Hcl).
    exists conn. simpl in *. split; [exact Hconn|]. split; [|exact Hcl].
    unfold c_peer. rewrite Ht', Hi', String.eqb_refl. reflexivity. }
  destruct (initLocalMedia_cases cap s)
    as [(ls & E & Hm)|[(ls & E & _ & Hm)|(E & _ & Hm)]]; rewrite Hm in *.
  - apply (Hgo ls s []); auto using app_nil_r.
  - apply (Hgo ls _ [CallGetUserMedia]); auto.
  - simpl in *. injection He as <-. rewrite drop_own_length.
    split; [reflexivity|]. split; [auto|]. intros H. contradiction.
Qed.

(** ** Referencing a peer a second time *)




(** ** Other edges are left alone *)

Lemma table_delete_proto (p : string) (t : gmap string nat) :
  table_delete p t !! "__proto__" = t !! "__proto__".
Proof.
  unfold table_delete. destruct (String.eqb_spec p "__proto__"); [reflexivity|].
  now apply lookup_delete_ne.
Qed.

Lemma table_get_same (cap : Capability) (s s' : State) (q : string) :
  pcs s' !! q = pcs s !! q -> pcs s' !! "__proto__" = pcs s !! "__proto__" ->
  table_get cap s' q = table_get cap s q.
Proof. intros H1 H2. unfold table_get, inherited. now rewrite H1, H2. Qed.

Lemma closes_nothing_refl (s : State) : closes_nothing s s.
Proof. split; [lia|]. intros c conn' ->. reflexivity. Qed.

Lemma closes_nothing_trans (s1 s2 s3 : State) :
  closes_nothing s1 s2 -> closes_nothing s2 s3 -> closes_nothing s1 s3.
Proof.
  intros [L1 H1] [L2 H2]. split; [lia|]. intros c conn3 Hc.
  rewrite (H2 c conn3 Hc). destruct (conns s2 !! c) as [conn2|] eqn:E.
  - apply (H1 c conn2 E).
  - apply lookup_ge_None in E.
    rewrite (proj2 (lookup_ge_None (conns s1) c)) by lia. reflexivity.
Qed.

Lemma negotiates_closes_nothing (s s' : State) :
  negotiates s s' -> closes_nothing s s'.
Proof.
  intros (_&_&_&_&_&_&_&_&Hf&_). split.
  - now rewrite (Forall2_length _ _ _ Hf).
  - intros c conn' Hc.
    destruct (Forall2_lookup_r _ _ _ _ _ Hf Hc) as (conn & -> & _ & _ & _ & H).
    exact H.
Qed.

Lemma creator_closes_nothing (cap : Capability) (p : string) (s : State)
    (onTrack : TrackCallback) (onIce : IceCallback)
    (tail : nat -> State -> Outcome unit * State) (r : Outcome unit * State) :
  (forall c s2, negotiates s2 (snd (tail c s2))) ->
  r = match initLocalMedia cap s with
      | (Returned ls, s1) =>
          tail (length (conns s1))
            (upd_pcs (<[p := length (conns s1)]>)
               (created p ls onTrack onIce s1))
      | (Thrown e, s1) => (Thrown e, s1)
      end ->
  closes_nothing s (snd r).
Proof.
  intros Hneg ->.
  assert (Hnew : forall ls s1, conns s1 = conns s ->
            closes_nothing s (upd_pcs (<[p := length (conns s1)]>)
                                (created p ls onTrack onIce s1))).
  { intros ls s1 Hc. split; simpl; rewrite Hc.
    - rewrite length_app. lia.
    - intros c conn' Hl. destruct (conns s !! c) as [conn|] eqn:E.
      + rewrite (lookup_app_l_Some _ _ _ _ E) in Hl. now injection Hl as <-.
      + apply lookup_ge_None in E. rewrite lookup_app_r in Hl by exact E.
        destruct (c - length (conns s)) as [|n]; simpl in Hl;
          [now injection Hl as <- | discriminate]. }
  destruct (initLocalMedia_cases cap s)
    as [(ls & E & ->)|[(ls & E & _ & ->)|(E & _ & ->)]].
  - eapply closes_nothing_trans; [|apply negotiates_closes_nothing, Hneg].
    now apply Hnew.
  - eapply closes_nothing_trans; [|apply negotiates_closes_nothing, Hneg].
    now apply Hnew.
  - split; [simpl; lia|]. intros c conn' Hl. simpl in Hl. now rewrite Hl.
Qed.

(** C7, as stated, fails in its last clause.  When the browser rejects the
    remote description of an offer from ["b"], the handler rejects, and the
    edge on which the negotiation failed is not closed: the connection built
    for ["b"] is the table's entry and is open. *)
Lemma failed_edge_is_not_closed :
  let s := init "a" "r1" "p" in
  let m := dispatch deaf (WebrtcOffer "b" "offer-b") in
  outcome_of m s = Thrown SetRemoteRejected /\
  pcs (state_after m s) !! "b" = Some 0 /\
  c_closed <$> conns (state_after m s) !! 0 = Some false /\
  ~ failure_closes_edge m "b" s.
Proof.
  intros s m. split; [reflexivity|]. split; [reflexivity|].
  split; [reflexivity|].
  intros H.
  specialize (H SetRemoteRejected 0
                {| c_ontrack := Some ("b", CbSetRemote);
                   c_onicecandidate := Some ("b", CbIceOfHandleOffer);
                   c_tracks := ["audio"; "video"]; c_local := None;
                   c_remote := None; c_cands := []; c_closed := false |}
                eq_refl eq_refl eq_refl).
  discriminate H.
Qed.

(** C7, amended.  [cleanupPeer p] leaves, for every other peer [q], what the
    table yields for [q] and the remote stream of [q] as they were, and
    changes no connection but the one the table held for [p]; the camera, the
    room and the socket id are untouched.  A failure on one edge closes no
    edge at all.  For every socket message about [p] (joined, left, offer,
    answer, candidate), [p] other than [__proto__], and however its handler
    ends, normally or by a rejected call, the entries of the other peers and
    every connection other than the one of [p] stay as they were; and the
    handler of a message other than [peer-left] closes no connection, that of
    the edge it was working on included. *)
Theorem other_edges_untouched (cap : Capability) (p q : string) (s : State) :
  p <> q ->
  (let s' := state_after (cleanupPeer cap p) s in
   table_get cap s' q = table_get cap s q /\
   pcs s' !! q = pcs s !! q /\
   remoteStreams s' !! q = remoteStreams s !! q /\
   (forall c, pcs s !! p <> Some c -> conns s' !! c = conns s !! c) /\
   localStream s' = localStream s /\ inRoom s' = inRoom s /\
   socket_id s' = socket_id s) /\
  (p <> "__proto__" ->
   forall e, about_peer e = Some p ->
     let s' := state_after (dispatch cap e) s in
     table_get cap s' q = table_get cap s q /\
     pcs s' !! q = pcs s !! q /\
     remoteStreams s' !! q = remoteStreams s !! q /\
     (forall c conn, conns s !! c = Some conn -> pcs s !! p <> Some c ->
                     conns s' !! c = Some conn)) /\
  (forall e, about_peer e = Some p -> (forall p', e <> PeerLeft p') ->
     closes_nothing s (state_after (dispatch cap e) s)).
Proof.
  intros Hpq.
  assert (Hclean :
    let s' := state_after (cleanupPeer cap p) s in
    table_get cap s' q = table_get cap s q /\
    pcs s' !! q = pcs s !! q /\
    remoteStreams s' !! q = remoteStreams s !! q /\
    (forall c, pcs s !! p <> Some c -> conns s' !! c = conns s !! c) /\
    localStream s' = localStream s /\ inRoom s' = inRoom s /\
    socket_id s' = socket_id s).
  { unfold state_after. destruct (table_get cap s p) as [|c|] eqn:E.
    - rewrite (cleanupPeer_none cap p s E). simpl.
      rewrite lookup_delete_ne, table_delete_other by exact Hpq.
      split; [|repeat split].
      apply table_get_same; simpl;
        [now apply table_delete_other | apply table_delete_proto].
    - apply table_get_Holds in E. rewrite (cleanupPeer_some cap p c s E). simpl.
      rewrite lookup_delete_ne, table_delete_other by exact Hpq.
      split; [|repeat split].
      + apply table_get_same; simpl;
          [now apply table_delete_other | apply table_delete_proto].
      + intros c0 Hc0. apply list_lookup_alter_ne. congruence.
    - rewrite (cleanupPeer_foreign cap p s E). simpl. repeat split. }
  split; [exact Hclean|]. split.
  - intros Hproto.
    assert (Hcreate : forall onTrack onIce tail r,
      (forall c s2, tail_frame c s2 (tail c s2)) ->
      r = match initLocalMedia cap s with
          | (Returned ls, s1) =>
              tail (length (conns s1))
                (upd_pcs (<[p := length (conns s1)]>)
                   (created p ls onTrack onIce s1))
          | (Thrown e, s1) => (Thrown e, s1)
          end ->
      table_get cap (snd r) q = table_get cap s q /\
      pcs (snd r) !! q = pcs s !! q /\
      remoteStreams (snd r) !! q = remoteStreams s !! q /\
      (forall c conn, conns s !! c = Some conn -> pcs s !! p <> Some c ->
                      conns (snd r) !! c = Some conn)).
    { intros onTrack onIce tail r Ht Hr.
      destruct (creator_frame cap p s onTrack onIce tail r Ht Hr)
        as (_ & Hrs & Hold & _ & Hp).
      assert (Hq : pcs (snd r) !! q = pcs s !! q /\
                   pcs (snd r) !! "__proto__" = pcs s !! "__proto__").
      { destruct (outcome_of (initLocalMedia cap) s); destruct Hp as [-> _].
        - split; now apply lookup_insert_ne.
        - split; reflexivity. }
      destruct Hq as [Hq1 Hq2].
      split; [now apply table_get_same|]. split; [exact Hq1|].
      rewrite Hrs. split; [reflexivity|auto]. }
    assert (Hneg : forall s', negotiates s s' ->
      table_get cap s' q = table_get cap s q /\
      pcs s' !! q = pcs s !! q /\
      remoteStreams s' !! q = remoteStreams s !! q).
    { intros s' (_&_&_&_&_&_&Hp&Hr&_). rewrite Hr.
      split; [apply table_get_same; now rewrite Hp|]. now rewrite Hp. }
    intros [p0|p0|p0 sdp|p0 sdp|p0 x| | | | | |] [= ->]; simpl.
    + apply (Hcreate CbSetRemote CbIceOfMakeOffer (offer_tail cap p) _
               (offer_tail_frame cap p) (makeOffer_unfold cap p s)).
    + destruct Hclean as (H0 & H1 & H2 & H3 & _). split; [exact H0|].
      split; [exact H1|]. split; [exact H2|].
      intros c conn Hc Hn. rewrite H3; assumption.
    + apply (Hcreate CbSetRemote CbIceOfHandleOffer (answer_tail cap p sdp) _
               (answer_tail_frame cap p sdp) (handleOffer_unfold cap p sdp s)).
    + destruct (Hneg _ (handleAnswer_negotiates cap p sdp s)) as (H0 & H1 & H2).
      split; [exact H0|]. split; [exact H1|]. split; [exact H2|].
      unfold state_after, handleAnswer, bind, gets.
      destruct (table_get cap s p) as [|c|] eqn:E; simpl; auto.
      apply table_get_Holds in E. unfold setRemoteDescription.
      destruct (cap_setRemoteDescription cap s c sdp); simpl; auto.
      intros c0 conn Hc Hn. rewrite list_lookup_alter_ne by congruence. exact Hc.
    + destruct (Hneg _ (handleIce_negotiates cap p x s)) as (H0 & H1 & H2).
      split; [exact H0|]. split; [exact H1|]. split; [exact H2|].
      unfold state_after, handleIce, bind, gets.
      destruct (table_get cap s p) as [|c|] eqn:E; simpl; auto.
      apply table_get_Holds in E. unfold try_catch, addIceCandidate.
      destruct (cap_addIceCandidate cap s c x); simpl; auto.
      intros c0 conn Hc Hn. rewrite list_lookup_alter_ne by congruence. exact Hc.
  - intros [p0|p0|p0 sdp|p0 sdp|p0 x| | | | | |] [= ->] Hleft; simpl.
    + apply (creator_closes_nothing cap p s CbSetRemote CbIceOfMakeOffer
               (offer_tail cap p) _ (offer_tail_negotiates cap p)
               (makeOffer_unfold cap p s)).
    + destruct (Hleft p eq_refl).
    + apply (creator_closes_nothing cap p s CbSetRemote CbIceOfHandleOffer
               (answer_tail cap p sdp) _ (answer_tail_negotiates cap p sdp)
               (handleOffer_unfold cap p sdp s)).
    + apply negotiates_closes_nothing, handleAnswer_negotiates.
    + apply negotiates_closes_nothing, handleIce_negotiates.
Qed.

Lemma other_edges_untouched_witness :
  let s := run Fixture.lenient [PeerJoined "b"; PeerJoined "c"]
             (init "a" "r1" "p") in
  let s' := state_after (cleanupPeer Fixture.lenient "b") s in
  (table_get Fixture.lenient s' "c" = Holds 1 /\
   pcs s' !! "c" = Some 1 /\
   remoteStreams s' !! "c" = remoteStreams s !! "c" /\
   (forall c, pcs s !! "b" <> Some c -> conns s' !! c = conns s !! c) /\
   localStream s' = localStream s /\ inRoom s' = inRoom s /\
   socket_id s' = socket_id s) /\
  closes_nothing s (state_after (dispatch deaf (WebrtcOffer "b" "offer-b")) s).
Proof.
  intros s.
  destruct (other_edges_untouched Fixture.lenient "b" "c" s) as (H & _ & _);
    [discriminate|].
  destruct (other_edges_untouched deaf "b" "c" s) as (_ & _ & H3);
    [discriminate|].
  split; [exact H|].
  apply (H3 (WebrtcOffer "b" "offer-b")); [reflexivity|discriminate].
Defined.

(** ** What goes on the wire *)

Lemma c_peer_Some (conn : Conn) (p : string) :
  c_peer conn = Some p ->
  exists onTrack onIce,
    c_ontrack conn = Some (p, onTrack) /\
    c_onicecandidate conn = Some (p, onIce).
Proof.
  unfold c_peer. destruct (c_ontrack conn) as [[q t]|]; [|discriminate].
  destruct (c_onicecandidate conn) as [[q' i]|]; [|discriminate].
  destruct (String.eqb_spec q q') as [<-|]; [|discriminate].
  intros [= ->]. now exists t, i.
Qed.

Lemma appends_ret (me : string) (P : Action -> Prop) {A} (a : A) :
  appends me P (ret a).
Proof.
  intros s Hs. split; [exact Hs|]. exists []. simpl.
  now rewrite app_nil_r.
Qed.

Lemma appends_bind (me : string) (P : Action -> Prop) {A B}
    (m : M A) (k : A -> M B) :
  appends me P m -> (forall a, appends me P (k a)) -> appends me P (bind m k).
Proof.
  intros Hm Hk s Hs. destruct (Hm s Hs) as (H1 & l1 & H2 & H3).
  unfold state_after, bind in *. destruct (m s) as [[a|e] s1]; simpl in *.
  - destruct (Hk a s1 H1) as (K1 & l2 & K2 & K3). unfold state_after in *.
    split; [exact K1|]. exists (l1 ++ l2).
    rewrite K2, H2, app_assoc. split; [reflexivity|].
    apply Forall_app; now split.
  - split; [exact H1|]. now exists l1.
Qed.

Lemma appends_for_of (me : string) (P : Action -> Prop) {A}
    (l : list A) (body : A -> M unit) :
  (forall x, appends me P (body x)) -> appends me P (for_of l body).
Proof.
  intros Hb. induction l as [|x l IH]; simpl.
  - apply appends_ret.
  - apply appends_bind; [apply Hb | intros _; exact IH].
Qed.

Lemma appends_modify (me : string) (P : Action -> Prop) (f : State -> State) :
  (forall s, socket_id (f s) = socket_id s /\ trace (f s) = trace s) ->
  appends me P (modify f).
Proof.
  intros Hf s Hs. destruct (Hf s) as [H1 H2]. unfold state_after. simpl.
  split; [congruence|]. exists []. now rewrite app_nil_r.
Qed.

Lemma appends_log (me : string) (P : Action -> Prop) (a : Action) :
  P a -> appends me P (modify (log a)).
Proof.
  intros Ha s Hs. unfold state_after. simpl. split; [exact Hs|].
  exists [a]. split; [reflexivity|]. now constructor.
Qed.

Lemma appends_initLocalMedia (cap : Capability) (me : string) :
  appends me (wire_ok me) (initLocalMedia cap).
Proof.
  intros s Hs. unfold state_after.
  destruct (initLocalMedia_cases cap s)
    as [(ls & E & ->)|[(ls & E & _ & ->)|(E & _ & ->)]]; simpl;
    (split; [exact Hs|]).
  - exists []. now rewrite app_nil_r.
  - exists [CallGetUserMedia]. split; [reflexivity|]. repeat constructor.
  - exists [CallGetUserMedia]. split; [reflexivity|]. repeat constructor.
Qed.

Lemma appends_makeOffer (cap : Capability) (me p : string) :
  appends me (wire_ok me) (makeOffer cap p).
Proof.
  intros s Hs. unfold state_after.
  destruct (creator_frame cap p s CbSetRemote CbIceOfMakeOffer
              (offer_tail cap p) _
              (offer_tail_frame cap p) (makeOffer_unfold cap p s))
    as (H1 & _ & _ & H2 & _).
  rewrite Hs in *. split; assumption.
Qed.

Lemma appends_handleOffer (cap : Capability) (me p : string) (sdp : Sdp) :
  appends me (wire_ok me) (handleOffer cap p sdp).
Proof.
  intros s Hs. unfold state_after.
  destruct (creator_frame cap p s CbSetRemote CbIceOfHandleOffer
              (answer_tail cap p sdp) _
              (answer_tail_frame cap p sdp) (handleOffer_unfold cap p sdp s))
    as (H1 & _ & _ & H2 & _).
  rewrite Hs in *. split; assumption.
Qed.

Lemma wire_ok_room (me ev : string) (payload : Payload) :
  ev = "host-room" \/ ev = "join-room" -> wire_ok me (Emit ev payload).
Proof.
  intros [-> | ->]; (split; [intros [H|H]; discriminate H | discriminate]).
Qed.

Lemma appends_onIceCandidate (me p : string) (x : Candidate) :
  appends me (wire_ok me) (onIceCandidate p x).
Proof.
  intros s Hs. unfold state_after. simpl. split; [exact Hs|].
  exists [Emit "webrtc-ice" (ice_payload p me x)]. rewrite Hs.
  split; [reflexivity|]. constructor; [apply wire_ok_ice|constructor].
Qed.

Lemma appends_dispatch (cap : Capability) (me : string) (e : Event) :
  appends me (wire_ok me) (dispatch cap e).
Proof.
  destruct e as [p|p|p sdp|p sdp|p x| | |res|res|c ev|c ev]; simpl.
  - apply appends_makeOffer.
  - unfold cleanupPeer. apply appends_bind.
    + intros s Hs. unfold state_after. simpl. split; [exact Hs|].
      exists []. now rewrite app_nil_r.
    + intros [|c|]; (apply appends_bind;
        [|intros _; apply appends_bind; [|intros _];
          apply appends_modify; intros s; split; reflexivity]).
      * apply appends_ret.
      * intros s Hs. unfold state_after. simpl. split; [exact Hs|].
        exists [CallClose c]. split; [reflexivity|]. repeat constructor.
      * intros s Hs. unfold state_after. simpl. split; [exact Hs|].
        exists []. now rewrite app_nil_r.
  - apply appends_handleOffer.
  - intros s Hs. unfold state_after, handleAnswer, bind, gets.
    destruct (table_get cap s p) as [|c|]; simpl.
    + split; [exact Hs|]. exists []. now rewrite app_nil_r.
    + unfold setRemoteDescription.
      destruct (cap_setRemoteDescription cap s c sdp); simpl;
        (split; [exact Hs|]); eexists; (split; [reflexivity|]);
        repeat constructor.
    + split; [exact Hs|]. exists []. now rewrite app_nil_r.
  - intros s Hs. unfold state_after, handleIce, bind, gets.
    destruct (table_get cap s p) as [|c|]; simpl.
    + split; [exact Hs|]. exists []. now rewrite app_nil_r.
    + unfold try_catch, addIceCandidate.
      destruct (cap_addIceCandidate cap s c x); simpl;
        (split; [exact Hs|]); eexists; (split; [reflexivity|]);
        repeat constructor.
    + split; [exact Hs|]. exists []. now rewrite app_nil_r.
  - intros s Hs. unfold state_after. simpl. split; [exact Hs|].
    eexists. split; [reflexivity|].
    constructor; [apply wire_ok_room; now left|constructor].
  - intros s Hs. unfold state_after. simpl. split; [exact Hs|].
    eexists. split; [reflexivity|].
    constructor; [apply wire_ok_room; now right|constructor].
  - unfold hostRoom_ack. destruct (not_ok res).
    + apply appends_modify. intros s. split; reflexivity.
    + apply appends_bind; [apply appends_initLocalMedia|].
      intros _. apply appends_modify. intros s. split; reflexivity.
  - unfold joinRoom_ack. destruct (not_ok res).
    + apply appends_modify. intros s. split; reflexivity.
    + apply appends_bind; [apply appends_initLocalMedia|]. intros _.
      apply appends_bind; [apply appends_modify; intros s; split; reflexivity|].
      intros _. apply appends_for_of. intros p. apply appends_makeOffer.
  - intros s Hs. unfold state_after, webrtc.fire_track, bind, gets. simpl.
    destruct (conns s !! c) as [[[[p []]|] ? ? ? ? ? []]|]; simpl;
      (split; [exact Hs|]); exists []; now rewrite app_nil_r.
  - intros s Hs. unfold webrtc.fire_icecandidate, bind, gets, state_after.
    simpl.
    assert (Hid : socket_id s = me /\
                  exists l, trace s = trace s ++ l /\ Forall (wire_ok me) l).
    { split; [exact Hs|]. exists []. now rewrite app_nil_r. }
    destruct (conns s !! c) as [[? [[p cb]|] ? ? ? ? []]|]; try exact Hid.
    unfold webrtc.onicecandidate. destruct (candidate ev) as [x|].
    + destruct cb; apply appends_onIceCandidate; exact Hs.
    + exact Hid.
Qed.

(** C8.  Whatever event the client handles, every [webrtc-offer] and
    [webrtc-answer] it emits has payload [{to, from, sdp}] and every
    [webrtc-ice] has payload [{to, from, candidate}], in this key order and
    with [from] equal to the client's own socket id.  The addressee is the
    target peer: a completed [makeOffer(p)] ends with the emit of
    [webrtc-offer] to [p] carrying the offer it has just set as local
    description, a completed [handleOffer(f, _)] ends with the emit of
    [webrtc-answer] to [f] carrying the answer it has just set, and the
    candidate callback of the connection bound to [p] emits [webrtc-ice] to
    [p] with the candidate it was given. *)
Theorem wire_shapes_preserved (cap : Capability) :
  (forall e s, exists l,
     trace (state_after (dispatch cap e) s) = trace s ++ l /\
     Forall (wire_ok (socket_id s)) l) /\
  (forall p s s', makeOffer cap p s = (Returned tt, s') ->
     exists pre offer,
       trace s' = trace s ++ pre
         ++ [CallSetLocalDescription (length (conns s)) offer;
             Emit "webrtc-offer"
               [("to", JStr p); ("from", JStr (socket_id s));
                ("sdp", JDesc offer)]]) /\
  (forall f sdp s s', handleOffer cap f sdp s = (Returned tt, s') ->
     exists pre answer,
       trace s' = trace s ++ pre
         ++ [CallSetLocalDescription (length (conns s)) answer;
             Emit "webrtc-answer"
               [("to", JStr f); ("from", JStr (socket_id s));
                ("sdp", JDesc answer)]]) /\
  (forall p x s,
     onIceCandidate p x s
     = (Returned tt,
        log (Emit "webrtc-ice"
               [("to", JStr p); ("from", JStr (socket_id s));
                ("candidate", JCand x)]) s)) /\
  (forall c conn p x s,
     conns s !! c = Some conn -> c_peer conn = Some p -> c_closed conn = false ->
     actions (dispatch cap (PcIceCandidate c {| candidate := Some x |})) s
     = [Emit "webrtc-ice" [("to", JStr p); ("from", JStr (socket_id s));
                           ("candidate", JCand x)]]).
Proof.
  split.
  { intros e s. now destruct (appends_dispatch cap (socket_id s) e s eq_refl). }
  split.
  { intros p s s' H.
    destruct (makeOffer_returned cap p s s' H) as (ls & offer & Ht & _).
    exists (setup_actions s (length (conns s)) ls
              ++ [CallCreateOffer (length (conns s))]), offer.
    rewrite Ht, <- !app_assoc. reflexivity. }
  split.
  { intros f sdp s s' H.
    destruct (handleOffer_returned cap f sdp s s' H) as (ls & answer & Ht & _).
    exists (setup_actions s (length (conns s)) ls
              ++ [CallSetRemoteDescription (length (conns s)) sdp;
                  CallCreateAnswer (length (conns s))]), answer.
    rewrite Ht, <- !app_assoc. reflexivity. }
  split; [reflexivity|].
  intros c conn p x s Hc Hp Hcl.
  destruct (c_peer_Some conn p Hp) as (onTrack & onIce & Ht & Hi).
  destruct conn as [t i ? ? ? ? cl]. simpl in Ht, Hi, Hcl. subst t i cl.
  unfold actions, state_after. simpl.
  unfold webrtc.fire_icecandidate, bind, gets.
  rewrite Hc. destruct onIce; simpl; apply drop_own_length.
Qed.

Lemma wire_shapes_preserved_witness :
  let s := init "a" "r1" "p" in
  (exists pre offer,
     trace (state_after (makeOffer Fixture.lenient "b") s)
     = trace s ++ pre
         ++ [CallSetLocalDescription 0 offer;
             Emit "webrtc-offer"
               [("to", JStr "b"); ("from", JStr "a"); ("sdp", JDesc offer)]]) /\
  (exists pre answer,
     trace (state_after (handleOffer Fixture.lenient "b" "offer-b") s)
     = trace s ++ pre
         ++ [CallSetLocalDescription 0 answer;
             Emit "webrtc-answer"
               [("to", JStr "b"); ("from", JStr "a"); ("sdp", JDesc answer)]]) /\
  actions (dispatch Fixture.lenient
             (PcIceCandidate 0 {| candidate := Some "cand-1" |}))
    (state_after (makeOffer Fixture.lenient "b") s)
  = [Emit "webrtc-ice" [("to", JStr "b"); ("from", JStr "a");
                        ("candidate", JCand "cand-1")]].
Proof.
  intros s.
  destruct (wire_shapes_preserved Fixture.lenient) as (_ & H1 & H2 & _ & H3).
  split; [apply (H1 "b" s); reflexivity|].
  split; [apply (H2 "b" "offer-b" s); reflexivity|].
  apply (H3 0 {| c_ontrack := Some ("b", CbSetRemote);
                 c_onicecandidate := Some ("b", CbIceOfMakeOffer);
                 c_tracks := ["audio"; "video"];
                 c_local := Some "offer"; c_remote := None; c_cands := [];
                 c_closed := false |} "b" "cand-1"); reflexivity.
Defined.

(** ** Who offers *)

Lemma offers_of_loop (cap : Capability) (l : list string) :
  forall s s', for_of l (makeOffer cap) s = (Returned tt, s') ->
    socket_id s' = socket_id s /\
    exists acts, trace s' = trace s ++ acts /\
                 forall p, p ∈ l -> offer_sent (socket_id s) p acts.
Proof.
  induction l as [|x l IH]; intros s s'; simpl.
  - intros [= <-]. split; [reflexivity|]. exists [].
    split; [now rewrite app_nil_r|]. intros p Hp. inversion Hp.
  - unfold bind at 1.
    destruct (makeOffer cap x s) as [[[]|e] s1] eqn:E; [|discriminate].
    intros Hrest.
    destruct (makeOffer_returned cap x s s1 E)
      as (ls & offer & Ht & _ & _ & Hid & _).
    destruct (IH s1 s' Hrest) as (Hid' & acts & Ht' & Hall).
    split; [congruence|]. eexists. split.
    + rewrite Ht', Ht, <- !app_assoc. reflexivity.
    + intros p Hp. apply elem_of_cons in Hp. destruct Hp as [-> | Hp].
      * exists offer. rewrite !elem_of_app. right. left. right.
        rewrite !elem_of_cons. auto.
      * destruct (Hall p Hp) as [d Hd]. exists d. rewrite Hid in Hd.
        rewrite !elem_of_app. right. right. exact Hd.
Qed.

(** C1, as the spec words it, fails.  In the join scenario of spec section 8
    the host ["A"] offers to the joiner ["B"] on [peer-joined], and the joiner
    offers to the host on the acknowledgement that lists it: offers travel in
    both directions of the edge. *)
Lemma joiner_offers_too :
  let sA := host_side Fixture.lenient "A" "B" in
  let sB := joiner_side Fixture.lenient "A" "B" in
  offer_sent "A" "B" (trace sA) /\
  offer_sent "B" "A" (trace sB) /\
  ~ one_offer_direction sA sB.
Proof.
  intros sA sB.
  assert (HA : offer_sent "A" "B" (trace sA)).
  { exists "offer". apply list_elem_of_In. vm_compute.
    repeat first [left; reflexivity | right]. }
  assert (HB : offer_sent "B" "A" (trace sB)).
  { exists "offer". apply list_elem_of_In. vm_compute.
    repeat first [left; reflexivity | right]. }
  split; [exact HA|]. split; [exact HB|].
  intros H. apply H. split; assumption.
Qed.

(** C1, amended.  Both sides of an edge initiate.  When the handler of
    [peer-joined{b}] completes on the existing member [a], it has emitted a
    [webrtc-offer] from [a] to [b]; when the callback of a successful
    [join-room] completes on the joiner [b], it has emitted a [webrtc-offer]
    from [b] to every peer listed in the acknowledgement, [a] among them. *)
Theorem both_sides_offer
    (cap : Capability) (a b : string) (sA sB sA' sB' : State)
    (res : Ack) (l : list string) :
  socket_id sA = a -> socket_id sB = b ->
  ok res = true -> peers res = Some l -> a ∈ l ->
  dispatch cap (PeerJoined b) sA = (Returned tt, sA') ->
  dispatch cap (JoinAck (Some res)) sB = (Returned tt, sB') ->
  offer_sent a b (actions (dispatch cap (PeerJoined b)) sA) /\
  offer_sent b a (actions (dispatch cap (JoinAck (Some res))) sB) /\
  (forall p, p ∈ l ->
     offer_sent b p (actions (dispatch cap (JoinAck (Some res))) sB)).
Proof.
  intros HA HB Hok Hl Hin HdA HdB. unfold actions, state_after.
  rewrite HdA, HdB. simpl in *.
  assert (Hjoin : forall p, p ∈ l ->
            offer_sent b p (drop (length (trace sB)) (trace sB'))).
  { unfold joinRoom_ack in HdB. simpl in HdB. rewrite Hok in HdB.
    simpl in HdB. unfold peers_or_nil in HdB. destruct res as [o e pl].
    simpl in Hl. subst pl. unfold bind at 1 in HdB.
    pose proof (initLocalMedia_frame cap sB) as F.
    unfold state_after, outcome_of in F.
    destruct (initLocalMedia cap sB) as [[ls|ex] s1]; [|discriminate].
    simpl in F. destruct F as (Fid & _ & _ & _ & Ftr).
    specialize (Ftr ls eq_refl).
    unfold bind at 1 in HdB. simpl in HdB.
    destruct (offers_of_loop cap l _ _ HdB) as (_ & acts & Ht & Hall).
    simpl in Ht, Hall. intros p Hp.
    destruct (Hall p Hp) as [d Hd]. exists d.
    rewrite Ht, Ftr, <- app_assoc, drop_own_length.
    rewrite elem_of_app. right. rewrite Fid, HB in Hd. exact Hd. }
  split; [|split; [now apply Hjoin | exact Hjoin]].
  destruct (makeOffer_returned cap b sA sA' HdA) as (ls & offer & Ht & _).
  exists offer. rewrite Ht, drop_own_length, HA.
  rewrite !elem_of_app. right. rewrite !elem_of_cons. auto.
Qed.

Lemma both_sides_offer_witness :
  offer_sent "A" "B"
    (actions (dispatch Fixture.lenient (PeerJoined "B")) (init "A" "r1" "p")) /\
  offer_sent "B" "A"
    (actions (dispatch Fixture.lenient
                (JoinAck (Some {| ok := true; err := None;
                                  peers := Some ["A"] |})))
       (init "B" "r1" "p")).
Proof.
  destruct (both_sides_offer Fixture.lenient "A" "B"
              (init "A" "r1" "p") (init "B" "r1" "p")
              (state_after (dispatch Fixture.lenient (PeerJoined "B"))
                 (init "A" "r1" "p"))
              (state_after (dispatch Fixture.lenient
                 (JoinAck (Some {| ok := true; err := None;
                                   peers := Some ["A"] |})))
                 (init "B" "r1" "p"))
              {| ok := true; err := None; peers := Some ["A"] |} ["A"])
    as (H1 & H2 & _); try reflexivity.
  - apply list_elem_of_here.
  - split; assumption.
Defined.

(** * Further properties of the client *)

(** ** The factory *)

(** X1.  [createPeerConnection] always returns, with a reference that was not
    in use; the new connection is open, has its two handlers bound to
    [peerId], carries the tracks of the local stream in their order and has no
    description or candidate yet.  The connections that existed, the table and
    the remote-media map are as before, and the calls made are the
    construction followed by one [addTrack] per track, in order. *)
Theorem factory_builds_fresh_connection
    (peerId : string) (ls : MediaStream) (onTrack : TrackCallback)
    (onIceCandidate : IceCallback) (s : State) :
  let build := webrtc.createPeerConnection peerId ls onTrack onIceCandidate in
  let c := length (conns s) in
  let s' := state_after build s in
  outcome_of build s = Returned c /\
  conns s !! c = None /\
  conns s' = conns s ++ [{| c_ontrack := Some (peerId, onTrack);
                            c_onicecandidate := Some (peerId, onIceCandidate);
                            c_tracks := ms_tracks ls;
                            c_local := None; c_remote := None; c_cands := [];
                            c_closed := false |}] /\
  c_peer <$> conns s' !! c = Some (Some peerId) /\
  pcs s' = pcs s /\ remoteStreams s' = remoteStreams s /\
  localStream s' = localStream s /\
  actions build s = CallNew c :: map (CallAddTrack c) (ms_tracks ls).
Proof.
  unfold outcome_of, actions, state_after.
  rewrite createPeerConnection_closed. simpl.
  repeat split.
  - apply lookup_ge_None. lia.
  - rewrite list_lookup_middle by reflexivity. simpl. unfold c_peer. simpl.
    now rewrite String.eqb_refl.
  - apply drop_own_length.
Qed.

(** ** The camera *)

(** X2.  When no stream is cached and [getUserMedia] rejects, each of the four
    handlers that ask for the camera rejects right there: [makeOffer],
    [handleOffer] and the callbacks of an accepted [host-room] and
    [join-room] make that one call and nothing else.  No connection is built,
    the table is not written, nothing is emitted and the room is not
    entered. *)
Theorem camera_refusal_aborts
    (cap : Capability) (p : string) (sdp : Sdp) (res : option Ack) (s : State) :
  localStream s = None -> cap_getUserMedia cap s = None ->
  not_ok res = false ->
  makeOffer cap p s = (Thrown MediaRejected, log CallGetUserMedia s) /\
  handleOffer cap p sdp s = (Thrown MediaRejected, log CallGetUserMedia s) /\
  hostRoom_ack cap res s = (Thrown MediaRejected, log CallGetUserMedia s) /\
  joinRoom_ack cap res s = (Thrown MediaRejected, log CallGetUserMedia s).
Proof.
  intros Hls Hcap Hok.
  assert (Hmedia : initLocalMedia cap s
                   = (Thrown MediaRejected, log CallGetUserMedia s)).
  { destruct (initLocalMedia_cases cap s)
      as [(ls & E & _)|[(ls & _ & E & _)|(_ & _ & E)]]; congruence. }
  rewrite makeOffer_unfold, handleOffer_unfold, Hmedia.
  unfold hostRoom_ack, joinRoom_ack. rewrite Hok. unfold bind.
  rewrite Hmedia. repeat split.
Qed.

Lemma camera_refusal_aborts_witness :
  let s := init "a" "r1" "p" in
  let res := Some {| ok := true; err := None; peers := Some ["b"; "c"] |} in
  makeOffer blind "b" s = (Thrown MediaRejected, log CallGetUserMedia s) /\
  handleOffer blind "b" "offer-b" s
  = (Thrown MediaRejected, log CallGetUserMedia s) /\
  hostRoom_ack blind res s = (Thrown MediaRejected, log CallGetUserMedia s) /\
  joinRoom_ack blind res s = (Thrown MediaRejected, log CallGetUserMedia s).
Proof.
  intros s res.
  apply (camera_refusal_aborts blind "b" "offer-b" res s); reflexivity.
Defined.

(** ** The offerer path *)

(** X3.  When [makeOffer(p)] completes, the calls it made on the connection it
    built are, after the set-up and in this order: [createOffer()],
    [setLocalDescription(offer)], and then the emit of [webrtc-offer] with
    payload [{to: p, from: socket.id, sdp: offer}]; the connection it built
    holds that [offer] as local description. *)
Theorem offerer_path (cap : Capability) (p : string) (s s' : State) :
  makeOffer cap p s = (Returned tt, s') ->
  let c := length (conns s) in
  exists ls offer,
    actions (makeOffer cap p) s
    = setup_actions s c ls
        ++ [CallCreateOffer c;
            CallSetLocalDescription c offer;
            Emit "webrtc-offer"
              [("to", JStr p); ("from", JStr (socket_id s));
               ("sdp", JDesc offer)]] /\
    exists conn, conns s' !! c = Some conn /\ c_local conn = Some offer.
Proof.
  intros H.
  destruct (makeOffer_returned cap p s s' H) as (ls & offer & Ht & Hp & Hc & _).
  exists ls, offer. split.
  - unfold actions, state_after. rewrite H. simpl.
    rewrite Ht. apply drop_own_length.
  - eexists. split; [rewrite Hc; now apply list_lookup_middle|]. reflexivity.
Qed.

Lemma offerer_path_witness :
  let s := init "a" "r1" "p" in
  let s' := state_after (makeOffer Fixture.strict "b") s in
  exists ls offer,
    actions (makeOffer Fixture.strict "b") s
    = setup_actions s 0 ls
        ++ [CallCreateOffer 0; CallSetLocalDescription 0 offer;
            Emit "webrtc-offer"
              [("to", JStr "b"); ("from", JStr "a"); ("sdp", JDesc offer)]] /\
    exists conn, conns s' !! 0 = Some conn /\ c_local conn = Some offer.
Proof.
  intros s s'.
  apply (offerer_path Fixture.strict "b" s). reflexivity.
Defined.

(** ** A negotiation that fails *)

Lemma creator_calls (cap : Capability) (p : string) (s : State)
    (onTrack : TrackCallback) (onIce : IceCallback)
    (tail : nat -> State -> Outcome unit * State) (r : Outcome unit * State) :
  (forall c s2, negotiates s2 (snd (tail c s2))) ->
  (forall c s2 e, fst (tail c s2) = Thrown e -> e <> MediaRejected) ->
  r = match initLocalMedia cap s with
      | (Returned ls, s1) =>
          tail (length (conns s1))
            (upd_pcs (<[p := length (conns s1)]>)
               (created p ls onTrack onIce s1))
      | (Thrown e, s1) => (Thrown e, s1)
      end ->
  (forall c, CallClose c ∉ drop (length (trace s)) (trace (snd r))) /\
  (fst r = Thrown MediaRejected ->
   drop (length (trace s)) (trace (snd r)) = [CallGetUserMedia]).
Proof.
  intros Hneg Hthrown ->.
  assert (Hgo : forall ls s1 pre,
    conns s1 = conns s -> trace s1 = trace s ++ pre ->
    (forall c, CallClose c ∉ pre) ->
    let r := tail (length (conns s1))
               (upd_pcs (<[p := length (conns s1)]>)
                  (created p ls onTrack onIce s1)) in
    (forall c, CallClose c ∉ drop (length (trace s)) (trace (snd r))) /\
    (fst r = Thrown MediaRejected ->
     drop (length (trace s)) (trace (snd r)) = [CallGetUserMedia])).
  { intros ls s1 pre Hc Ht Hpre r. split.
    - destruct (Hneg (length (conns s1))
                  (upd_pcs (<[p := length (conns s1)]>)
                     (created p ls onTrack onIce s1)))
        as (_&_&_&_&_&_&_&_&_&l&Hl&Hsig).
      fold r in Hl. simpl in Hl. intros c.
      rewrite Hl, Ht, <- !app_assoc, drop_own_length.
      rewrite !elem_of_app, elem_of_cons, list_elem_of_fmap.
      intros [H|[[H|(t & H & _)]|H]]; try discriminate H.
      + exact (Hpre c H).
      + rewrite Forall_forall in Hsig. specialize (Hsig _ H). discriminate Hsig.
    - intros Hr. destruct (Hthrown _ _ _ Hr eq_refl). }
  destruct (initLocalMedia_cases cap s)
    as [(ls & E & Hm)|[(ls & E & _ & Hm)|(E & _ & Hm)]]; rewrite Hm.
  - apply (Hgo ls s []); auto using app_nil_r. intros c H. inversion H.
  - apply (Hgo ls _ [CallGetUserMedia]); auto.
    intros c H. apply list_elem_of_singleton in H. discriminate H.
  - simpl. rewrite drop_own_length. split; [|reflexivity].
    intros c H. apply list_elem_of_singleton in H. discriminate H.
Qed.

Lemma offer_tail_not_media (cap : Capability) (p : string) (c : nat)
    (s2 : State) (e : Exn) :
  fst (offer_tail cap p c s2) = Thrown e -> e <> MediaRejected.
Proof.
  intros H. now destruct (offer_tail_thrown cap p c s2 e H) as [Hne _].
Qed.

Lemma answer_tail_not_media (cap : Capability) (p : string) (sdp : Sdp)
    (c : nat) (s2 : State) (e : Exn) :
  fst (answer_tail cap p sdp c s2) = Thrown e -> e <> MediaRejected.
Proof.
  intros H. now destruct (answer_tail_thrown cap p sdp c s2 e H) as [Hne _].
Qed.

(** X4.  When [makeOffer] or [handleOffer] rejects, it has emitted nothing:
    no offer or answer leaves the client for a negotiation that did not
    complete.  If it was the camera that was refused, the [getUserMedia] call
    is all the handler did, so it built no connection.  Whatever rejected,
    there is no rollback: the handler, rejected or completed, never calls
    [close]. *)
Theorem failed_negotiation_is_silent
    (cap : Capability) (p : string) (sdp : Sdp) (s : State) :
  (forall m, m = makeOffer cap p \/ m = handleOffer cap p sdp ->
     (forall c, CallClose c ∉ actions m s) /\
     (outcome_of m s = Thrown MediaRejected ->
      actions m s = [CallGetUserMedia])) /\
  (forall e, outcome_of (makeOffer cap p) s = Thrown e ->
     emits (actions (makeOffer cap p) s) = []) /\
  (forall e, outcome_of (handleOffer cap p sdp) s = Thrown e ->
     emits (actions (handleOffer cap p sdp) s) = []).
Proof.
  unfold outcome_of, actions, state_after. split; [|split].
  - intros m [-> | ->].
    + apply (creator_calls cap p s CbSetRemote CbIceOfMakeOffer
               (offer_tail cap p) _ (offer_tail_negotiates cap p)
               (offer_tail_not_media cap p) (makeOffer_unfold cap p s)).
    + apply (creator_calls cap p s CbSetRemote CbIceOfHandleOffer
               (answer_tail cap p sdp) _ (answer_tail_negotiates cap p sdp)
               (answer_tail_not_media cap p sdp)
               (handleOffer_unfold cap p sdp s)).
  - intros e He.
    apply (creator_thrown cap p s CbSetRemote CbIceOfMakeOffer
             (offer_tail cap p) _ e
             (offer_tail_negotiates cap p) (offer_tail_thrown cap p)
             (makeOffer_unfold cap p s) He).
  - intros e He.
    apply (creator_thrown cap p s CbSetRemote CbIceOfHandleOffer
             (answer_tail cap p sdp) _ e
             (answer_tail_negotiates cap p sdp) (answer_tail_thrown cap p sdp)
             (handleOffer_unfold cap p sdp s) He).
Qed.

Lemma failed_negotiation_is_silent_witness :
  let s := init "a" "r1" "p" in
  outcome_of (handleOffer deaf "b" "offer-b") s = Thrown SetRemoteRejected /\
  emits (actions (handleOffer deaf "b" "offer-b") s) = [] /\
  actions (makeOffer blind "b") s = [CallGetUserMedia].
Proof.
  intros s.
  destruct (failed_negotiation_is_silent deaf "b" "offer-b" s) as (_ & _ & H).
  destruct (failed_negotiation_is_silent blind "b" "offer-b" s) as (H0 & _ & _).
  split; [reflexivity|]. split; [apply (H SetRemoteRejected); reflexivity|].
  apply (H0 (makeOffer blind "b")); [now left | reflexivity].
Defined.

(** ** An answer *)

(** X5.  For a peer that has a session, [handleAnswer] makes exactly one call,
    [setRemoteDescription(sdp)] on the connection of the table, and emits
    nothing; the table and the remote-media map are untouched.  If the call
    resolves, that connection holds [sdp] as remote description and is
    otherwise as before.  If the call rejects, the rejection is not caught,
    unlike a rejected candidate: the handler rejects, and no connection has
    changed. *)
Theorem answer_reaches_table_connection
    (cap : Capability) (from : string) (sdp : Sdp) (c : nat) (conn : Conn)
    (s : State) :
  pcs s !! from = Some c -> conns s !! c = Some conn ->
  let s' := state_after (handleAnswer cap from sdp) s in
  actions (handleAnswer cap from sdp) s = [CallSetRemoteDescription c sdp] /\
  pcs s' = pcs s /\ remoteStreams s' = remoteStreams s /\
  (forall c0, c0 <> c -> conns s' !! c0 = conns s !! c0) /\
  (cap_setRemoteDescription cap s c sdp = true ->
   outcome_of (handleAnswer cap from sdp) s = Returned tt /\
   conns s' !! c = Some {| c_ontrack := c_ontrack conn;
                           c_onicecandidate := c_onicecandidate conn;
                           c_tracks := c_tracks conn;
                           c_local := c_local conn; c_remote := Some sdp;
                           c_cands := c_cands conn;
                           c_closed := c_closed conn |}) /\
  (cap_setRemoteDescription cap s c sdp = false ->
   outcome_of (handleAnswer cap from sdp) s = Thrown SetRemoteRejected /\
   conns s' = conns s).
Proof.
  intros Hp Hc. unfold actions, outcome_of, state_after, handleAnswer, bind, gets.
  rewrite (table_get_own cap s from c Hp). unfold setRemoteDescription.
  destruct (cap_setRemoteDescription cap s c sdp); simpl;
    rewrite drop_own_length; repeat split; try discriminate.
  - intros c0 Hc0. apply list_lookup_alter_ne. congruence.
  - rewrite list_lookup_alter_eq, Hc. reflexivity.
Qed.

Lemma answer_reaches_table_connection_witness :
  let s := run Fixture.lenient [PeerJoined "b"] (init "a" "r1" "p") in
  let s' := state_after (handleAnswer Fixture.lenient "b" "answer-b") s in
  outcome_of (handleAnswer Fixture.lenient "b" "answer-b") s = Returned tt /\
  conns s' !! 0 = Some {| c_ontrack := Some ("b", CbSetRemote);
                          c_onicecandidate := Some ("b", CbIceOfMakeOffer);
                          c_tracks := ["audio"; "video"];
                          c_local := Some "offer"; c_remote := Some "answer-b";
                          c_cands := []; c_closed := false |}.
Proof.
  intros s.
  destruct (answer_reaches_table_connection Fixture.lenient "b" "answer-b" 0
              {| c_ontrack := Some ("b", CbSetRemote);
                          c_onicecandidate := Some ("b", CbIceOfMakeOffer);
                          c_tracks := ["audio"; "video"];
                 c_local := Some "offer"; c_remote := None; c_cands := [];
                 c_closed := false |} s) as (_ & _ & _ & _ & H & _);
    [reflexivity | reflexivity |].
  apply H. reflexivity.
Defined.
(** ** Tearing down twice *)

(** X8.  For a peer identifier that is not the name of an inherited member of
    the table, [cleanupPeer] is idempotent: a second [cleanupPeer(p)] finds no
    session, makes no call and leaves the state exactly as the first one left
    it. *)
Theorem cleanup_twice_is_cleanup_once (cap : Capability) (p : string) (s : State) :
  inherited cap s p = false ->
  let s1 := state_after (cleanupPeer cap p) s in
  outcome_of (cleanupPeer cap p) s = Returned tt /\
  actions (cleanupPeer cap p) s1 = [] /\
  cleanupPeer cap p s1 = (Returned tt, s1).
Proof.
  intros Hi s1.
  pose proof (not_inherited_not_proto cap s p Hi) as Hproto.
  pose proof (table_delete_plain p (pcs s) Hproto) as Hd.
  assert (Hp : outcome_of (cleanupPeer cap p) s = Returned tt /\
               pcs s1 = delete p (pcs s) /\ remoteStreams s1 !! p = None).
  { unfold s1, outcome_of, state_after. destruct (pcs s !! p) as [c|] eqn:E.
    - rewrite (cleanupPeer_some cap p c s E). simpl. rewrite Hd.
      repeat split. apply lookup_delete_eq.
    - rewrite (cleanupPeer_none cap p s (table_get_absent cap s p E Hi)).
      simpl. rewrite Hd. repeat split. apply lookup_delete_eq. }
  destruct Hp as (Ho & Hp & Hr). split; [exact Ho|].
  assert (Ha : table_get cap s1 p = Absent).
  { apply table_get_absent; [rewrite Hp; apply lookup_delete_eq|].
    unfold inherited in *. rewrite Hp, lookup_delete_ne by congruence.
    exact Hi. }
  unfold actions, state_after.
  rewrite (cleanupPeer_none cap p s1 Ha). clearbody s1. simpl.
  split; [apply drop_all|]. f_equal.
  apply state_eq; simpl; try reflexivity.
  - rewrite (table_delete_plain _ _ Hproto). apply delete_id.
    rewrite Hp. apply lookup_delete_eq.
  - now apply delete_id.
Qed.

Lemma cleanup_twice_is_cleanup_once_witness :
  let s := run Fixture.lenient [PeerJoined "b"] (init "a" "r1" "p") in
  let s1 := state_after (cleanupPeer Fixture.lenient "b") s in
  pcs s !! "b" = Some 0 /\
  actions (cleanupPeer Fixture.lenient "b") s = [CallClose 0] /\
  actions (cleanupPeer Fixture.lenient "b") s1 = [] /\
  cleanupPeer Fixture.lenient "b" s1 = (Returned tt, s1).
Proof.
  intros s s1. split; [reflexivity|]. split; [reflexivity|].
  apply (cleanup_twice_is_cleanup_once Fixture.lenient "b" s). reflexivity.
Defined.

(** ** Runs of events *)

Lemma run_cons (cap : Capability) (e : Event) (es : list Event) (s : State) :
  run cap (e :: es) s = run cap es (state_after (dispatch cap e) s).
Proof. reflexivity. Qed.

Lemma run_app (cap : Capability) (es1 es2 : list Event) (s : State) :
  run cap (es1 ++ es2) s = run cap es2 (run cap es1 s).
Proof. unfold run. apply fold_left_app. Qed.

(** X9.  Candidates from a peer that has a session are tried on its
    connection in arrival order, one [addIceCandidate] call each; the
    connection keeps the candidates it accepted, in arrival order after those
    it already had, and none is ever dropped again.  If the browser accepts
    them all, the connection ends up with all of them.  The table and the
    remote-media map do not change. *)
Theorem candidates_accumulate
    (cap : Capability) (p : string) (c : nat) (xs : list Candidate) :
  forall (s : State) (conn : Conn),
    pcs s !! p = Some c -> conns s !! c = Some conn ->
    let s' := run cap (map (WebrtcIce p) xs) s in
    pcs s' = pcs s /\ remoteStreams s' = remoteStreams s /\
    trace s' = trace s ++ map (CallAddIceCandidate c) xs /\
    exists ys,
      ys `sublist_of` xs /\
      conns s' !! c = Some {| c_ontrack := c_ontrack conn;
                              c_onicecandidate := c_onicecandidate conn;
                              c_tracks := c_tracks conn;
                              c_local := c_local conn; c_remote := c_remote conn;
                              c_cands := c_cands conn ++ ys;
                              c_closed := c_closed conn |} /\
      ((forall st x, cap_addIceCandidate cap st c x = true) -> ys = xs).
Proof.
  induction xs as [|x xs IH]; intros s conn Hp Hc.
  - simpl. rewrite !app_nil_r. repeat split. exists [].
    split; [constructor|]. rewrite app_nil_r. destruct conn. auto.
  - cbn [map]. rewrite run_cons. cbv zeta.
    assert (Hstep :
      let s1 := state_after (dispatch cap (WebrtcIce p x)) s in
      pcs s1 = pcs s /\ remoteStreams s1 = remoteStreams s /\
      trace s1 = trace s ++ [CallAddIceCandidate c x] /\
      ((cap_addIceCandidate cap s c x = true /\
        conns s1 !! c = Some (with_cand x conn)) \/
       (cap_addIceCandidate cap s c x = false /\ conns s1 !! c = Some conn))).
    { simpl. unfold state_after, handleIce, bind, gets.
      rewrite (table_get_own cap s p c Hp).
      unfold try_catch, addIceCandidate.
      destruct (cap_addIceCandidate cap s c x); simpl; repeat split.
      - left. split; [reflexivity|].
        rewrite list_lookup_alter_eq, Hc. reflexivity.
      - right. auto. }
    destruct Hstep as (S1 & S2 & S3 & [[Hyes S4]|[Hno S4]]).
    + destruct (IH _ _ (eq_trans (f_equal (fun m => m !! p) S1) Hp) S4)
        as (I1 & I2 & I3 & ys & Hsub & I4 & I5).
      rewrite I1, I2, I3, S1, S2, S3, <- app_assoc. repeat split.
      exists (x :: ys). split; [now constructor|]. split.
      * rewrite I4. simpl. now rewrite <- app_assoc.
      * intros Hall. now rewrite (I5 Hall).
    + destruct (IH _ _ (eq_trans (f_equal (fun m => m !! p) S1) Hp) S4)
        as (I1 & I2 & I3 & ys & Hsub & I4 & I5).
      rewrite I1, I2, I3, S1, S2, S3, <- app_assoc. repeat split.
      exists ys. split; [now constructor|]. split; [exact I4|].
      intros Hall. rewrite Hall in Hno. discriminate.
Qed.

Lemma candidates_accumulate_witness :
  let s := run Fixture.lenient [PeerJoined "b"] (init "a" "r1" "p") in
  let s' := run Fixture.lenient (map (WebrtcIce "b") ["c1"; "c2"; "c3"]) s in
  trace s' = trace s ++ map (CallAddIceCandidate 0) ["c1"; "c2"; "c3"] /\
  exists ys,
    ys `sublist_of` ["c1"; "c2"; "c3"] /\
    conns s' !! 0 = Some {| c_ontrack := Some ("b", CbSetRemote);
                            c_onicecandidate := Some ("b", CbIceOfMakeOffer);
                            c_tracks := ["audio"; "video"];
                            c_local := Some "offer"; c_remote := None;
                            c_cands := [] ++ ys; c_closed := false |} /\
    ((forall st x, cap_addIceCandidate Fixture.lenient st 0 x = true) ->
     ys = ["c1"; "c2"; "c3"]).
Proof.
  intros s.
  destruct (candidates_accumulate Fixture.lenient "b" 0 ["c1"; "c2"; "c3"] s
              {| c_ontrack := Some ("b", CbSetRemote);
                            c_onicecandidate := Some ("b", CbIceOfMakeOffer);
                            c_tracks := ["audio"; "video"];
                 c_local := Some "offer"; c_remote := None; c_cands := [];
                 c_closed := false |}) as (_ & _ & H1 & H2);
    [reflexivity | reflexivity |].
  split; [exact H1 | exact H2].
Defined.

Lemma track_step (cap : Capability) (c : nat) (conn : Conn) (p : string)
    (ev : TrackEvent) (s : State) :
  conns s !! c = Some conn -> c_peer conn = Some p -> c_closed conn = false ->
  state_after (dispatch cap (PcTrack c ev)) s
  = upd_remoteStreams (<[p := streams0 ev]>) s.
Proof.
  intros Hc Hp Hcl.
  destruct (c_peer_Some conn p Hp) as (onTrack & onIce & Ht & Hi).
  destruct conn as [t i ? ? ? ? cl]. simpl in Ht, Hi, Hcl. subst t i cl.
  simpl. unfold state_after, webrtc.fire_track, bind, gets. rewrite Hc.
  now destruct onTrack.
Qed.

(** X10.  Track events on an open connection bound to [p] only write the
    remote-media map, and the last one wins: after any sequence of them the
    stream stored for [p] is [streams[0]] of the last event ([undefined] when
    that event carries no stream), the streams of the other peers are as
    before, and neither the table, nor a connection, nor the trace has
    changed. *)
Theorem last_track_wins
    (cap : Capability) (c : nat) (conn : Conn) (p : string)
    (evs : list TrackEvent) (ev : TrackEvent) (s : State) :
  conns s !! c = Some conn -> c_peer conn = Some p -> c_closed conn = false ->
  let s' := run cap (map (PcTrack c) (evs ++ [ev])) s in
  remoteStreams s' !! p = Some (streams0 ev) /\
  (forall q, q <> p -> remoteStreams s' !! q = remoteStreams s !! q) /\
  pcs s' = pcs s /\ conns s' = conns s /\ trace s' = trace s.
Proof.
  intros Hc Hp Hcl. revert s Hc.
  induction evs as [|e0 evs IH]; intros s Hc; cbn [app map];
    rewrite run_cons, (track_step cap c conn p _ s Hc Hp Hcl).
  - simpl. split; [apply lookup_insert_eq|]. repeat split.
    intros q Hq. now apply lookup_insert_ne.
  - destruct (IH (upd_remoteStreams (<[p := streams0 e0]>) s) Hc)
      as (I1 & I2 & I3 & I4 & I5).
    split; [exact I1|]. split; [|auto].
    intros q Hq. rewrite (I2 q Hq). simpl. now apply lookup_insert_ne.
Qed.

Lemma last_track_wins_witness :
  let s := run Fixture.lenient [PeerJoined "b"] (init "a" "r1" "p") in
  let one := {| streams := [Stream {| ms_id := "r1"; ms_tracks := ["video"] |}] |} in
  let none := {| streams := [] |} in
  remoteStreams (run Fixture.lenient (map (PcTrack 0) ([one] ++ [none])) s)
    !! "b" = Some Undefined.
Proof.
  intros s one none.
  apply (last_track_wins Fixture.lenient 0
           {| c_ontrack := Some ("b", CbSetRemote);
                            c_onicecandidate := Some ("b", CbIceOfMakeOffer);
                            c_tracks := ["audio"; "video"];
              c_local := Some "offer"; c_remote := None; c_cands := [];
              c_closed := false |} "b" [one] none s); reflexivity.
Defined.

(** ** The offers of a joiner *)

Lemma no_emit_no_target (l : list Action) :
  emits l = [] -> offer_targets l = [].
Proof.
  induction l as [|a l IH]; [reflexivity|].
  destruct a; simpl; try exact IH. discriminate.
Qed.

Lemma setup_has_no_emit (s : State) (c : nat) (ls : MediaStream) :
  emits (setup_actions s c ls) = [].
Proof.
  unfold setup_actions. rewrite emits_app. simpl. rewrite emits_tracks.
  destruct (localStream s); reflexivity.
Qed.

Lemma makeOffer_targets (cap : Capability) (p : string) (s : State) :
  exists acts,
    trace (state_after (makeOffer cap p) s) = trace s ++ acts /\
    offer_targets acts = match outcome_of (makeOffer cap p) s with
                         | Returned _ => [p]
                         | Thrown _ => []
                         end.
Proof.
  unfold state_after, outcome_of.
  destruct (makeOffer cap p s) as [[[]|e] s'] eqn:E; simpl.
  - destruct (makeOffer_returned cap p s s' E) as (ls & offer & Ht & _).
    eexists. split; [exact Ht|].
    unfold offer_targets. rewrite omap_app.
    fold (offer_targets (setup_actions s (length (conns s)) ls)).
    rewrite (no_emit_no_target _ (setup_has_no_emit _ _ _)). reflexivity.
  - destruct (creator_frame cap p s CbSetRemote CbIceOfMakeOffer
                (offer_tail cap p) _
                (offer_tail_frame cap p) (makeOffer_unfold cap p s))
      as (_ & _ & _ & (l & Hl & _) & _).
    destruct (creator_thrown cap p s CbSetRemote CbIceOfMakeOffer
                (offer_tail cap p) _ e
                (offer_tail_negotiates cap p) (offer_tail_thrown cap p)
                (makeOffer_unfold cap p s)) as (He & _).
    { rewrite E. reflexivity. }
    rewrite E in *. simpl in *. exists l. split; [exact Hl|].
    apply no_emit_no_target. rewrite Hl, drop_own_length in He. exact He.
Qed.

Lemma makeOffer_inRoom (cap : Capability) (p : string) (s : State) :
  inRoom (state_after (makeOffer cap p) s) = inRoom s.
Proof.
  unfold state_after. rewrite makeOffer_unfold.
  destruct (initLocalMedia_cases cap s)
    as [(ls & E & ->)|[(ls & E & _ & ->)|(E & _ & ->)]]; [| |reflexivity];
    match goal with
    | |- inRoom (snd (offer_tail cap p ?c ?s2)) = _ =>
        destruct (offer_tail_negotiates cap p c s2) as (_&_&_&->&_)
    end; reflexivity.
Qed.

Lemma for_of_cons {A} (body : A -> M unit) (x : A) (l : list A) (s : State) :
  for_of (x :: l) body s
  = match body x s with
    | (Returned _, s1) => for_of l body s1
    | (Thrown e, s1) => (Thrown e, s1)
    end.
Proof. reflexivity. Qed.

Lemma joinRoom_ack_unfold (cap : Capability) (res : option Ack) (s : State) :
  joinRoom_ack cap res s
  = if not_ok res
    then (Returned tt, set_error (error_or res "Join failed") s)
    else match initLocalMedia cap s with
         | (Returned _, s1) =>
             for_of (peers_or_nil res) (makeOffer cap) (set_inRoom true s1)
         | (Thrown e, s1) => (Thrown e, s1)
         end.
Proof.
  unfold joinRoom_ack. destruct (not_ok res); [reflexivity|].
  unfold bind at 1. destruct (initLocalMedia cap s) as [[ls|e] s1]; reflexivity.
Qed.

Lemma offer_loop_targets (cap : Capability) (l : list string) :
  forall s,
    inRoom (state_after (for_of l (makeOffer cap)) s) = inRoom s /\
    exists acts,
      trace (state_after (for_of l (makeOffer cap)) s) = trace s ++ acts /\
      offer_targets acts `prefix_of` l /\
      match outcome_of (for_of l (makeOffer cap)) s with
      | Returned _ => offer_targets acts = l
      | Thrown _ => length (offer_targets acts) < length l
      end.
Proof.
  induction l as [|p l IH]; intros s.
  - simpl. split; [reflexivity|]. exists []. rewrite app_nil_r.
    repeat split. apply prefix_nil.
  - pose proof (makeOffer_targets cap p s) as (a1 & T1 & T2).
    pose proof (makeOffer_inRoom cap p s) as R1.
    unfold state_after, outcome_of in *. rewrite for_of_cons.
    destruct (makeOffer cap p s) as [[[]|e] s1]; simpl in *.
    + destruct (IH s1) as (R2 & a2 & U1 & U2 & U3).
      split; [congruence|]. exists (a1 ++ a2).
      rewrite U1, T1, app_assoc. split; [reflexivity|].
      unfold offer_targets in *. rewrite omap_app, T2. simpl.
      split; [now apply prefix_cons|].
      destruct (for_of l (makeOffer cap) s1) as [[[]|e] s2]; simpl in *.
      * now rewrite U3.
      * lia.
    + split; [exact R1|]. exists a1. split; [exact T1|]. rewrite T2.
      split; [apply prefix_nil|]. simpl. lia.
Qed.

(** X11.  The callback of [join-room] offers to the peers the acknowledgement
    lists, one at a time and in that order.  The peers it has offered to
    always form an initial part of the list; a refused or missing
    acknowledgement gives no offer; when the callback completes on an accepted
    acknowledgement every listed peer has been offered to, once each; and when
    an offer fails after the camera was obtained, that peer and all later ones
    get no offer, while the client has already entered the room. *)
Theorem join_offers_in_order
    (cap : Capability) (res : option Ack) (s : State) :
  let m := joinRoom_ack cap res in
  offer_targets (actions m s) `prefix_of` peers_or_nil res /\
  (not_ok res = true ->
   offer_targets (actions m s) = [] /\
   inRoom (state_after m s) = inRoom s) /\
  (not_ok res = false -> outcome_of m s = Returned tt ->
   offer_targets (actions m s) = peers_or_nil res /\
   inRoom (state_after m s) = true) /\
  (forall e, not_ok res = false -> outcome_of m s = Thrown e ->
   e <> MediaRejected ->
   length (offer_targets (actions m s)) < length (peers_or_nil res) /\
   inRoom (state_after m s) = true).
Proof.
  unfold actions, outcome_of, state_after. rewrite joinRoom_ack_unfold.
  destruct (not_ok res) eqn:Hok.
  { simpl. rewrite drop_all. simpl.
    split; [apply prefix_nil|]. repeat split; discriminate. }
  destruct (initLocalMedia_cases cap s)
    as [(ls & E & ->)|[(ls & E & _ & ->)|(E & _ & ->)]].
  - destruct (offer_loop_targets cap (peers_or_nil res) (set_inRoom true s))
      as (R & acts & T1 & T2 & T3).
    unfold state_after, outcome_of in *. simpl in *.
    destruct (for_of (peers_or_nil res) (makeOffer cap) (set_inRoom true s))
      as [[[]|e] s2]; simpl in *; rewrite T1, drop_own_length;
      (split; [exact T2|]); repeat split; try discriminate; auto.
  - destruct (offer_loop_targets cap (peers_or_nil res)
                (set_inRoom true
                   (set_localStream (Some ls) (log CallGetUserMedia s))))
      as (R & acts & T1 & T2 & T3).
    unfold state_after, outcome_of in *. simpl in *.
    destruct (for_of (peers_or_nil res) (makeOffer cap) _)
      as [[[]|e] s2]; simpl in *; rewrite T1, <- app_assoc, drop_own_length;
      simpl; (split; [exact T2|]); repeat split; try discriminate; auto.
  - simpl. rewrite drop_own_length. simpl.
    split; [apply prefix_nil|]. repeat split; try discriminate.
    + congruence.
    + congruence.
Qed.

Lemma join_offers_in_order_witness :
  let res := Some {| ok := true; err := None; peers := Some ["b"; "c"; "d"] |} in
  let s := init "e" "r1" "p" in
  offer_targets (actions (joinRoom_ack Fixture.lenient res) s) = ["b"; "c"; "d"] /\
  inRoom (state_after (joinRoom_ack Fixture.lenient res) s) = true.
Proof.
  intros res s.
  destruct (join_offers_in_order Fixture.lenient res s) as (_ & _ & H & _).
  apply H; reflexivity.
Defined.

(** ** Every handler as a sequence of moves *)

Lemma quietly_ret {A} (a : A) : quietly (ret a).
Proof. intros s. apply rtc_refl. Qed.

Lemma quietly_bind {A B} (m : M A) (k : A -> M B) :
  quietly m -> (forall a, quietly (k a)) -> quietly (bind m k).
Proof.
  intros Hm Hk s. specialize (Hm s). unfold state_after, bind in *.
  destruct (m s) as [[a|e] s1]; simpl in *; [|exact Hm].
  etransitivity; [exact Hm|]. apply Hk.
Qed.

Lemma quietly_for_of {A} (l : list A) (body : A -> M unit) :
  (forall x, quietly (body x)) -> quietly (for_of l body).
Proof.
  intros Hb. induction l as [|x l IH]; simpl.
  - apply quietly_ret.
  - apply quietly_bind; [apply Hb | intros _; exact IH].
Qed.

Lemma quietly_emit (ev : string) (payload : Payload) : quietly (emit ev payload).
Proof.
  intros s. apply rtc_once, quiet_negotiate. unfold state_after. negotiation.
Qed.

Lemma quietly_initLocalMedia (cap : Capability) : quietly (initLocalMedia cap).
Proof.
  intros s. unfold state_after.
  destruct (initLocalMedia_cases cap s)
    as [(ls & E & ->)|[(ls & E & _ & ->)|(E & _ & ->)]]; simpl.
  - apply rtc_refl.
  - eapply rtc_l; [apply (quiet_camera_call s E)|].
    apply rtc_once, quiet_camera_on.
  - apply rtc_once, quiet_camera_call, E.
Qed.

Lemma quietly_creator (cap : Capability) (p : string)
    (onTrack : TrackCallback) (onIce : IceCallback)
    (tail : nat -> State -> Outcome unit * State) (m : M unit) :
  (forall c s2, negotiates s2 (snd (tail c s2))) ->
  (forall s, m s = match initLocalMedia cap s with
                   | (Returned ls, s1) =>
                       tail (length (conns s1))
                         (upd_pcs (<[p := length (conns s1)]>)
                            (created p ls onTrack onIce s1))
                   | (Thrown e, s1) => (Thrown e, s1)
                   end) ->
  quietly m.
Proof.
  intros Hneg Hm s. unfold state_after. rewrite Hm.
  destruct (initLocalMedia_cases cap s)
    as [(ls & E & ->)|[(ls & E & _ & ->)|(E & _ & ->)]]; simpl.
  - eapply rtc_l; [apply (quiet_create s p ls onTrack onIce)|].
    apply rtc_once, quiet_negotiate, Hneg.
  - eapply rtc_l; [apply (quiet_camera_call s E)|].
    eapply rtc_l; [apply (quiet_camera_on _ ls)|].
    eapply rtc_l; [apply (quiet_create _ p ls onTrack onIce)|].
    apply rtc_once, quiet_negotiate, Hneg.
  - apply rtc_once, quiet_camera_call, E.
Qed.

Lemma quietly_makeOffer (cap : Capability) (p : string) :
  quietly (makeOffer cap p).
Proof.
  apply (quietly_creator cap p CbSetRemote CbIceOfMakeOffer
           (offer_tail cap p));
    [apply offer_tail_negotiates | apply makeOffer_unfold].
Qed.

Lemma quietly_handleOffer (cap : Capability) (p : string) (sdp : Sdp) :
  quietly (handleOffer cap p sdp).
Proof.
  apply (quietly_creator cap p CbSetRemote CbIceOfHandleOffer
           (answer_tail cap p sdp));
    [apply answer_tail_negotiates | apply handleOffer_unfold].
Qed.

Lemma quietly_set_error (e : string) : quietly (modify (set_error e)).
Proof. intros s. apply rtc_once, quiet_error. Qed.

Lemma quietly_set_inRoom (b : bool) : quietly (modify (set_inRoom b)).
Proof. intros s. apply rtc_once, quiet_inRoom. Qed.

Lemma quietly_gets {A} (f : State -> A) : quietly (gets f).
Proof. intros s. apply rtc_refl. Qed.

Lemma quietly_hostRoom : quietly hostRoom.
Proof.
  unfold hostRoom.
  apply quietly_bind; [apply quietly_set_error|]. intros _.
  apply quietly_bind; [apply quietly_gets|]. intros room.
  apply quietly_bind; [apply quietly_gets|]. intros pw.
  apply quietly_emit.
Qed.

Lemma quietly_joinRoom : quietly joinRoom.
Proof.
  unfold joinRoom.
  apply quietly_bind; [apply quietly_set_error|]. intros _.
  apply quietly_bind; [apply quietly_gets|]. intros room.
  apply quietly_bind; [apply quietly_gets|]. intros pw.
  apply quietly_emit.
Qed.

Lemma quietly_hostRoom_ack (cap : Capability) (res : option Ack) :
  quietly (hostRoom_ack cap res).
Proof.
  unfold hostRoom_ack. destruct (not_ok res); [apply quietly_set_error|].
  apply quietly_bind; [apply quietly_initLocalMedia|]. intros _.
  apply quietly_set_inRoom.
Qed.

Lemma quietly_joinRoom_ack (cap : Capability) (res : option Ack) :
  quietly (joinRoom_ack cap res).
Proof.
  unfold joinRoom_ack. destruct (not_ok res); [apply quietly_set_error|].
  apply quietly_bind; [apply quietly_initLocalMedia|]. intros _.
  apply quietly_bind; [apply quietly_set_inRoom|]. intros _.
  apply quietly_for_of. intros p. apply quietly_makeOffer.
Qed.

(** Each handler is made of the moves above. *)
Lemma dispatch_handled (cap : Capability) (e : Event) (s : State) :
  handled cap e s (state_after (dispatch cap e) s).
Proof.
  destruct e as [p|p|p sdp|p sdp|p x| | |res|res|c ev|c ev]; simpl.
  - apply quietly_makeOffer.
  - reflexivity.
  - apply quietly_handleOffer.
  - apply rtc_once, quiet_negotiate, handleAnswer_negotiates.
  - apply rtc_once, quiet_negotiate, handleIce_negotiates.
  - apply quietly_hostRoom.
  - apply quietly_joinRoom.
  - apply quietly_hostRoom_ack.
  - apply quietly_joinRoom_ack.
  - unfold state_after, webrtc.fire_track, bind, gets. simpl.
    destruct (conns s !! c) as [[[[p []]|] ic tr lo re ca []]|] eqn:E; simpl;
      try apply rtc_refl.
    apply rtc_once. eapply quiet_track; [exact E|reflexivity|reflexivity].
  - unfold state_after, webrtc.fire_icecandidate, bind, gets. simpl.
    destruct (conns s !! c) as [[tc [[p cb]|] tr lo re ca []]|] eqn:E; simpl;
      try apply rtc_refl.
    unfold webrtc.onicecandidate. destruct (candidate ev) as [x|]; simpl.
    + destruct cb; apply rtc_once, quiet_negotiate; negotiation.
    + apply rtc_refl.
Qed.

(** An invariant of the quiet moves and of [cleanupPeer] holds along every
    run. *)
Lemma run_invariant (cap : Capability) (I : State -> Prop) :
  (forall s s', quiet s s' -> I s -> I s') ->
  (forall p s, I s -> I (state_after (cleanupPeer cap p) s)) ->
  forall es s, I s -> I (run cap es s).
Proof.
  intros Hq Hc.
  assert (Hrtc : forall s s', rtc quiet s s' -> I s -> I s').
  { induction 1; eauto. }
  induction es as [|e es IH]; intros s Hs; [exact Hs|].
  rewrite run_cons. apply IH.
  pose proof (dispatch_handled cap e s) as H.
  destruct e; simpl in H; try (eapply Hrtc; [exact H|exact Hs]).
  exact (Hc _ _ Hs).
Qed.

(** ** The camera is opened once *)

Lemma signal_is_not_camera (l : list Action) :
  Forall (fun a => is_signal a = true) l -> CallGetUserMedia ∉ l.
Proof.
  intros H Hin. rewrite Forall_forall in H. specialize (H _ Hin). discriminate H.
Qed.

Lemma camera_kept_extend (s0 s s' : State) (l : list Action) :
  camera_kept s0 s -> (is_Some (localStream s) -> is_Some (localStream s')) ->
  trace s' = trace s ++ l -> CallGetUserMedia ∉ l ->
  camera_kept s0 s'.
Proof.
  intros (H1 & l0 & H2 & H3) Hls Ht Hl. split; [auto|].
  exists (l0 ++ l). rewrite Ht, H2, app_assoc. split; [reflexivity|].
  rewrite elem_of_app. tauto.
Qed.

Lemma camera_kept_same (s0 s s' : State) :
  camera_kept s0 s -> (is_Some (localStream s) -> is_Some (localStream s')) ->
  trace s' = trace s -> camera_kept s0 s'.
Proof.
  intros Hk Hls Ht. apply (camera_kept_extend s0 s s' []); auto.
  - now rewrite app_nil_r.
  - apply not_elem_of_nil.
Qed.

Lemma camera_kept_quiet (s0 s s' : State) :
  quiet s s' -> camera_kept s0 s -> camera_kept s0 s'.
Proof.
  intros Hq Hk.
  destruct Hq as [s s' Hn|s E|s ls'|s p ls' t i|s c conn p t v _ _ _|s e|s b].
  - destruct Hn as (_&_&_&_&_&Hls&_&_&_&l&Ht&Hl).
    apply (camera_kept_extend s0 s s' l); auto using signal_is_not_camera.
    now rewrite Hls.
  - destruct Hk as [[ls Hk] _]; congruence.
  - apply (camera_kept_same s0 s); [exact Hk| |reflexivity].
    intros _. now exists ls'.
  - eapply (camera_kept_extend s0 s); [exact Hk|auto|reflexivity|].
    rewrite elem_of_cons, list_elem_of_fmap. intros [H|(x & H & _)]; discriminate H.
  - apply (camera_kept_same s0 s); auto.
  - apply (camera_kept_same s0 s); auto.
  - apply (camera_kept_same s0 s); auto.
Qed.

Lemma camera_kept_cleanup (cap : Capability) (s0 : State) (p : string)
    (s : State) :
  camera_kept s0 s -> camera_kept s0 (state_after (cleanupPeer cap p) s).
Proof.
  intros Hk. unfold state_after. destruct (table_get cap s p) as [|c|] eqn:E.
  - rewrite (cleanupPeer_none cap p s E). simpl.
    apply (camera_kept_same s0 s); auto.
  - apply table_get_Holds in E. rewrite (cleanupPeer_some cap p c s E). simpl.
    apply (camera_kept_extend s0 s _ [CallClose c]); auto.
    rewrite elem_of_cons. intros [H|H]; [discriminate H|inversion H].
  - rewrite (cleanupPeer_foreign cap p s E). exact Hk.
Qed.

(** X12.  Once a local stream is cached, the camera is not asked for again:
    whatever events follow, and however their handlers end, a stream is still
    cached and no handler has called [getUserMedia]. *)
Theorem camera_opened_once
    (cap : Capability) (s : State) (es : list Event) :
  is_Some (localStream s) ->
  is_Some (localStream (run cap es s)) /\
  exists l, trace (run cap es s) = trace s ++ l /\ CallGetUserMedia ∉ l.
Proof.
  intros Hls.
  apply (run_invariant cap (camera_kept s)).
  - intros s1 s2. apply camera_kept_quiet.
  - intros p s1. apply camera_kept_cleanup.
  - split; [exact Hls|]. exists []. split; [now rewrite app_nil_r|].
    apply not_elem_of_nil.
Qed.

Lemma camera_opened_once_witness :
  let s := run Fixture.lenient [ClickHost; HostAck (Some {| ok := true; err := None; peers := None |})]
             (init "a" "r1" "p") in
  let es := [PeerJoined "b"; WebrtcOffer "b" "offer-b"; PeerLeft "b";
             PeerJoined "c"] in
  is_Some (localStream (run Fixture.lenient es s)) /\
  exists l, trace (run Fixture.lenient es s) = trace s ++ l /\
            CallGetUserMedia ∉ l.
Proof.
  intros s es.
  apply (camera_opened_once Fixture.lenient s es). now exists Fixture.camera.
Defined.

(** ** The table stays sound *)

Lemma table_ok_injective (s : State) (p q : string) (c : nat) :
  table_ok s -> pcs s !! p = Some c -> pcs s !! q = Some c -> p = q.
Proof.
  intros H Hp Hq.
  destruct (H p c Hp) as (conn & Hc & Hpe & _).
  destruct (H q c Hq) as (conn' & Hc' & Hpe' & _). congruence.
Qed.

Lemma table_ok_same (s s' : State) :
  pcs s' = pcs s -> conns s' = conns s -> table_ok s -> table_ok s'.
Proof. unfold table_ok. intros -> ->. auto. Qed.

Lemma same_edge_peer (conn conn' : Conn) :
  same_edge conn conn' -> c_peer conn' = c_peer conn.
Proof. intros (H1 & H2 & _). unfold c_peer. now rewrite H1, H2. Qed.

Lemma table_ok_quiet (s s' : State) : quiet s s' -> table_ok s -> table_ok s'.
Proof.
  intros Hq Hk.
  destruct Hq as [s s' Hn|s E|s ls'|s p ls' t i|s c conn p t v _ _ _|s e|s b];
    try (apply (table_ok_same s); [reflexivity|reflexivity|exact Hk]).
  - destruct Hn as (_&_&_&_&_&_&Hp&_&Hc&_).
    intros p c Hpc. rewrite Hp in Hpc.
    destruct (Hk p c Hpc) as (conn & H1 & H2 & H3).
    destruct (Forall2_lookup_l _ _ _ _ _ Hc H1) as (conn' & H4 & H5).
    exists conn'. split; [exact H4|].
    rewrite (same_edge_peer _ _ H5). split; [exact H2|].
    destruct H5 as (_ & _ & _ & H6). intros Hne. rewrite H6. auto.
  - intros q c Hq. simpl in *. apply lookup_insert_Some in Hq.
    destruct Hq as [[<- <-]|[Hne Hq]].
    + eexists. split; [apply list_lookup_middle; reflexivity|].
      split; [|reflexivity]. unfold c_peer. simpl. now rewrite String.eqb_refl.
    + destruct (Hk q c Hq) as (conn & H1 & H2).
      exists conn. split; [now apply lookup_app_l_Some|exact H2].
Qed.

Lemma table_ok_cleanup (cap : Capability) (p : string) (s : State) :
  table_ok s -> table_ok (state_after (cleanupPeer cap p) s).
Proof.
  intros Hk. unfold state_after. destruct (table_get cap s p) as [|c|] eqn:E.
  - rewrite (cleanupPeer_none cap p s E). intros q c0 Hq. simpl in *.
    apply table_delete_Some in Hq. exact (Hk q c0 Hq).
  - apply table_get_Holds in E. rewrite (cleanupPeer_some cap p c s E).
    intros q c0 Hq. simpl in *.
    assert (Hq0 : pcs s !! q = Some c0) by exact (table_delete_Some _ _ _ _ Hq).
    destruct (Hk q c0 Hq0) as (conn & H1 & H2 & H3).
    destruct (decide (c0 = c)) as [->|Hne].
    + pose proof (table_ok_injective s p q c Hk E Hq0) as <-.
      exists (closed conn). split; [|split; [exact H2|]].
      * rewrite list_lookup_alter_eq, H1. reflexivity.
      * intros Hproto. rewrite (table_delete_plain _ _ Hproto) in Hq.
        rewrite lookup_delete_eq in Hq. discriminate Hq.
    + exists conn. split; [|split; assumption].
      rewrite list_lookup_alter_ne; [exact H1|congruence].
  - rewrite (cleanupPeer_foreign cap p s E). exact Hk.
Qed.

(** X13.  In every state the client reaches from its initial state, whatever
    the events and whatever the browser answers, each entry of the table
    refers to a connection that exists and whose handlers are bound to that
    very peer, and no connection is the entry of two peers.  The connection
    is open, except for the one entry that [delete] cannot remove, the one
    stored under the key [__proto__]. *)
Theorem table_stays_sound
    (cap : Capability) (es : list Event) (sid room pw : string) :
  let s := run cap es (init sid room pw) in
  (forall p c, pcs s !! p = Some c ->
     exists conn, conns s !! c = Some conn /\
                  c_peer conn = Some p /\
                  (p <> "__proto__" -> c_closed conn = false)) /\
  (forall p q c, pcs s !! p = Some c -> pcs s !! q = Some c -> p = q).
Proof.
  assert (H : table_ok (run cap es (init sid room pw))).
  { apply (run_invariant cap table_ok).
    - apply table_ok_quiet.
    - apply table_ok_cleanup.
    - intros p c Hp. simpl in Hp. rewrite lookup_empty in Hp. discriminate. }
  split; [exact H|]. intros p q c. now apply table_ok_injective.
Qed.

Lemma table_stays_sound_witness :
  let s := run Fixture.strict
             [PeerJoined "b"; WebrtcOffer "b" "offer-b"; PeerJoined "c";
              PeerLeft "b"] (init "a" "r1" "p") in
  exists conn, conns s !! 2 = Some conn /\
               c_peer conn = Some "c" /\
               (("c" : string) <> "__proto__" -> c_closed conn = false).
Proof.
  intros s.
  destruct (table_stays_sound Fixture.strict
              [PeerJoined "b"; WebrtcOffer "b" "offer-b"; PeerJoined "c";
               PeerLeft "b"] "a" "r1" "p") as [H _].
  apply (H "c" 2). reflexivity.
Defined.

(** ** What closes a connection *)

Lemma quiet_keeps_edges (s s' : State) :
  rtc quiet s s' ->
  forall c conn, conns s !! c = Some conn ->
    exists conn', conns s' !! c = Some conn' /\ same_edge conn conn'.
Proof.
  induction 1 as [s|s s1 s2 Hq _ IH]; intros c conn Hc.
  - exists conn. split; [exact Hc|apply same_edge_refl].
  - assert (H1 : exists conn1, conns s1 !! c = Some conn1 /\ same_edge conn conn1).
    { destruct Hq as [s s' Hn|s E|s ls'|s p ls' t i|s c0 conn0 p t v _ _ _|s e|s b];
        try (exists conn; split; [exact Hc|apply same_edge_refl]).
      - destruct Hn as (_&_&_&_&_&_&_&_&Hf&_).
        apply (Forall2_lookup_l _ _ _ _ _ Hf Hc).
      - exists conn. split; [|apply same_edge_refl]. simpl.
        now apply lookup_app_l_Some. }
    destruct H1 as (conn1 & Hc1 & He1).
    destruct (IH c conn1 Hc1) as (conn2 & Hc2 & He2).
    exists conn2. split; [exact Hc2|]. eapply same_edge_trans; eassumption.
Qed.

(** X14.  Only [peer-left] closes a connection, and only the one the table
    holds for the peer that left.  Every other event, and [peer-left] for any
    other connection, leaves each existing connection in the heap with the
    same bound peer, the same tracks and the same open-or-closed status; in
    particular no handler closes a connection because a call on it was
    rejected. *)
Theorem only_peer_left_closes
    (cap : Capability) (e : Event) (s : State) (c : nat) (conn : Conn) :
  conns s !! c = Some conn ->
  (forall p, e = PeerLeft p -> pcs s !! p <> Some c) ->
  exists conn',
    conns (state_after (dispatch cap e) s) !! c = Some conn' /\
    c_peer conn' = c_peer conn /\
    c_tracks conn' = c_tracks conn /\
    c_closed conn' = c_closed conn.
Proof.
  intros Hc Hleft. pose proof (dispatch_handled cap e s) as H.
  assert (Hquiet : rtc quiet s (state_after (dispatch cap e) s) ->
    exists conn',
      conns (state_after (dispatch cap e) s) !! c = Some conn' /\
      c_peer conn' = c_peer conn /\
      c_tracks conn' = c_tracks conn /\
      c_closed conn' = c_closed conn).
  { intros Hr. destruct (quiet_keeps_edges _ _ Hr c conn Hc) as (conn' & H1 & H2).
    exists conn'. split; [exact H1|]. split; [now apply same_edge_peer|].
    now destruct H2 as (_ & _ & H3 & H4). }
  destruct e as [p|p|p sdp|p sdp|p x| | |res|res|c0 ev|c0 ev];
    try exact (Hquiet H).
  exists conn. split; [|repeat split]. simpl.
  unfold state_after. destruct (table_get cap s p) as [|c1|] eqn:E.
  - rewrite (cleanupPeer_none cap p s E). exact Hc.
  - apply table_get_Holds in E. rewrite (cleanupPeer_some cap p c1 s E). simpl.
    rewrite list_lookup_alter_ne; [exact Hc|].
    intros ->. exact (Hleft p eq_refl E).
  - rewrite (cleanupPeer_foreign cap p s E). exact Hc.
Qed.

Lemma only_peer_left_closes_witness :
  let s := run Fixture.lenient [PeerJoined "b"; PeerJoined "c"]
             (init "a" "r1" "p") in
  exists conn',
    conns (state_after (dispatch Fixture.lenient (PeerLeft "b")) s) !! 1
    = Some conn' /\
    c_peer conn' = Some "c" /\
    c_tracks conn' = ["audio"; "video"] /\
    c_closed conn' = false.
Proof.
  intros s.
  apply (only_peer_left_closes Fixture.lenient (PeerLeft "b") s 1
           {| c_ontrack := Some ("c", CbSetRemote);
              c_onicecandidate := Some ("c", CbIceOfMakeOffer);
              c_tracks := ["audio"; "video"];
              c_local := Some "offer"; c_remote := None; c_cands := [];
              c_closed := false |}).
  - reflexivity.
  - intros p [= <-]. discriminate.
Defined.

(** ** A connection nobody refers to *)

Lemma stray_quiet (c : nat) (s s' : State) : quiet s s' -> stray c s -> stray c s'.
Proof.
  intros Hq [(conn & Hc & Hopen) Hfree].
  destruct (quiet_keeps_edges s s' (rtc_once _ _ Hq) c conn Hc)
    as (conn' & Hc' & _ & _ & _ & Hcl).
  split; [exists conn'; split; [exact Hc'|congruence]|].
  destruct Hq as [s s' Hn|s E|s ls'|s p ls' t i|s c0 conn0 p t v _ _ _|s e|s b];
    try exact Hfree.
  - destruct Hn as (_&_&_&_&_&_&Hp&_). intros p. rewrite Hp. apply Hfree.
  - intros q Hq. simpl in Hq. apply lookup_insert_Some in Hq.
    destruct Hq as [[_ Hlen]|[_ Hq]]; [|exact (Hfree q Hq)].
    apply lookup_lt_Some in Hc. lia.
Qed.

Lemma stray_cleanup (cap : Capability) (c : nat) (p : string) (s : State) :
  stray c s -> stray c (state_after (cleanupPeer cap p) s).
Proof.
  intros [(conn & Hc & Hopen) Hfree]. unfold state_after.
  destruct (table_get cap s p) as [|c1|] eqn:E.
  - rewrite (cleanupPeer_none cap p s E). unfold stray. simpl. split.
    + exists conn. split; assumption.
    + intros q Hq. apply table_delete_Some in Hq. exact (Hfree q Hq).
  - apply table_get_Holds in E. rewrite (cleanupPeer_some cap p c1 s E).
    unfold stray. simpl. split.
    + exists conn. split; [|exact Hopen].
      rewrite list_lookup_alter_ne; [exact Hc|]. intros ->. exact (Hfree p E).
    + intros q Hq. apply table_delete_Some in Hq. exact (Hfree q Hq).
  - rewrite (cleanupPeer_foreign cap p s E). split; [|exact Hfree].
    exists conn. split; assumption.
Qed.

(** X15.  An open connection that no entry of the table refers to stays that
    way for ever: whatever events follow and whatever the browser answers, no
    handler closes it and no handler puts it back into the table. *)
Theorem unreferenced_connection_stays_open
    (cap : Capability) (c : nat) (s : State) (es : list Event) :
  stray c s -> stray c (run cap es s).
Proof.
  intros H. apply (run_invariant cap (stray c)).
  - apply stray_quiet.
  - intros p s1. apply stray_cleanup.
  - exact H.
Qed.

Lemma unreferenced_connection_stays_open_witness :
  let s := run Fixture.lenient [PeerJoined "b"; WebrtcOffer "b" "offer-b"]
             (init "a" "r1" "p") in
  stray 0 (run Fixture.lenient
             [WebrtcAnswer "b" "answer-b"; WebrtcIce "b" "cand"; PeerLeft "b";
              PeerJoined "b"; PeerLeft "b"] s).
Proof.
  intros s.
  apply (unreferenced_connection_stays_open Fixture.lenient 0 s).
  split.
  - eexists. split; reflexivity.
  - intros p Hp. destruct (decide (p = "b")) as [->|Hne].
    + discriminate Hp.
    + unfold s in Hp. vm_compute in Hp.
      change (<[("b":string) := 1]> (<[("b":string) := 0]> (∅ : gmap string nat)) !! p = Some 0) in Hp.
      rewrite !lookup_insert_ne, lookup_empty in Hp by congruence. discriminate.
Defined.

(** ** Acknowledgements *)

(** X17.  A refused or missing acknowledgement of [host-room] or [join-room]
    only reports: the callback returns, the error shown is never empty (it is
    the server's message when that is a non-empty string, the fallback
    otherwise), the room is not entered, the camera is not asked for, and no
    connection, table entry or action is added. *)
Theorem refused_ack_only_reports
    (cap : Capability) (res : option Ack) (s : State) :
  not_ok res = true ->
  forall m, m = hostRoom_ack cap res \/ m = joinRoom_ack cap res ->
    let s' := state_after m s in
    outcome_of m s = Returned tt /\
    error s' <> EmptyString /\
    (forall r e, res = Some r -> err r = Some e -> e <> EmptyString ->
                 error s' = e) /\
    inRoom s' = inRoom s /\ localStream s' = localStream s /\
    pcs s' = pcs s /\ conns s' = conns s /\ trace s' = trace s.
Proof.
  intros Hno m [-> | ->]; unfold outcome_of, state_after, hostRoom_ack, joinRoom_ack;
    rewrite Hno; simpl; (split; [reflexivity|]); (split; [|split; [|repeat split]]).
  - unfold error_or. destruct res as [[o [e|] pl]|]; try discriminate.
    destruct (String.eqb e EmptyString) eqn:E; [discriminate|].
    intros ->. discriminate E.
  - intros r e -> He Hne. unfold error_or. destruct r as [o e' pl].
    simpl in He. subst e'. destruct (String.eqb_spec e EmptyString); congruence.
  - unfold error_or. destruct res as [[o [e|] pl]|]; try discriminate.
    destruct (String.eqb e EmptyString) eqn:E; [discriminate|].
    intros ->. discriminate E.
  - intros r e -> He Hne. unfold error_or. destruct r as [o e' pl].
    simpl in He. subst e'. destruct (String.eqb_spec e EmptyString); congruence.
Qed.

Lemma refused_ack_only_reports_witness :
  let full := Some {| ok := false; err := Some "Room full"; peers := None |} in
  let s := init "e" "r1" "p" in
  error (state_after (joinRoom_ack Fixture.lenient full) s) = "Room full" /\
  error (state_after (joinRoom_ack Fixture.lenient None) s) <> EmptyString.
Proof.
  intros full s. split.
  - destruct (refused_ack_only_reports Fixture.lenient full s eq_refl
                (joinRoom_ack Fixture.lenient full) (or_intror eq_refl))
      as (_ & _ & H & _).
    apply (H {| ok := false; err := Some "Room full"; peers := None |} "Room full");
      [reflexivity | reflexivity | discriminate].
  - destruct (refused_ack_only_reports Fixture.lenient None s eq_refl
                (joinRoom_ack Fixture.lenient None) (or_intror eq_refl))
      as (_ & H & _).
    exact H.
Defined.

(** X18.  Hosting never negotiates: the callback of an accepted [host-room]
    builds no connection, writes no table entry and emits nothing.  It enters
    the room exactly when the camera is available, and otherwise rejects with
    the camera's refusal and leaves the room flag as it was. *)
Theorem host_ack_never_negotiates
    (cap : Capability) (res : option Ack) (s : State) :
  not_ok res = false ->
  let s' := state_after (hostRoom_ack cap res) s in
  pcs s' = pcs s /\ conns s' = conns s /\
  emits (actions (hostRoom_ack cap res) s) = [] /\
  (outcome_of (hostRoom_ack cap res) s = Returned tt ->
   inRoom s' = true /\ is_Some (localStream s')) /\
  (forall e, outcome_of (hostRoom_ack cap res) s = Thrown e ->
   e = MediaRejected /\ inRoom s' = inRoom s /\ localStream s' = None).
Proof.
  intros Hok. unfold actions, outcome_of, state_after, hostRoom_ack.
  rewrite Hok. unfold bind.
  destruct (initLocalMedia_cases cap s)
    as [(ls & E & ->)|[(ls & E & _ & ->)|(E & _ & ->)]]; simpl;
    rewrite ?drop_own_length, ?drop_all; repeat split; eauto; try discriminate.
  congruence.
Qed.

Lemma host_ack_never_negotiates_witness :
  let res := Some {| ok := true; err := None; peers := None |} in
  let s := init "a" "r1" "p" in
  let s' := state_after (hostRoom_ack Fixture.lenient res) s in
  pcs s' = pcs s /\ conns s' = conns s /\
  emits (actions (hostRoom_ack Fixture.lenient res) s) = [] /\
  inRoom s' = true.
Proof.
  intros res s.
  destruct (host_ack_never_negotiates Fixture.lenient res s eq_refl)
    as (H1 & H2 & H3 & H4 & _).
  split; [exact H1|]. split; [exact H2|]. split; [exact H3|].
  apply H4. reflexivity.
Defined.

(** * The handlers under any schedule *)

(** ** Resumed at once, a handler is the uninterrupted one *)

Lemma bind_ext {A B} (m m' : M A) (k k' : A -> M B) :
  (forall s, m s = m' s) -> (forall a s, k a s = k' a s) ->
  forall s, bind m k s = bind m' k' s.
Proof.
  intros Hm Hk s. unfold bind. rewrite Hm.
  destruct (m' s) as [[a|e] s1]; [apply Hk|reflexivity].
Qed.

Lemma try_catch_ext {A} (m m' : M A) (h h' : Exn -> M A) :
  (forall s, m s = m' s) -> (forall e s, h e s = h' e s) ->
  forall s, try_catch m h s = try_catch m' h' s.
Proof.
  intros Hm Hh s. unfold try_catch. rewrite Hm.
  destruct (m' s) as [[a|e] s1]; [reflexivity|apply Hh].
Qed.

Lemma finish_then {A B} (t : Async.Activation A) (f : A -> Async.MA B) :
  forall s,
    (let (t', s') := Async.then_ t f s in Async.finish t' s')
    = match Async.finish t s with
      | (Returned a, s1) => Async.uninterrupted (f a) s1
      | (Thrown e, s1) => (Thrown e, s1)
      end.
Proof.
  induction t as [[a|e]|k IH] using Async.Activation_induction; intros s; simpl;
    try reflexivity.
  specialize (IH s). destruct (k s) as [t2 s3]. exact (IH s3).
Qed.

Lemma uninterrupted_bind {A B} (m : Async.MA A) (f : A -> Async.MA B) (s : State) :
  Async.uninterrupted (Async.bindA m f) s
  = bind (Async.uninterrupted m) (fun a => Async.uninterrupted (f a)) s.
Proof.
  unfold Async.uninterrupted at 1 2, Async.bindA, bind.
  destruct (m s) as [t s1]. apply finish_then.
Qed.

Lemma uninterrupted_sync {A} (m : M A) (s : State) :
  Async.uninterrupted (Async.sync m) s = m s.
Proof.
  unfold Async.uninterrupted, Async.sync. now destruct (m s).
Qed.

Lemma finish_settle {A} (t : Async.Activation A) :
  forall s, Async.finish (Async.settle t) s = Async.finish t s.
Proof.
  induction t as [o|k IH] using Async.Activation_induction; intros s; simpl;
    [reflexivity|].
  specialize (IH s). destruct (k s) as [t2 s2]. exact (IH s2).
Qed.

Lemma uninterrupted_await {A} (m : Async.MA A) (s : State) :
  Async.uninterrupted (Async.await m) s = Async.uninterrupted m s.
Proof.
  unfold Async.uninterrupted, Async.await. destruct (m s) as [t s1].
  apply finish_settle.
Qed.

Lemma finish_caught {A} (t : Async.Activation A) (h : Exn -> Async.MA A) :
  forall s,
    (let (t', s') := Async.caught t h s in Async.finish t' s')
    = match Async.finish t s with
      | (Returned a, s1) => (Returned a, s1)
      | (Thrown e, s1) => Async.uninterrupted (h e) s1
      end.
Proof.
  induction t as [[a|e]|k IH] using Async.Activation_induction; intros s; simpl;
    try reflexivity.
  specialize (IH s). destruct (k s) as [t2 s3]. exact (IH s3).
Qed.

Lemma uninterrupted_try_catch {A} (m : Async.MA A) (h : Exn -> Async.MA A)
    (s : State) :
  Async.uninterrupted (Async.try_catchA m h) s
  = try_catch (Async.uninterrupted m) (fun e => Async.uninterrupted (h e)) s.
Proof.
  unfold Async.uninterrupted at 1 2, Async.try_catchA, try_catch.
  destruct (m s) as [t s1]. apply finish_caught.
Qed.

Lemma uninterrupted_for_of {A} (body : A -> Async.MA unit) (body' : A -> M unit)
    (l : list A) :
  (forall x s, Async.uninterrupted (body x) s = body' x s) ->
  forall s, Async.uninterrupted (Async.for_ofA l body) s = for_of l body' s.
Proof.
  intros Hb. induction l as [|x l IH]; intros s; [reflexivity|].
  simpl. rewrite uninterrupted_bind. apply bind_ext.
  - intros s1. rewrite uninterrupted_await. apply Hb.
  - intros _. exact IH.
Qed.

Lemma bind_modify {B} (f : State -> State) (k : unit -> M B) (s : State) :
  bind (modify f) k s = k tt (f s).
Proof. reflexivity. Qed.

(** One step of the comparison of a body with its uninterrupted form. *)
Ltac resumed_at_once :=
  repeat first
    [ reflexivity
    | rewrite uninterrupted_sync
    | rewrite uninterrupted_await
    | rewrite uninterrupted_bind; apply bind_ext; intros
    | rewrite uninterrupted_try_catch; apply try_catch_ext; intros ].

Lemma uninterrupted_initLocalMedia (cap : Capability) (s : State) :
  Async.uninterrupted (Async.initLocalMedia cap) s = initLocalMedia cap s.
Proof.
  unfold Async.initLocalMedia, initLocalMedia.
  rewrite uninterrupted_bind. apply bind_ext;
    [intros; apply uninterrupted_sync|].
  intros [ls|] s1; resumed_at_once.
Qed.

Lemma uninterrupted_makeOffer (cap : Capability) (p : string) (s : State) :
  Async.uninterrupted (Async.makeOffer cap p) s = makeOffer cap p s.
Proof.
  unfold Async.makeOffer, makeOffer.
  rewrite uninterrupted_bind. apply bind_ext.
  { intros s1. rewrite uninterrupted_await. apply uninterrupted_initLocalMedia. }
  intros ls s1. rewrite uninterrupted_bind.
  unfold bind at 1 2 3. rewrite uninterrupted_sync.
  unfold bind at 1 2. rewrite createPeerConnection_closed. simpl.
  rewrite bind_modify. resumed_at_once.
Qed.

Lemma uninterrupted_handleOffer (cap : Capability) (p : string) (sdp : Sdp)
    (s : State) :
  Async.uninterrupted (Async.handleOffer cap p sdp) s = handleOffer cap p sdp s.
Proof.
  unfold Async.handleOffer, handleOffer.
  rewrite uninterrupted_bind. apply bind_ext.
  { intros s1. rewrite uninterrupted_await. apply uninterrupted_initLocalMedia. }
  intros ls s1. rewrite uninterrupted_bind.
  unfold bind at 1 2 3. rewrite uninterrupted_sync.
  unfold bind at 1 2. rewrite createPeerConnection_closed. simpl.
  rewrite bind_modify. resumed_at_once.
Qed.

Lemma uninterrupted_dispatch (cap : Capability) (e : Event) (s : State) :
  Async.uninterrupted (Async.dispatch cap e) s = dispatch cap e s.
Proof.
  destruct e as [p|p|p sdp|p sdp|p x| | |res|res|c ev|c ev]; simpl;
    try apply uninterrupted_sync.
  - rewrite uninterrupted_await. apply uninterrupted_makeOffer.
  - apply uninterrupted_handleOffer.
  - unfold Async.handleAnswer, handleAnswer.
    rewrite uninterrupted_bind. apply bind_ext;
      [intros; apply uninterrupted_sync|].
    intros [|c|] s1; resumed_at_once.
  - unfold Async.handleIce, handleIce.
    rewrite uninterrupted_bind. apply bind_ext;
      [intros; apply uninterrupted_sync|].
    intros [|c|] s1; resumed_at_once.
  - unfold Async.hostRoom_ack, hostRoom_ack. destruct (not_ok res);
      [apply uninterrupted_sync|].
    rewrite uninterrupted_bind. apply bind_ext.
    + intros s1. rewrite uninterrupted_await. apply uninterrupted_initLocalMedia.
    + intros _ s1. apply uninterrupted_sync.
  - unfold Async.joinRoom_ack, joinRoom_ack. destruct (not_ok res);
      [apply uninterrupted_sync|].
    rewrite uninterrupted_bind. apply bind_ext.
    + intros s1. rewrite uninterrupted_await. apply uninterrupted_initLocalMedia.
    + intros _ s1. rewrite uninterrupted_bind. apply bind_ext;
        [intros; apply uninterrupted_sync|].
      intros _. apply uninterrupted_for_of. apply uninterrupted_makeOffer.
Qed.

(** ** The schedule that lets each handler finish *)

Lemma sched_app (cap : Capability) (chs1 chs2 : list Async.Choice)
    (w : Async.World) :
  Async.sched cap (chs1 ++ chs2) w = Async.sched cap chs2 (Async.sched cap chs1 w).
Proof. unfold Async.sched. apply fold_left_app. Qed.

Lemma resumed_to_the_end (cap : Capability) (t : Async.Activation unit) :
  forall s,
    Async.sched cap (repeat (Async.Resume 0) (Async.resumptions t s))
      (Async.park (t, s) [])
    = Async.start (snd (Async.finish t s)).
Proof.
  induction t as [o|k IH] using Async.Activation_induction; intros s.
  - reflexivity.
  - simpl. specialize (IH s). destruct (k s) as [t2 s2] eqn:E. simpl.
    rewrite E. exact (IH s2).
Qed.

Lemma alone_is_dispatch (cap : Capability) (e : Event) (s : State) :
  Async.sched cap (Async.alone cap e s) (Async.start s)
  = Async.start (state_after (dispatch cap e) s).
Proof.
  unfold Async.alone, state_after. rewrite <- uninterrupted_dispatch.
  unfold Async.uninterrupted. simpl.
  destruct (Async.dispatch cap e s) as [t s1]. apply resumed_to_the_end.
Qed.

(** X21.  Cutting the handlers at their [await]s changes nothing when
    nothing runs in between.  A handler that is resumed, each time, before
    anything else happens ends with the outcome and in the state of the
    uninterrupted handler of [App]; and the schedule that delivers the events
    one by one and lets each handler finish before the next delivery leads
    to the state [App.run] computes, with no handler left suspended. *)
Theorem serial_schedule_is_run (cap : Capability) (es : list Event) (s : State) :
  (forall e s0,
     Async.uninterrupted (Async.dispatch cap e) s0 = dispatch cap e s0) /\
  Async.sched cap (Async.serial cap es s) (Async.start s)
  = Async.start (run cap es s).
Proof.
  split; [apply uninterrupted_dispatch|].
  revert s. induction es as [|e es IH]; intros s; [reflexivity|].
  cbn [Async.serial]. rewrite sched_app, alone_is_dispatch, uninterrupted_dispatch.
  apply IH.
Qed.

(** ** Every stretch is made of quiet moves *)

Lemma calm_retA {A} (a : A) : calm_stretch (Async.retA a).
Proof. intros s. split; [apply rtc_refl|exact I]. Qed.

Lemma calm_sync {A} (m : M A) : quietly m -> calm_stretch (Async.sync m).
Proof.
  intros Hm s. specialize (Hm s). unfold Async.sync, state_after in *.
  destruct (m s) as [o s1]. split; [exact Hm|exact I].
Qed.

Lemma calm_then {A B} (t : Async.Activation A) (f : A -> Async.MA B) :
  calm_from t -> (forall a, calm_stretch (f a)) ->
  calm_stretch (Async.then_ t f).
Proof.
  intros Ht Hf. induction t as [[a|e]|k IH] using Async.Activation_induction;
    intros s; simpl.
  - apply Hf.
  - split; [apply rtc_refl|exact I].
  - split; [apply rtc_refl|]. intros s2. simpl in Ht.
    destruct (Ht s2) as [H1 H2]. specialize (IH s2).
    destruct (k s2) as [t2 s3]. simpl in *.
    destruct (IH H2 s3) as [H3 H4]. split; [|exact H4].
    etransitivity; eassumption.
Qed.

Lemma calm_bind {A B} (m : Async.MA A) (f : A -> Async.MA B) :
  calm_stretch m -> (forall a, calm_stretch (f a)) ->
  calm_stretch (Async.bindA m f).
Proof.
  intros Hm Hf s. unfold Async.bindA. destruct (Hm s) as [H1 H2].
  destruct (m s) as [t s1]. simpl in *.
  destruct (calm_then t f H2 Hf s1) as [H3 H4]. split; [|exact H4].
  etransitivity; eassumption.
Qed.

Lemma calm_settle {A} (t : Async.Activation A) :
  calm_from t -> calm_from (Async.settle t).
Proof.
  induction t as [o|k IH] using Async.Activation_induction; intros Ht; simpl.
  - intros s. split; [apply rtc_refl|exact I].
  - intros s. destruct (Ht s) as [H1 H2]. specialize (IH s).
    destruct (k s) as [t2 s2]. simpl in *. split; [exact H1|now apply IH].
Qed.

Lemma calm_await {A} (m : Async.MA A) :
  calm_stretch m -> calm_stretch (Async.await m).
Proof.
  intros Hm s. unfold Async.await. destruct (Hm s) as [H1 H2].
  destruct (m s) as [t s1]. simpl in *. split; [exact H1|now apply calm_settle].
Qed.

Lemma calm_caught {A} (t : Async.Activation A) (h : Exn -> Async.MA A) :
  calm_from t -> (forall e, calm_stretch (h e)) ->
  calm_stretch (Async.caught t h).
Proof.
  intros Ht Hh. induction t as [[a|e]|k IH] using Async.Activation_induction;
    intros s; simpl.
  - split; [apply rtc_refl|exact I].
  - apply Hh.
  - split; [apply rtc_refl|]. intros s2. simpl in Ht.
    destruct (Ht s2) as [H1 H2]. specialize (IH s2).
    destruct (k s2) as [t2 s3]. simpl in *.
    destruct (IH H2 s3) as [H3 H4]. split; [|exact H4].
    etransitivity; eassumption.
Qed.

Lemma calm_try_catch {A} (m : Async.MA A) (h : Exn -> Async.MA A) :
  calm_stretch m -> (forall e, calm_stretch (h e)) ->
  calm_stretch (Async.try_catchA m h).
Proof.
  intros Hm Hh s. unfold Async.try_catchA. destruct (Hm s) as [H1 H2].
  destruct (m s) as [t s1]. simpl in *.
  destruct (calm_caught t h H2 Hh s1) as [H3 H4]. split; [|exact H4].
  etransitivity; eassumption.
Qed.

Lemma calm_for_of {A} (l : list A) (body : A -> Async.MA unit) :
  (forall x, calm_stretch (body x)) -> calm_stretch (Async.for_ofA l body).
Proof.
  intros Hb. induction l as [|x l IH]; simpl.
  - apply calm_retA.
  - apply calm_bind; [apply calm_await, Hb | intros _; exact IH].
Qed.

Lemma quietly_call (cap : Capability) (c : nat) (d : Sdp) (x : Candidate) :
  quietly (createOffer cap c) /\ quietly (createAnswer cap c) /\
  quietly (setLocalDescription cap c d) /\
  quietly (setRemoteDescription cap c d) /\
  quietly (addIceCandidate cap c x).
Proof.
  repeat split; intros s; apply rtc_once, quiet_negotiate; unfold state_after.
  - unfold createOffer. destruct (cap_createOffer cap s c); negotiation.
  - unfold createAnswer. destruct (cap_createAnswer cap s c); negotiation.
  - unfold setLocalDescription.
    destruct (cap_setLocalDescription cap s c d); negotiation.
  - unfold setRemoteDescription.
    destruct (cap_setRemoteDescription cap s c d); negotiation.
  - unfold addIceCandidate.
    destruct (cap_addIceCandidate cap s c x); negotiation.
Qed.

Lemma calm_initLocalMedia (cap : Capability) :
  calm_stretch (Async.initLocalMedia cap).
Proof.
  intros s. unfold Async.initLocalMedia, Async.bindA, Async.sync, gets. simpl.
  destruct (localStream s) as [ls|] eqn:E; simpl.
  - split; [apply rtc_refl|exact I].
  - unfold Async.await, Async.sync, getUserMedia.
    destruct (cap_getUserMedia cap s) as [ls|]; simpl.
    + split; [apply rtc_once, quiet_camera_call, E|].
      intros s2. simpl. split; [apply rtc_once, quiet_camera_on|exact I].
    + split; [apply rtc_once, quiet_camera_call, E|].
      intros s2. simpl. split; [apply rtc_refl|exact I].
Qed.

Lemma quietly_create_and_store (p : string) (ls : MediaStream)
    (onTrack : TrackCallback) (onIce : IceCallback) :
  quietly (bind (webrtc.createPeerConnection p ls onTrack onIce)
             (fun pc => bind (modify (upd_pcs (<[p := pc]>)))
                          (fun _ => ret pc))).
Proof.
  intros s. unfold state_after, bind. rewrite createPeerConnection_closed.
  simpl. apply rtc_once, quiet_create.
Qed.

Lemma calm_makeOffer (cap : Capability) (p : string) :
  calm_stretch (Async.makeOffer cap p).
Proof.
  unfold Async.makeOffer.
  apply calm_bind; [apply calm_await, calm_initLocalMedia|]. intros ls.
  apply calm_bind; [apply calm_sync, quietly_create_and_store|]. intros pc.
  apply calm_bind;
    [apply calm_await, calm_sync, (quietly_call cap pc EmptyString EmptyString)|].
  intros offer.
  apply calm_bind;
    [apply calm_await, calm_sync, (quietly_call cap pc offer EmptyString)|].
  intros _. apply calm_sync.
  apply quietly_bind; [apply quietly_gets|]. intros me. apply quietly_emit.
Qed.

Lemma calm_handleOffer (cap : Capability) (p : string) (sdp : Sdp) :
  calm_stretch (Async.handleOffer cap p sdp).
Proof.
  unfold Async.handleOffer.
  apply calm_bind; [apply calm_await, calm_initLocalMedia|]. intros ls.
  apply calm_bind; [apply calm_sync, quietly_create_and_store|]. intros pc.
  apply calm_bind;
    [apply calm_await, calm_sync, (quietly_call cap pc sdp EmptyString)|].
  intros _.
  apply calm_bind;
    [apply calm_await, calm_sync, (quietly_call cap pc sdp EmptyString)|].
  intros answer.
  apply calm_bind;
    [apply calm_await, calm_sync, (quietly_call cap pc answer EmptyString)|].
  intros _. apply calm_sync.
  apply quietly_bind; [apply quietly_gets|]. intros me. apply quietly_emit.
Qed.

Lemma quietly_throw {A} (e : Exn) : quietly (@throw A e).
Proof. intros s. apply rtc_refl. Qed.

(** The handler of every event but [peer-left] only makes quiet moves. *)
Lemma calm_dispatch (cap : Capability) (e : Event) :
  (forall p, e <> PeerLeft p) -> calm_stretch (Async.dispatch cap e).
Proof.
  intros Hleft.
  destruct e as [p|p|p sdp|p sdp|p x| | |res|res|c ev|c ev]; simpl.
  - apply calm_await, calm_makeOffer.
  - destruct (Hleft p eq_refl).
  - apply calm_handleOffer.
  - unfold Async.handleAnswer.
    apply calm_bind; [apply calm_sync, quietly_gets|].
    intros [|c|].
    + apply calm_retA.
    + apply calm_await, calm_sync, (quietly_call cap c sdp EmptyString).
    + apply calm_sync, quietly_throw.
  - unfold Async.handleIce.
    apply calm_bind; [apply calm_sync, quietly_gets|].
    intros [|c|].
    + apply calm_retA.
    + apply calm_try_catch; [|intros _; apply calm_retA].
      apply calm_await, calm_sync, (quietly_call cap c EmptyString x).
    + apply calm_try_catch; [|intros _; apply calm_retA].
      apply calm_sync, quietly_throw.
  - apply calm_sync, quietly_hostRoom.
  - apply calm_sync, quietly_joinRoom.
  - unfold Async.hostRoom_ack. destruct (not_ok res);
      [apply calm_sync, quietly_set_error|].
    apply calm_bind; [apply calm_await, calm_initLocalMedia|]. intros _.
    apply calm_sync, quietly_set_inRoom.
  - unfold Async.joinRoom_ack. destruct (not_ok res);
      [apply calm_sync, quietly_set_error|].
    apply calm_bind; [apply calm_await, calm_initLocalMedia|]. intros _.
    apply calm_bind; [apply calm_sync, quietly_set_inRoom|]. intros _.
    apply calm_for_of. intros p. apply calm_makeOffer.
  - apply calm_sync. intros s. exact (dispatch_handled cap (PcTrack c ev) s).
  - apply calm_sync. intros s.
    exact (dispatch_handled cap (PcIceCandidate c ev) s).
Qed.

(** ** Invariants of every schedule *)

Lemma park_steady (I : State -> Prop) (r : Async.Activation unit * State)
    (others : list (State -> Async.Activation unit * State)) :
  I (snd r) -> calm_from (fst r) -> Forall calm_stretch others ->
  steady I (Async.park r others).
Proof.
  intros HI Hr Ho. unfold Async.park. destruct r as [[o|k] s1]; simpl in *.
  - split; assumption.
  - split; [exact HI|]. apply Forall_app. split; [exact Ho|].
    constructor; [exact Hr|constructor].
Qed.

Lemma quiet_moves_keep (I : State -> Prop) :
  (forall s s', quiet s s' -> I s -> I s') ->
  forall s s', rtc quiet s s' -> I s -> I s'.
Proof. intros Hq s s' H. induction H; eauto. Qed.

Lemma step_steady (cap : Capability) (I : State -> Prop) (w : Async.World)
    (ch : Async.Choice) :
  (forall s s', quiet s s' -> I s -> I s') ->
  (forall p s, ch = Async.Deliver (PeerLeft p) ->
               I s -> I (state_after (cleanupPeer cap p) s)) ->
  steady I w -> steady I (Async.step cap w ch).
Proof.
  intros Hq Hc [HI Hw]. destruct ch as [e|i]; simpl.
  - assert (Hcase : (exists p, e = PeerLeft p) \/ (forall p, e <> PeerLeft p)).
    { destruct e; try (right; discriminate). left. eauto. }
    destruct Hcase as [[p ->]|Hne].
    + simpl. unfold Async.sync.
      pose proof (Hc p (Async.now w) eq_refl HI) as H.
      unfold state_after in H.
      destruct (cleanupPeer cap p (Async.now w)) as [o s1].
      apply park_steady; simpl; auto.
    + assert (Hcalm : calm_stretch (Async.dispatch cap e)).
      { now apply calm_dispatch. }
      destruct (Hcalm (Async.now w)) as [H1 H2].
      apply park_steady; [|exact H2|exact Hw].
      exact (quiet_moves_keep I Hq _ _ H1 HI).
  - destruct (Async.waiting w !! i) as [k|] eqn:E; [|split; assumption].
    pose proof (Forall_lookup_1 _ _ _ _ Hw E) as Hk.
    destruct (Hk (Async.now w)) as [H1 H2].
    apply park_steady; [|exact H2|now apply Forall_delete].
    exact (quiet_moves_keep I Hq _ _ H1 HI).
Qed.

Lemma sched_steady (cap : Capability) (I : State -> Prop)
    (chs : list Async.Choice) :
  (forall s s', quiet s s' -> I s -> I s') ->
  (forall p s, Async.Deliver (PeerLeft p) ∈ chs ->
               I s -> I (state_after (cleanupPeer cap p) s)) ->
  forall w, steady I w -> steady I (Async.sched cap chs w).
Proof.
  intros Hq. induction chs as [|ch chs IH]; intros Hc w Hw; [exact Hw|].
  simpl. apply IH.
  - intros p s Hin. apply Hc. now apply list_elem_of_further.
  - apply step_steady; [exact Hq| |exact Hw].
    intros p s ->. apply Hc. apply list_elem_of_here.
Qed.

Lemma reachable_is_steady (cap : Capability) (chs : list Async.Choice)
    (s : State) :
  Forall calm_stretch (Async.waiting (Async.sched cap chs (Async.start s))).
Proof.
  apply (sched_steady cap (fun _ => True) chs); auto.
  split; [exact I|constructor].
Qed.

(** ** Handlers that overlap *)

(** With no stream cached, the first stretch of [await initLocalMedia()] is
    the [getUserMedia] call; the next stretch caches the stream it is given,
    in whatever state it is resumed, and the caller is still suspended. *)
Lemma await_initLocalMedia_first (cap : Capability) (s : State) :
  localStream s = None ->
  exists k,
    Async.await (Async.initLocalMedia cap) s
    = (Async.Await k, log CallGetUserMedia s) /\
    forall s2,
      snd (k s2) = match cap_getUserMedia cap s with
                   | Some ls => set_localStream (Some ls) s2
                   | None => s2
                   end /\
      exists k', fst (k s2) = Async.Await k'.
Proof.
  intros Hls.
  unfold Async.initLocalMedia, Async.await, Async.bindA, Async.sync, gets.
  cbn. rewrite Hls. cbn. unfold getUserMedia.
  destruct (cap_getUserMedia cap s) as [ls|]; cbn;
    eexists; (split; [reflexivity|]); intros s2; cbn;
    (split; [reflexivity|]); eexists; reflexivity.
Qed.

Lemma bind_first {A B} (m : Async.MA A) (f : A -> Async.MA B) (s s1 : State)
    (k : State -> Async.Activation A * State) (g : State -> State) :
  m s = (Async.Await k, s1) ->
  (forall s2, snd (k s2) = g s2 /\ exists k', fst (k s2) = Async.Await k') ->
  exists k2,
    Async.bindA m f s = (Async.Await k2, s1) /\
    forall s2, snd (k2 s2) = g s2 /\ exists k', fst (k2 s2) = Async.Await k'.
Proof.
  intros Hm Hk. unfold Async.bindA. rewrite Hm. cbn.
  eexists. split; [reflexivity|]. intros s2. cbn.
  destruct (Hk s2) as (H1 & k' & H2).
  destruct (k s2) as [t2 s3]. cbn in *. subst t2. cbn.
  split; [exact H1|]. eexists. reflexivity.
Qed.

Lemma first_stretch_opens_camera (cap : Capability) (e : Event) (s : State) :
  wants_camera e = true -> localStream s = None ->
  exists k,
    Async.dispatch cap e s = (Async.Await k, log CallGetUserMedia s) /\
    forall s2,
      snd (k s2) = match cap_getUserMedia cap s with
                   | Some ls => set_localStream (Some ls) s2
                   | None => s2
                   end /\
      exists k', fst (k s2) = Async.Await k'.
Proof.
  intros Hw Hls.
  destruct (await_initLocalMedia_first cap s Hls) as (k & Hk & Hopen).
  assert (Hmake : forall p, exists k2,
            Async.makeOffer cap p s = (Async.Await k2, log CallGetUserMedia s) /\
            forall s2,
              snd (k2 s2) = match cap_getUserMedia cap s with
                            | Some ls => set_localStream (Some ls) s2
                            | None => s2
                            end /\
              exists k', fst (k2 s2) = Async.Await k').
  { intros p. unfold Async.makeOffer. eapply bind_first; eassumption. }
  destruct e as [p|p|p sdp|p sdp|p x| | |res|res|c ev|c ev]; simpl in Hw;
    try discriminate Hw; simpl.
  - destruct (Hmake p) as (k2 & H2 & Hopen2).
    unfold Async.await. rewrite H2. cbn. eexists. split; [reflexivity|].
    intros s2. cbn. destruct (Hopen2 s2) as (H3 & k' & H4).
    destruct (k2 s2) as [t2 s3]. cbn in *. subst t2. cbn.
    split; [exact H3|]. eexists. reflexivity.
  - unfold Async.handleOffer. eapply bind_first; eassumption.
  - apply negb_true_iff in Hw. unfold Async.hostRoom_ack. rewrite Hw.
    eapply bind_first; eassumption.
  - apply negb_true_iff in Hw. unfold Async.joinRoom_ack. rewrite Hw.
    eapply bind_first; eassumption.
Qed.

Lemma deliver_suspended (cap : Capability) (w : Async.World) (e : Event)
    (k : State -> Async.Activation unit * State) (s1 : State) :
  Async.dispatch cap e (Async.now w) = (Async.Await k, s1) ->
  Async.step cap w (Async.Deliver e)
  = {| Async.now := s1; Async.waiting := Async.waiting w ++ [k] |}.
Proof. intros H. simpl. rewrite H. reflexivity. Qed.

Lemma resume_suspended (cap : Capability) (w : Async.World) (i : nat)
    (k k' : State -> Async.Activation unit * State) (s1 : State) :
  Async.waiting w !! i = Some k ->
  k (Async.now w) = (Async.Await k', s1) ->
  Async.step cap w (Async.Resume i)
  = {| Async.now := s1;
       Async.waiting := delete i (Async.waiting w) ++ [k'] |}.
Proof. intros Hi H. simpl. rewrite Hi, H. reflexivity. Qed.

Lemma surjective_pairing_eq {A B} (p : A * B) (a : A) (b : B) :
  fst p = a -> snd p = b -> p = (a, b).
Proof. destruct p. simpl. now intros -> ->. Qed.

(** X22.  Handlers overlap, and the camera can be opened twice.  When no
    stream is cached and two events whose handlers need the local media are
    delivered one after the other, the second before the first [getUserMedia]
    has resolved, both handlers call [getUserMedia] and both are suspended;
    when both calls resolve, the stream of the one that is resumed last is
    the one left in the cache. *)
Theorem overlapping_handlers_open_camera_twice
    (cap : Capability) (e1 e2 : Event) (s : State) :
  wants_camera e1 = true -> wants_camera e2 = true -> localStream s = None ->
  let w := Async.sched cap [Async.Deliver e1; Async.Deliver e2] (Async.start s) in
  trace (Async.now w) = trace s ++ [CallGetUserMedia; CallGetUserMedia] /\
  length (Async.waiting w) = 2 /\
  localStream (Async.now w) = None /\
  (forall ls1 ls2,
     cap_getUserMedia cap s = Some ls1 ->
     cap_getUserMedia cap (log CallGetUserMedia s) = Some ls2 ->
     localStream (Async.now (Async.sched cap [Async.Resume 0; Async.Resume 0] w))
     = Some ls2).
Proof.
  intros H1 H2 Hls w.
  destruct (first_stretch_opens_camera cap e1 s H1 Hls) as (k1 & E1 & K1).
  destruct (first_stretch_opens_camera cap e2 (log CallGetUserMedia s) H2 Hls)
    as (k2 & E2 & K2).
  assert (Hw : w = {| Async.now := log CallGetUserMedia (log CallGetUserMedia s);
                      Async.waiting := [k1; k2] |}).
  { unfold w, Async.sched. cbn [fold_left].
    rewrite (deliver_suspended cap (Async.start s) e1 k1 _ E1).
    now rewrite (deliver_suspended cap (Async.Build_World _ _) e2 k2 _ E2). }
  rewrite Hw. cbn [Async.now Async.waiting].
  split; [simpl; now rewrite <- app_assoc|]. split; [reflexivity|].
  split; [exact Hls|].
  intros ls1 ls2 G1 G2. unfold Async.sched. cbn [fold_left].
  destruct (K1 (log CallGetUserMedia (log CallGetUserMedia s)))
    as (S1 & k1' & T1).
  rewrite G1 in S1.
  rewrite (resume_suspended cap
             {| Async.now := log CallGetUserMedia (log CallGetUserMedia s);
                Async.waiting := [k1; k2] |} 0 k1 k1' _ eq_refl
             (surjective_pairing_eq _ _ _ T1 S1)).
  cbn [Async.now Async.waiting delete list_delete app].
  destruct (K2 (set_localStream (Some ls1)
                  (log CallGetUserMedia (log CallGetUserMedia s))))
    as (S2 & k2' & T2).
  rewrite G2 in S2.
  rewrite (resume_suspended cap
             {| Async.now := set_localStream (Some ls1)
                               (log CallGetUserMedia (log CallGetUserMedia s));
                Async.waiting := [k2; k1'] |} 0 k2 k2' _ eq_refl
             (surjective_pairing_eq _ _ _ T2 S2)).
  reflexivity.
Qed.

Lemma overlapping_handlers_open_camera_twice_witness :
  let s := init "B" "r1" "p" in
  let w := Async.sched Fixture.lenient
             [Async.Deliver (PeerJoined "C"); Async.Deliver (WebrtcOffer "A" "offer-a")]
             (Async.start s) in
  trace (Async.now w) = [CallGetUserMedia; CallGetUserMedia] /\
  trace (run Fixture.lenient [PeerJoined "C"] s)
  = [CallGetUserMedia; CallNew 0; CallAddTrack 0 "audio"; CallAddTrack 0 "video";
     CallCreateOffer 0; CallSetLocalDescription 0 "offer";
     Emit "webrtc-offer" [("to", JStr "C"); ("from", JStr "B");
                          ("sdp", JDesc "offer")]].
Proof.
  intros s.
  destruct (overlapping_handlers_open_camera_twice Fixture.lenient
              (PeerJoined "C") (WebrtcOffer "A" "offer-a") s)
    as (H & _); try reflexivity.
  split; [exact H|reflexivity].
Defined.

(** ** What every schedule keeps *)

(** X23.  On every schedule, once a local stream is cached the camera is not
    asked for again.  From a world reached by any deliveries and resumptions,
    with whatever handlers suspended in it, any further deliveries and
    resumptions leave a stream in the cache (the one of a call made earlier
    may replace it) and add no [getUserMedia] call. *)
Theorem camera_not_reopened
    (cap : Capability) (s : State) (chs1 chs2 : list Async.Choice) :
  let w1 := Async.sched cap chs1 (Async.start s) in
  let w2 := Async.sched cap chs2 w1 in
  is_Some (localStream (Async.now w1)) ->
  is_Some (localStream (Async.now w2)) /\
  exists l, trace (Async.now w2) = trace (Async.now w1) ++ l /\
            CallGetUserMedia ∉ l.
Proof.
  intros w1 w2 Hls.
  apply (sched_steady cap (camera_kept (Async.now w1)) chs2).
  - intros s1 s2. apply camera_kept_quiet.
  - intros p s1 _. apply camera_kept_cleanup.
  - split; [|apply reachable_is_steady].
    split; [exact Hls|]. exists []. split; [now rewrite app_nil_r|].
    apply not_elem_of_nil.
Qed.

Lemma camera_not_reopened_witness :
  let chs1 := [Async.Deliver (PeerJoined "b"); Async.Deliver (WebrtcOffer "b" "offer-b");
               Async.Resume 0] in
  let chs2 := [Async.Resume 0; Async.Deliver (PeerJoined "c"); Async.Resume 0;
               Async.Resume 1; Async.Resume 0; Async.Deliver (PeerLeft "b")] in
  let w1 := Async.sched Fixture.lenient chs1 (Async.start (init "a" "r1" "p")) in
  let w2 := Async.sched Fixture.lenient chs2 w1 in
  camera_calls (trace (Async.now w1)) = 2 /\
  is_Some (localStream (Async.now w2)) /\
  exists l, trace (Async.now w2) = trace (Async.now w1) ++ l /\
            CallGetUserMedia ∉ l.
Proof.
  intros chs1 chs2 w1 w2. split; [reflexivity|].
  apply (camera_not_reopened Fixture.lenient (init "a" "r1" "p") chs1 chs2).
  now exists Fixture.camera.
Defined.

(** X24.  On every schedule the table stays sound.  In every state the
    client reaches from its initial state, however the handlers overlap,
    each entry of the table refers to a connection that exists and whose
    handlers are bound to that very peer, and no connection is the entry of
    two peers; the connection is open unless it is the entry stored under
    the key [__proto__]. *)
Theorem table_sound_on_every_schedule
    (cap : Capability) (chs : list Async.Choice) (sid room pw : string) :
  let s := Async.now (Async.sched cap chs (Async.start (init sid room pw))) in
  (forall p c, pcs s !! p = Some c ->
     exists conn, conns s !! c = Some conn /\
                  c_peer conn = Some p /\
                  (p <> "__proto__" -> c_closed conn = false)) /\
  (forall p q c, pcs s !! p = Some c -> pcs s !! q = Some c -> p = q).
Proof.
  assert (H : table_ok
                (Async.now (Async.sched cap chs (Async.start (init sid room pw))))).
  { apply (sched_steady cap table_ok chs).
    - apply table_ok_quiet.
    - intros p s _. apply table_ok_cleanup.
    - split; [|constructor].
      intros p c Hp. simpl in Hp. rewrite lookup_empty in Hp. discriminate. }
  split; [exact H|]. intros p q c. now apply table_ok_injective.
Qed.

Lemma table_sound_on_every_schedule_witness :
  let chs := [Async.Deliver (PeerJoined "b"); Async.Deliver (WebrtcOffer "b" "offer-b");
              Async.Resume 0; Async.Resume 0; Async.Resume 0; Async.Resume 0] in
  let s := Async.now (Async.sched Fixture.lenient chs
                        (Async.start (init "a" "r1" "p"))) in
  pcs s !! "b" = Some 1 /\
  exists conn, conns s !! 1 = Some conn /\
               c_peer conn = Some "b" /\
               (("b" : string) <> "__proto__" -> c_closed conn = false).
Proof.
  intros chs s. split; [reflexivity|].
  destruct (table_sound_on_every_schedule Fixture.lenient chs "a" "r1" "p")
    as [H _].
  apply (H "b" 1). reflexivity.
Defined.

Lemma closes_nothing_same (s s' : State) :
  conns s' = conns s -> closes_nothing s s'.
Proof.
  intros H. split; rewrite H; [lia|]. intros c conn' ->. reflexivity.
Qed.

Lemma closes_nothing_quiet (s s' : State) : quiet s s' -> closes_nothing s s'.
Proof.
  intros Hq.
  destruct Hq as [s s' Hn|s E|s ls'|s p ls' t i|s c conn p t v _ _ _|s e|s b];
    try (apply closes_nothing_same; reflexivity).
  - now apply negotiates_closes_nothing.
  - split; simpl.
    + rewrite length_app. lia.
    + intros c conn' Hl. destruct (conns s !! c) as [conn|] eqn:E.
      * rewrite (lookup_app_l_Some _ _ _ _ E) in Hl. now injection Hl as <-.
      * apply lookup_ge_None in E. rewrite lookup_app_r in Hl by exact E.
        destruct (c - length (conns s)) as [|n]; simpl in Hl;
          [now injection Hl as <- | discriminate].
Qed.

(** X25.  On every schedule, only [peer-left] closes a connection.  Whatever
    other events are delivered and however their handlers overlap, succeed or
    reject, every connection that existed is closed afterwards exactly if it
    was closed before, and every connection built meanwhile is open. *)
Theorem nothing_closes_without_peer_left
    (cap : Capability) (s : State) (chs : list Async.Choice) :
  (forall p, Async.Deliver (PeerLeft p) ∉ chs) ->
  closes_nothing s (Async.now (Async.sched cap chs (Async.start s))).
Proof.
  intros Hleft.
  apply (sched_steady cap (closes_nothing s) chs).
  - intros s1 s2 Hq H. eapply closes_nothing_trans; [exact H|].
    now apply closes_nothing_quiet.
  - intros p s1 Hin. destruct (Hleft p Hin).
  - split; [apply closes_nothing_refl|constructor].
Qed.

Lemma nothing_closes_without_peer_left_witness :
  let chs := [Async.Deliver (WebrtcOffer "b" "offer-b"); Async.Resume 0;
              Async.Deliver (PeerJoined "b"); Async.Resume 0; Async.Resume 1;
              Async.Resume 0; Async.Resume 0] in
  let s' := Async.now (Async.sched deaf chs (Async.start (init "a" "r1" "p"))) in
  length (conns s') = 2 /\
  closes_nothing (init "a" "r1" "p") s'.
Proof.
  intros chs s'. split; [reflexivity|].
  apply (nothing_closes_without_peer_left deaf (init "a" "r1" "p") chs).
  intros p Hin. apply list_elem_of_In in Hin. simpl in Hin.
  repeat destruct Hin as [Hin|Hin]; try discriminate Hin. exact Hin.
Defined.

(** X26.  On every schedule, an open connection that no entry of the table
    refers to stays open and unreferenced: from a world reached by any
    deliveries and resumptions, no further delivery or resumption closes it
    or puts it back into the table. *)
Theorem unreferenced_stays_open_on_every_schedule
    (cap : Capability) (c : nat) (s : State) (chs1 chs2 : list Async.Choice) :
  let w1 := Async.sched cap chs1 (Async.start s) in
  stray c (Async.now w1) ->
  stray c (Async.now (Async.sched cap chs2 w1)).
Proof.
  intros w1 H.
  apply (sched_steady cap (stray c) chs2).
  - apply stray_quiet.
  - intros p s1 _. apply stray_cleanup.
  - split; [exact H|apply reachable_is_steady].
Qed.

Lemma unreferenced_stays_open_on_every_schedule_witness :
  let chs1 := Async.serial Fixture.lenient
                [PeerJoined "b"; WebrtcOffer "b" "offer-b"] (init "a" "r1" "p") in
  let chs2 := [Async.Deliver (WebrtcAnswer "b" "answer-b"); Async.Deliver (PeerLeft "b");
               Async.Resume 0; Async.Deliver (PeerJoined "b"); Async.Resume 0] in
  let w1 := Async.sched Fixture.lenient chs1 (Async.start (init "a" "r1" "p")) in
  pcs (Async.now w1) !! "b" = Some 1 /\
  stray 0 (Async.now (Async.sched Fixture.lenient chs2 w1)).
Proof.
  intros chs1 chs2 w1. split; [reflexivity|].
  apply (unreferenced_stays_open_on_every_schedule Fixture.lenient 0
           (init "a" "r1" "p") chs1 chs2).
  split.
  - eexists. split; reflexivity.
  - intros p Hp. destruct (decide (p = "b")) as [->|Hne].
    + discriminate Hp.
    + vm_compute in Hp.
      change (<[("b":string) := 1]> (<[("b":string) := 0]> (∅ : gmap string nat)) !! p = Some 0) in Hp.
      rewrite !lookup_insert_ne, lookup_empty in Hp by congruence. discriminate.
Defined.
